(** * audio-upscaler: the STFT enhancement pipeline, embedded in Rocq

    A shallow embedding of [audio_upscale/core/upscaler.py] and
    [audio_upscale/enhancers/spectral.py], with the preset files of
    [audio_upscale/utils/preset_manager.py] and the loop of
    [audio_upscale/cli.py] that builds the enhancer chain.

    Numeric model.  Samples, magnitudes and phases are real numbers ([R]):
    the arithmetic of the program is read as exact arithmetic, so a
    tolerance of the specification becomes an equality here, and rounding is
    not modelled.  Integers (frame size, hop length, offsets, indices) are
    [Z] and [nat] and compute.  Where Python raises, the model stops with
    the exception.  Where numpy leaves the real numbers (a division 0/0 or
    x/0 gives nan or inf) the program raises nothing and goes on with them;
    the model has no number for them and ends with the outcome [NonFinite],
    which says that the data of the run are no longer real numbers and
    nothing about what the program then returns or raises.  The range of
    the floats is modelled where it decides whether Python raises: at the
    power [harmonic ** harmonic_decay] and the division by it. *)

From Stdlib Require Import Reals Lra Lia List ZArith Bool Arith.
From Stdlib Require String Ascii.
Import String.StringSyntax.
Delimit Scope string_scope with string.
Import ListNotations.
Open Scope R_scope.

(** ** Outcomes of fallible code *)

Inductive exn : Type :=
| ValueError          (* raised by Python or numpy *)
| ZeroDivisionError   (* a division of Python numbers by zero *)
| OverflowError       (* a power of Python floats out of their range *)
| NonFinite.          (* no exception: numpy went on with nan or inf *)

Inductive result (A : Type) : Type :=
| Ok (a : A)
| Raise (e : exn).
Arguments Ok {A} a.
Arguments Raise {A} e.

Definition bind {A B : Type} (c : result A) (k : A -> result B) : result B :=
  match c with
  | Ok a => k a
  | Raise e => Raise e
  end.

Notation "x <- c ;; k" := (bind c (fun x => k))
  (at level 61, c at next level, right associativity).
Notation "' pat <- c ;; k" := (bind c (fun x => match x with pat => k end))
  (at level 61, pat pattern, c at next level, right associativity).

(** ** Python and numpy primitives used by the program *)

Module Py.

(** A slice bound [i] on a sequence of length [len], as Python clamps it. *)
Definition bound (len i : Z) : nat :=
  Z.to_nat (if (i <? 0)%Z then Z.max 0 (i + len) else Z.min i len).

(** [l[start:stop]] *)
Definition slice {A : Type} (l : list A) (start stop : Z) : list A :=
  let n := Z.of_nat (length l) in
  firstn (bound n stop - bound n start) (skipn (bound n start) l).

(** [l[start:]] *)
Definition slice_from {A : Type} (l : list A) (start : Z) : list A :=
  skipn (bound (Z.of_nat (length l)) start) l.

(** [l[:stop]] *)
Definition slice_to {A : Type} (l : list A) (stop : Z) : list A :=
  firstn (bound (Z.of_nat (length l)) stop) l.

(** [range(start, stop, step)]; a zero step raises. *)
Definition range_len (start stop step : Z) : nat :=
  Z.to_nat (if (0 <? step)%Z then (stop - start + step - 1) / step
            else (start - stop - step - 1) / (- step))%Z.

Definition range (start stop step : Z) : result (list Z) :=
  if (step =? 0)%Z then Raise ValueError
  else Ok (map (fun i => (start + Z.of_nat i * step)%Z)
               (seq 0 (range_len start stop step))).

(** The largest float, [sys.float_info.max]. *)
Definition float_max : R := (2 - (/ 2) ^ 52) * 2 ^ 1023.

(** Half the smallest float above zero: what is not above it rounds to
    [0.0]. *)
Definition float_tiny : R := (/ 2) ^ 1075.

(** [x ** y] on Python floats, for [x > 0]: a power above the floats raises
    OverflowError, one too small for them is [0.0] and raises nothing; a
    power in between is read as exact. *)
Definition float_pow (x y : R) : result R :=
  let power := Rpower x y in
  if Rlt_dec float_max power then Raise OverflowError
  else if Rle_dec power float_tiny then Ok 0
  else Ok power.

(** [x / y] on Python floats: a zero divisor raises; a quotient beyond the
    floats is inf and raises nothing. *)
Definition float_div (x y : R) : result R :=
  if Req_dec_T y 0 then Raise ZeroDivisionError
  else if Rlt_dec float_max (Rabs (x / y)) then Raise NonFinite
  else Ok (x / y).

(** A [for] loop whose body may raise: [body] takes what the loop has
    built so far and the item of the turn. *)
Fixpoint for_each {A B : Type} (body : A -> B -> result A) (items : list B)
         (a : A) : result A :=
  match items with
  | [] => Ok a
  | x :: rest => a' <- body a x ;; for_each body rest a'
  end.

End Py.

Fixpoint map2 {A B C : Type} (f : A -> B -> C) (xs : list A) (ys : list B)
  : list C :=
  match xs, ys with
  | x :: xs', y :: ys' => f x y :: map2 f xs' ys'
  | _, _ => []
  end.

(** Sum of [f 0 .. f (n-1)]. *)
Fixpoint big_sum (n : nat) (f : nat -> R) : R :=
  match n with
  | O => 0
  | S n' => big_sum n' f + f n'
  end.

Definition Rgtb (x y : R) : bool := if Rgt_dec x y then true else false.

(** A Python bool used as a number. *)
Definition bool_to_R (b : bool) : R := if b then 1 else 0.

Definition all_nonneg (l : list R) : Prop := Forall (fun x => 0 <= x) l.

Module Np.

Definition sum (l : list R) : R := fold_right Rplus 0 l.

(** [np.mean]; on an empty array numpy gives nan, which the program only
    ever compares against or combines with the elements of that same empty
    array, so the value chosen here for it (0) is never observed. *)
Definition mean (l : list R) : R := sum l / INR (length l).

(** [np.linspace(start, stop, num)] *)
Definition linspace (start stop : R) (num : nat) : list R :=
  match num with
  | O => []
  | S O => [start]
  | _ => map (fun i => start + INR i * ((stop - start) / INR (num - 1)))
             (seq 0 num)
  end.

(** The symmetric Hann window: [np.hanning(M)] and
    [scipy.signal.windows.hann(M)] agree on it. *)
Definition hanning (M : nat) : list R :=
  match M with
  | O => []
  | S O => [1]
  | _ => map (fun n => 0.5 - 0.5 * cos (2 * PI * INR n / INR (M - 1)))
             (seq 0 M)
  end.

(** Elementwise binary operation with numpy's broadcasting of one-element
    arrays; other length mismatches raise. *)
Definition broadcast2 (op : R -> R -> R) (xs ys : list R)
  : result (list R) :=
  if Nat.eqb (length xs) (length ys) then Ok (map2 op xs ys)
  else match xs, ys with
       | [x], _ => Ok (map (op x) ys)
       | _, [y] => Ok (map (fun x => op x y) xs)
       | _, _ => Raise ValueError
       end.

(** In-place [xs op= ys]: the result must keep the shape of [xs]. *)
Definition inplace2 (op : R -> R -> R) (xs ys : list R)
  : result (list R) :=
  if Nat.eqb (length xs) (length ys) then Ok (map2 op xs ys)
  else match ys with
       | [y] => Ok (map (fun x => op x y) xs)
       | _ => Raise ValueError
       end.

(** [np.argmax]: the first index of the largest element. *)
Fixpoint argmax_from (best : R) (best_i i : nat) (l : list R) : nat :=
  match l with
  | [] => best_i
  | x :: t => if Rgt_dec x best then argmax_from x i (S i) t
              else argmax_from best best_i (S i) t
  end.

Definition argmax (l : list R) : nat :=
  match l with
  | [] => O
  | x :: t => argmax_from x 0 1 t
  end.

(** [np.max]; raises on an empty array. *)
Definition max (l : list R) : result R :=
  match l with
  | [] => Raise ValueError
  | x :: t => Ok (fold_left Rmax t x)
  end.

(** [l[start:start+len(vals)] *= vals], for a slice inside [l]. *)
Definition slice_mul (l : list R) (start : nat) (vals : list R) : list R :=
  firstn start l
    ++ map2 Rmult (firstn (length vals) (skipn start l)) vals
    ++ skipn (start + length vals) l.

(** [l[start:stop] = f(l[start:stop])] elementwise, [start <= stop]. *)
Definition slice_map (f : R -> R) (l : list R) (start stop : nat) : list R :=
  firstn start l
    ++ map f (firstn (stop - start) (skipn start l))
    ++ skipn (Nat.max start stop) l.

End Np.

(** ** enhancers/spectral.py *)

(** An enhancer instance: its configuration and, for the transient enhancer,
    the stored magnitudes of the previous frame ([None] until a frame was
    seen).  [process] returns the instance as the call leaves it. *)
Inductive Enhancer : Type :=
| HarmonicEnhancer (harmonic_boost harmonic_decay : R) (preserve_phases : bool)
| SpectralWidener (width : R) (focus_region : R * R)
| ExciterEnhancer (drive : R) (freq_range : R * R)
| TransientEnhancer (sensitivity attack_boost : R)
                    (_prev_magnitudes : option (list R)).

Module HarmonicEnhancer.

(** [self.harmonic_boost * (1 / (harmonic ** self.harmonic_decay))], with
    [harmonic] a Python int and the two parameters Python floats: the power
    raises OverflowError when it leaves the floats, and the division raises
    ZeroDivisionError when the power is [0.0] and gives inf when the power
    is too small for its inverse to be a float. *)
Definition boost_of (harmonic_boost harmonic_decay : R) (harmonic : nat)
  : result R :=
  power <- Py.float_pow (INR harmonic) harmonic_decay ;;
  ratio <- Py.float_div 1 power ;;
  Ok (harmonic_boost * ratio).

(** One turn of the loop [for harmonic in range(2, 8)]. *)
Definition boost_harmonic (harmonic_boost harmonic_decay : R)
           (n fundamental_idx : nat) (enhanced_magnitudes : list R)
           (harmonic : nat) : result (list R) :=
  let harmonic_idx := (fundamental_idx * harmonic)%nat in
  if (harmonic_idx <? n)%nat then
    boost <- boost_of harmonic_boost harmonic_decay harmonic ;;
    let window_size := Nat.max 3 (Nat.min 5 (n / 1000)) in
    let start_idx := (harmonic_idx - window_size)%nat in
    let end_idx := Nat.min n (harmonic_idx + window_size + 1) in
    let window := Np.hanning (end_idx - start_idx) in
    let boost_factors := map (fun w => 1 + w * (boost - 1)) window in
    Ok (Np.slice_mul enhanced_magnitudes start_idx boost_factors)
  else Ok enhanced_magnitudes.

Definition process (harmonic_boost harmonic_decay : R)
           (magnitudes phases : list R) : result (list R * list R) :=
  let n := length magnitudes in
  let lower_region := Nat.min (n / 5) 100 in
  enhanced_magnitudes <-
    (if (0 <? lower_region)%nat then
       let fundamental_idx := Np.argmax (firstn lower_region magnitudes) in
       if (0 <? fundamental_idx)%nat then
         Py.for_each (boost_harmonic harmonic_boost harmonic_decay n
                                     fundamental_idx)
                     (seq 2 6) magnitudes
       else Ok magnitudes
     else Ok magnitudes) ;;
  Ok (enhanced_magnitudes, phases).

End HarmonicEnhancer.

Module SpectralWidener.

Definition process (width : R) (magnitudes phases : list R)
  : list R * list R :=
  let phase_shift := Np.linspace 0 (PI / 4 * (width - 1)) (length phases) in
  (magnitudes, map2 Rplus phases phase_shift).

End SpectralWidener.

Module ExciterEnhancer.

(** [mask = ones; mask[len//8 : len//2] = 1.1] *)
Definition mask (n : nat) : list R :=
  Np.slice_map (fun _ => 1.1) (repeat 1 n) (n / 8) (n / 2).

(** With [drive = 0] every bin is [tanh(0)/0], which numpy evaluates to
    nan: nothing is raised, and the magnitudes come back as nan. *)
Definition process (drive : R) (magnitudes phases : list R)
  : result (list R * list R) :=
  match magnitudes with
  | [] => Ok ([], phases)
  | _ =>
      if Req_dec_T drive 0 then Raise NonFinite
      else
        let saturated := map (fun m => tanh (m * drive) / drive) magnitudes in
        Ok (map2 Rmult saturated (mask (length saturated)), phases)
  end.

End ExciterEnhancer.

Module TransientEnhancer.

(** The boolean mask of the bins flagged as transients. *)
Definition transient_mask (sensitivity : R) (flux : list R) : list bool :=
  let positive_flux := map (Rmax 0) flux in
  let threshold := Np.mean positive_flux * (1 + sensitivity * 5) in
  map (fun f => Rgtb f threshold) positive_flux.

Definition process (sensitivity attack_boost : R)
           (_prev_magnitudes : option (list R))
           (magnitudes phases : list R)
  : result (list R * list R * option (list R)) :=
  match _prev_magnitudes with
  | None => Ok (magnitudes, phases, Some magnitudes)
  | Some prev =>
      flux <- Np.broadcast2 Rminus magnitudes prev ;;
      let boost_amount :=
        map (fun b => 1 + bool_to_R b * (attack_boost - 1))
            (transient_mask sensitivity flux) in
      enhanced_magnitudes <- Np.inplace2 Rmult magnitudes boost_amount ;;
      Ok (enhanced_magnitudes, phases, Some magnitudes)
  end.

End TransientEnhancer.

(** [enhancer.process(magnitudes, phases)], dispatched on the class. *)
Definition process (e : Enhancer) (magnitudes phases : list R)
  : result (list R * list R * Enhancer) :=
  match e with
  | HarmonicEnhancer hb hd pp =>
      '(m, p) <- HarmonicEnhancer.process hb hd magnitudes phases ;;
      Ok (m, p, e)
  | SpectralWidener w fr =>
      let '(m, p) := SpectralWidener.process w magnitudes phases in
      Ok (m, p, e)
  | ExciterEnhancer d fr =>
      '(m, p) <- ExciterEnhancer.process d magnitudes phases ;;
      Ok (m, p, e)
  | TransientEnhancer s ab prev =>
      '(m, p, prev') <- TransientEnhancer.process s ab prev magnitudes phases ;;
      Ok (m, p, TransientEnhancer s ab prev')
  end.

(** [apply_enhancer_chain]: the enhancers are applied in order; the chain is
    returned with the state each instance is left in.  The chain holds
    distinct instances, as [create_enhancer_chain] builds it. *)
Fixpoint apply_enhancer_chain (magnitudes phases : list R)
         (enhancers : list Enhancer)
  : result (list R * list R * list Enhancer) :=
  match enhancers with
  | [] => Ok (magnitudes, phases, [])
  | enhancer :: rest =>
      '(m, p, enhancer') <- process enhancer magnitudes phases ;;
      '(m', p', rest') <- apply_enhancer_chain m p rest ;;
      Ok (m', p', enhancer' :: rest')
  end.

(** ** The Fourier transform pair of numpy, over the reals *)

Definition complex : Type := (R * R)%type.

Module Fft.

(** [np.abs] of a complex number *)
Definition abs (z : complex) : R := sqrt (fst z * fst z + snd z * snd z).

(** [np.arctan2(y, x)] (signed zeros are not told apart) *)
Definition arctan2 (y x : R) : R :=
  if Rlt_dec 0 x then atan (y / x)
  else if Rlt_dec x 0 then
         if Rle_dec 0 y then atan (y / x) + PI else atan (y / x) - PI
  else if Rlt_dec 0 y then PI / 2
  else if Rlt_dec y 0 then - (PI / 2)
  else 0.

(** [np.angle] of a complex number *)
Definition angle (z : complex) : R := arctan2 (snd z) (fst z).

(** [magnitude * np.exp(1j * phase)] *)
Definition polar (magnitude phase : R) : complex :=
  (magnitude * cos phase, magnitude * sin phase).

(** The angle [2 pi k n / N] of the transform of [N] samples. *)
Definition turn (N k n : nat) : R := 2 * PI * INR k * INR n / INR N.

(** The angle [2 pi (n - j) / N] between the samples [n] and [j]. *)
Definition lag (N j n : nat) : R := 2 * PI * (INR n - INR j) / INR N.

(** Bin [k] of the forward transform of [a]:
    the sum of [a[n] * exp(-2 pi i k n / N)]. *)
Definition rfft_bin (a : list R) (k : nat) : complex :=
  let N := length a in
  (big_sum N (fun n => nth n a 0 * cos (turn N k n)),
   - big_sum N (fun n => nth n a 0 * sin (turn N k n))).

(** [np.fft.rfft(a)]: bins [0 .. N//2]; raises on an empty input. *)
Definition rfft (a : list R) : result (list complex) :=
  match a with
  | [] => Raise ValueError
  | _ => Ok (map (rfft_bin a) (seq 0 (length a / 2 + 1)))
  end.

(** Sample [j] of the inverse real transform of the [m] bins [s], of
    output length [n = 2*(m-1)]: the imaginary parts of bin 0 and of the
    last bin play no part. *)
Definition irfft_sample (s : list complex) (j : nat) : R :=
  let m := length s in
  let n := (2 * (m - 1))%nat in
  (fst (nth 0 s (0, 0))
   + (-1) ^ j * fst (nth (m - 1) s (0, 0))
   + 2 * big_sum (m - 2) (fun i =>
           let k := S i in
           fst (nth k s (0, 0)) * cos (turn n k j)
           - snd (nth k s (0, 0)) * sin (turn n k j)))
  / INR n.

(** [np.fft.irfft(s)]: an output of zero length raises. *)
Definition irfft (s : list complex) : result (list R) :=
  let m := length s in
  if (m <=? 1)%nat then Raise ValueError
  else Ok (map (irfft_sample s) (seq 0 (2 * (m - 1)))).

End Fft.

(** ** core/upscaler.py *)

Record AudioUpscaler : Type := {
  intensity : R;
  harmonics_boost : R;
  noise_reduction : R;
  dynamic_boost : R;
  clarity_enhance : bool;
  enhancer_chain : list Enhancer
}.

(** The audio handed to [process_audio]: a one-dimensional array, or a
    two-column array given by its rows. *)
Inductive audio : Type :=
| Mono (samples : list R)
| Stereo (rows : list (R * R)).

Module Upscaler.

(** [AudioUpscaler.__init__]; [enhancer_chain=None] is [None] here. *)
Definition __init__ (intensity harmonics_boost noise_reduction
                     dynamic_boost : R) (clarity_enhance : bool)
           (enhancer_chain : option (list Enhancer))
  : result AudioUpscaler :=
  Ok {| intensity := intensity;
        harmonics_boost := harmonics_boost;
        noise_reduction := noise_reduction;
        dynamic_boost := dynamic_boost;
        clarity_enhance := clarity_enhance;
        enhancer_chain := match enhancer_chain with
                          | Some (e :: c) => e :: c
                          | _ => []
                          end |}.

Definition with_chain (self : AudioUpscaler) (chain : list Enhancer)
  : AudioUpscaler :=
  {| intensity := intensity self;
     harmonics_boost := harmonics_boost self;
     noise_reduction := noise_reduction self;
     dynamic_boost := dynamic_boost self;
     clarity_enhance := clarity_enhance self;
     enhancer_chain := chain |}.

(** *** The built-in stages of [_process_frame] *)

(** # Noise floor reduction *)
Definition noise_floor_reduction (noise_reduction : R)
           (enhanced_magnitudes : list R) : list R :=
  if Rgt_dec noise_reduction 0 then
    let noise_floor :=
      Np.mean (Py.slice_from enhanced_magnitudes
                 (- Z.of_nat (length enhanced_magnitudes) / 5)) in
    let mask :=
      map (fun m => Rgtb m (noise_floor * (1 + noise_reduction * 3)))
          enhanced_magnitudes in
    map2 (fun m b => m * bool_to_R b) enhanced_magnitudes mask
  else enhanced_magnitudes.

(** # Harmonic enhancement *)
Definition harmonic_enhancement (harmonics_boost : R)
           (enhanced_magnitudes : list R) : list R :=
  if Rgt_dec harmonics_boost 0 then
    let harmonic_region := (length enhanced_magnitudes / 2)%nat in
    let boost_curve := Np.linspace 1.0 0.1 harmonic_region in
    let boost_amount := map (fun c => 1.0 + c * harmonics_boost) boost_curve in
    Np.slice_mul enhanced_magnitudes 0 boost_amount
  else enhanced_magnitudes.

(** # Overall intensity scaling *)
Definition intensity_scaling (intensity : R) (enhanced_magnitudes : list R)
  : list R :=
  map (fun m => m * intensity) enhanced_magnitudes.

(** # Dynamic range enhancement *)
Definition dynamic_range_enhancement (dynamic_boost : R)
           (enhanced_magnitudes : list R) : list R :=
  if Req_dec_T dynamic_boost 1.0 then enhanced_magnitudes
  else
    let mean_magnitude := Np.mean enhanced_magnitudes in
    map (fun m => Rmax 0 (mean_magnitude + (m - mean_magnitude) * dynamic_boost))
        enhanced_magnitudes.

(** # Clarity enhancement *)
Definition clarity_enhancement (clarity_enhance : bool)
           (enhanced_magnitudes : list R) : list R :=
  if clarity_enhance then
    let mid_start := (length enhanced_magnitudes / 8)%nat in
    let mid_end := (length enhanced_magnitudes / 3)%nat in
    Np.slice_map (fun m => m * 1.2) enhanced_magnitudes mid_start mid_end
  else enhanced_magnitudes.

(** The five built-in stages in their order. *)
Definition builtin_stages (self : AudioUpscaler) (magnitudes : list R)
  : list R :=
  clarity_enhancement (clarity_enhance self)
    (dynamic_range_enhancement (dynamic_boost self)
      (intensity_scaling (intensity self)
        (harmonic_enhancement (harmonics_boost self)
          (noise_floor_reduction (noise_reduction self) magnitudes)))).

(** The analysis half of [_process_frame]: magnitudes and phases. *)
Definition analyze (frame : list R) : result (list R * list R) :=
  fft_data <- Fft.rfft frame ;;
  Ok (map Fft.abs fft_data, map Fft.angle fft_data).

(** The synthesis half of [_process_frame] (# Reconstruct the signal); the
    enhancers keep the two sequences of one length. *)
Definition synthesize (enhanced_magnitudes enhanced_phases : list R)
  : result (list R) :=
  Fft.irfft (map2 Fft.polar enhanced_magnitudes enhanced_phases).

Definition _process_frame (self : AudioUpscaler) (frame : list R)
  : result (list R * AudioUpscaler) :=
  '(magnitudes, phases) <- analyze frame ;;
  let enhanced_magnitudes := builtin_stages self magnitudes in
  '(enhanced_magnitudes, enhanced_phases, chain) <-
    match enhancer_chain self with
    | [] => Ok (enhanced_magnitudes, phases, [])
    | _ => apply_enhancer_chain enhanced_magnitudes phases
                                (enhancer_chain self)
    end ;;
  enhanced_frame <- synthesize enhanced_magnitudes enhanced_phases ;;
  Ok (enhanced_frame, with_chain self chain).

(** *** [_process_channel] *)

(** The source index of [np.pad(.., mode='reflect')] for the position [j]
    relative to the start of an array of length [len]. *)
Definition reflect_index (len : nat) (j : Z) : nat :=
  if (len =? 1)%nat then O
  else
    let period := (2 * (Z.of_nat len - 1))%Z in
    let r := (j mod period)%Z in
    Z.to_nat (if (r <? Z.of_nat len)%Z then r else period - r)%Z.

(** [np.pad(a, (pad, pad), mode='reflect')] *)
Definition pad_reflect (a : list R) (pad : Z) : result (list R) :=
  if (pad <? 0)%Z then Raise ValueError
  else match a with
       | [] => if (pad =? 0)%Z then Ok [] else Raise ValueError
       | x0 :: _ =>
           Ok (map (fun i => nth (reflect_index (length a) (Z.of_nat i - pad))
                                 a x0)
                   (seq 0 (length a + 2 * Z.to_nat pad)))
       end.

(** [range(0, len(padded_audio) - frame_size, hop_length)] *)
Definition frame_offsets (padded_len frame_size hop_length : Z)
  : result (list Z) :=
  Py.range 0 (padded_len - frame_size) hop_length.

(** [total_frames], the length announced to the progress bar *)
Definition total_frames (padded_len frame_size hop_length : Z) : result Z :=
  if (hop_length =? 0)%Z then Raise ZeroDivisionError
  else Ok (1 + (padded_len - frame_size) / hop_length)%Z.

(** [enhanced_audio[start:stop] += vals] *)
Definition slice_iadd (enhanced_audio : list R) (start stop : Z)
           (vals : list R) : result (list R) :=
  let n := Z.of_nat (length enhanced_audio) in
  let s := Py.bound n start in
  let e := Py.bound n stop in
  updated <- Np.inplace2 Rplus (Py.slice enhanced_audio start stop) vals ;;
  Ok (firstn s enhanced_audio ++ updated ++ skipn (Nat.max s e) enhanced_audio).

(** The body of the frame loop, over the offsets still to visit. *)
Fixpoint frame_loop (self : AudioUpscaler) (padded_audio : list R)
         (frame_size : Z) (offsets : list Z) (enhanced_audio : list R)
  : result (list R * AudioUpscaler) :=
  match offsets with
  | [] => Ok (enhanced_audio, self)
  | i :: rest =>
      let frame := Py.slice padded_audio i (i + frame_size) in
      '(enhanced_frame, self') <- _process_frame self frame ;;
      windowed <- Np.broadcast2 Rmult enhanced_frame
                                (Np.hanning (Z.to_nat frame_size)) ;;
      enhanced_audio' <- slice_iadd enhanced_audio i (i + frame_size)
                                    windowed ;;
      frame_loop self' padded_audio frame_size rest enhanced_audio'
  end.

(** [enhanced_audio /= num_overlaps].  With [num_overlaps = 0] numpy raises
    nothing: it fills the array with nan and inf, and the run goes on with
    them (it returns them, or raises at [np.max] when nothing is left after
    the padding is removed). *)
Definition overlap_normalize (enhanced_audio : list R) (num_overlaps : Z)
  : result (list R) :=
  match enhanced_audio with
  | [] => Ok []
  | _ => if (num_overlaps =? 0)%Z then Raise NonFinite
         else Ok (map (fun x => x / IZR num_overlaps) enhanced_audio)
  end.

(** [_process_channel] up to and including # Remove padding. *)
Definition overlap_add (self : AudioUpscaler) (channel_data : list R)
           (frame_size hop_length : Z) : result (list R * AudioUpscaler) :=
  let pad_length := frame_size in
  padded_audio <- pad_reflect channel_data pad_length ;;
  let enhanced_audio := repeat 0 (length padded_audio) in
  total <- total_frames (Z.of_nat (length padded_audio)) frame_size
                        hop_length ;;
  offsets <- frame_offsets (Z.of_nat (length padded_audio)) frame_size
                           hop_length ;;
  '(enhanced_audio, self') <- frame_loop self padded_audio frame_size
                                         offsets enhanced_audio ;;
  let num_overlaps := (frame_size / hop_length)%Z in
  enhanced_audio <- overlap_normalize enhanced_audio num_overlaps ;;
  Ok (Py.slice enhanced_audio pad_length (- pad_length), self').

(** # Normalize audio level *)
Definition normalize_level (enhanced_audio : list R) : result (list R) :=
  max_val <- Np.max (map Rabs enhanced_audio) ;;
  if Rgt_dec max_val 0 then
    let target_level := 0.95 in
    let current_level := max_val in
    let gain := target_level / current_level in
    Ok (map (fun x => x * gain) enhanced_audio)
  else Ok enhanced_audio.

Definition _process_channel (self : AudioUpscaler) (channel_data : list R)
           (sr frame_size hop_length : Z)
  : result (list R * AudioUpscaler) :=
  '(enhanced_audio, self') <- overlap_add self channel_data frame_size
                                          hop_length ;;
  enhanced_audio <- normalize_level enhanced_audio ;;
  Ok (enhanced_audio, self').

(** [np.column_stack((left, right))] *)
Definition column_stack (left right : list R) : result (list (R * R)) :=
  if Nat.eqb (length left) (length right) then Ok (combine left right)
  else Raise ValueError.

(** [process_audio]; the progress callback and the printing are left out. *)
Definition process_audio (self : AudioUpscaler) (audio_data : audio)
           (sr frame_size hop_length : Z) : result (audio * AudioUpscaler) :=
  match audio_data with
  | Stereo rows =>
      let left_channel := map fst rows in
      let right_channel := map snd rows in
      '(enhanced_left, self1) <-
        _process_channel self left_channel sr frame_size hop_length ;;
      '(enhanced_right, self2) <-
        _process_channel self1 right_channel sr frame_size hop_length ;;
      enhanced_audio <- column_stack enhanced_left enhanced_right ;;
      Ok (Stereo enhanced_audio, self2)
  | Mono samples =>
      '(enhanced_audio, self') <-
        _process_channel self samples sr frame_size hop_length ;;
      Ok (Mono enhanced_audio, self')
  end.

End Upscaler.

(** ** Predicates of the specification *)

(** Two sample sequences of one length agree sample by sample up to [eps]. *)
Definition within_tolerance (eps : R) (xs ys : list R) : Prop :=
  length xs = length ys /\
  forall i, (i < length xs)%nat -> Rabs (nth i xs 0 - nth i ys 0) <= eps.

(** The no-op configuration of the specification. *)
Definition noop_config : AudioUpscaler :=
  {| intensity := 1.0;
     harmonics_boost := 0;
     noise_reduction := 0;
     dynamic_boost := 1.0;
     clarity_enhance := false;
     enhancer_chain := [] |}.

(** The parameters of an enhancer are non-negative. *)
Definition nonneg_params (e : Enhancer) : Prop :=
  match e with
  | HarmonicEnhancer hb hd _ => 0 <= hb /\ 0 <= hd
  | SpectralWidener w _ => 0 <= w
  | ExciterEnhancer d _ => 0 <= d
  | TransientEnhancer s ab _ => 0 <= s /\ 0 <= ab
  end.

(** The drive of an exciter is strictly positive. *)
Definition positive_drive (e : Enhancer) : Prop :=
  match e with
  | ExciterEnhancer d _ => 0 < d
  | _ => True
  end.

(** The history a transient enhancer holds fits a spectrum of [n] bins. *)
Definition history_fits (e : Enhancer) (n : nat) : Prop :=
  match e with
  | TransientEnhancer _ _ (Some prev) => length prev = n
  | _ => True
  end.

(** [harmonic ** harmonic_decay] and its inverse are floats: the power
    does not raise, and the division by it neither raises nor gives inf. *)
Definition power_in_range (harmonic : nat) (harmonic_decay : R) : Prop :=
  / Py.float_max <= Rpower (INR harmonic) harmonic_decay <= Py.float_max.

(** The decay of a harmonic enhancer is not negative. *)
Definition nonneg_decay (e : Enhancer) : Prop :=
  match e with
  | HarmonicEnhancer _ hd _ => 0 <= hd
  | _ => True
  end.

(** The decay of a harmonic enhancer is not negative and keeps the power of
    the seventh harmonic, and with it the power of every harmonic of the
    loop, within the floats: a decay from 0 to about 364. *)
Definition decay_in_range (e : Enhancer) : Prop :=
  match e with
  | HarmonicEnhancer _ hd _ => 0 <= hd /\ Rpower (INR 7) hd <= Py.float_max
  | _ => True
  end.

(** The weight with which the frame cut at [offset] enters sample [t] of
    the overlap-added buffer: the Hann window at [t - offset] inside the
    frame, nothing outside of it. *)
Definition window_at (frame_size offset : Z) (t : nat) : R :=
  if ((offset <=? Z.of_nat t) && (Z.of_nat t <? offset + frame_size))%Z
  then nth (Z.to_nat (Z.of_nat t - offset)) (Np.hanning (Z.to_nat frame_size)) 0
  else 0.

(** The windows of the frames cut at [offsets], summed at sample [t]. *)
Definition window_sum (frame_size : Z) (offsets : list Z) (t : nat) : R :=
  fold_right (fun offset s => window_at frame_size offset t + s) 0 offsets.

(** The weight of sample [j] of a channel after the overlap-add of frames
    that come back unchanged, the division by [num_overlaps] and the
    removal of the padding. *)
Definition overlap_weight (frame_size hop : Z) (offsets : list Z) (j : nat)
  : R :=
  window_sum frame_size offsets (Z.to_nat frame_size + j)
  / IZR (frame_size / hop).

(** The stored history of the transient enhancers of a chain. *)
Definition histories (chain : list Enhancer) : list (option (list R)) :=
  flat_map (fun e => match e with
                     | TransientEnhancer _ _ prev => [prev]
                     | _ => []
                     end) chain.

(** The no-op configuration with one transient enhancer as its chain. *)
Definition transient_config (sensitivity attack_boost : R)
           (prev : option (list R)) : AudioUpscaler :=
  Upscaler.with_chain noop_config
    [TransientEnhancer sensitivity attack_boost prev].

(** The no-op configuration with two transient enhancers of sensitivity 0
    as its chain. *)
Definition two_transients_config (attack_boost1 attack_boost2 : R)
           (prev1 prev2 : option (list R)) : AudioUpscaler :=
  Upscaler.with_chain noop_config
    [TransientEnhancer 0 attack_boost1 prev1;
     TransientEnhancer 0 attack_boost2 prev2].

(** ** Notions of the further properties *)

(** All the samples of an input or an output, the left column first. *)
Definition samples_of (a : audio) : list R :=
  match a with
  | Mono samples => samples
  | Stereo rows => map fst rows ++ map snd rows
  end.

(** The number of samples per channel. *)
Definition rows_of (a : audio) : nat :=
  match a with
  | Mono samples => length samples
  | Stereo rows => length rows
  end.

(** [is_stereo] of [process_audio], on the two shapes of the model. *)
Definition is_stereo (a : audio) : bool :=
  match a with
  | Mono _ => false
  | Stereo _ => true
  end.

(** Every sample, or magnitude, is zero. *)
Definition silent (l : list R) : Prop := Forall (fun x => x = 0) l.

(** An enhancer without what it has heard. *)
Definition configuration (e : Enhancer) : Enhancer :=
  match e with
  | TransientEnhancer s ab _ => TransientEnhancer s ab None
  | _ => e
  end.

(** The enhancer is a [SpectralWidener]. *)
Definition is_widener (e : Enhancer) : bool :=
  match e with
  | SpectralWidener _ _ => true
  | _ => false
  end.

(** The drive of an exciter is not zero. *)
Definition nonzero_drive (e : Enhancer) : Prop :=
  match e with
  | ExciterEnhancer d _ => d <> 0
  | _ => True
  end.

(** What the enhancer stored of the frames it has seen. *)
Definition history (e : Enhancer) : option (list R) :=
  match e with
  | TransientEnhancer _ _ prev => prev
  | _ => None
  end.

(** The enhancer is a [TransientEnhancer]. *)
Definition is_transient (e : Enhancer) : bool :=
  match e with
  | TransientEnhancer _ _ _ => true
  | _ => false
  end.

(** The calls of [process] that return real numbers: a harmonic enhancer
    takes the power of every harmonic it boosts, an exciter divides by its
    drive, and a transient enhancer subtracts the magnitudes it stored. *)
Definition accepts (e : Enhancer) (magnitudes : list R) : Prop :=
  match e with
  | HarmonicEnhancer _ hd _ =>
      let n := length magnitudes in
      let fundamental_idx :=
        Np.argmax (firstn (Nat.min (n / 5) 100) magnitudes) in
      forall harmonic,
        (2 <= harmonic <= 7)%nat -> (0 < fundamental_idx)%nat ->
        (fundamental_idx * harmonic < n)%nat ->
        power_in_range harmonic hd
  | ExciterEnhancer d _ => d <> 0 \/ magnitudes = []
  | TransientEnhancer _ _ (Some prev) =>
      length prev = length magnitudes \/ length prev = 1%nat
  | _ => True
  end.

(** A chain that can take spectra of [bins] bins, one after the other. *)
Definition ready (chain : list Enhancer) (bins : nat) : Prop :=
  Forall (fun e => history_fits e bins /\ nonzero_drive e
                   /\ decay_in_range e) chain.

(** Every sample, or magnitude, times the gain [c]. *)
Definition scale (c : R) (l : list R) : list R := map (fun x => x * c) l.

(** The enhancer after frames [c] times as loud. *)
Definition scale_history (c : R) (e : Enhancer) : Enhancer :=
  match e with
  | TransientEnhancer s ab (Some prev) =>
      TransientEnhancer s ab (Some (scale c prev))
  | _ => e
  end.

(** The enhancer is an [ExciterEnhancer]. *)
Definition is_exciter (e : Enhancer) : bool :=
  match e with
  | ExciterEnhancer _ _ => true
  | _ => false
  end.

(** The upscaler with another [intensity]. *)
Definition with_intensity (self : AudioUpscaler) (i : R) : AudioUpscaler :=
  {| intensity := i;
     harmonics_boost := harmonics_boost self;
     noise_reduction := noise_reduction self;
     dynamic_boost := dynamic_boost self;
     clarity_enhance := clarity_enhance self;
     enhancer_chain := enhancer_chain self |}.

(** The upscaler whose transient enhancers heard everything [c] times as
    loud. *)
Definition scale_histories (c : R) (self : AudioUpscaler) : AudioUpscaler :=
  Upscaler.with_chain self (map (scale_history c) (enhancer_chain self)).

(** What a run returns, without the state it leaves. *)
Definition returned {A S : Type} (r : result (A * S)) : result A :=
  '(a, _) <- r ;; Ok a.

(** [f] applied to what a computation returns. *)
Definition lift {A B : Type} (f : A -> B) (r : result A) : result B :=
  a <- r ;; Ok (f a).

(** No enhancer of the chain is an exciter. *)
Definition no_exciter (self : AudioUpscaler) : Prop :=
  forallb (fun e => negb (is_exciter e)) (enhancer_chain self) = true.

(** No stage of a run switches on a comparison that the level of the
    magnitudes decides: the noise floor stage is off, the dynamic range
    stage is off or expands (its clamp then only meets magnitudes it sets
    to zero), and the chain holds wideners only (no arg-max of a harmonic
    enhancer, no threshold of a transient enhancer, no saturation of an
    exciter). *)
Definition gateless (self : AudioUpscaler) : Prop :=
  noise_reduction self <= 0 /\ 1 <= dynamic_boost self
  /\ forallb is_widener (enhancer_chain self) = true.

(** No enhancer of the chain is a transient enhancer. *)
Definition stateless (self : AudioUpscaler) : Prop :=
  forallb (fun e => negb (is_transient e)) (enhancer_chain self) = true.

(** [_process_frame] from the enhanced magnitudes on. *)
Definition after_stages (self : AudioUpscaler) (em p : list R)
  : result (list R * AudioUpscaler) :=
  '(enhanced_magnitudes, enhanced_phases, chain) <-
    match enhancer_chain self with
    | [] => Ok (em, p, [])
    | _ => apply_enhancer_chain em p (enhancer_chain self)
    end ;;
  enhanced_frame <- Upscaler.synthesize enhanced_magnitudes enhanced_phases ;;
  Ok (enhanced_frame, Upscaler.with_chain self chain).

(** The rows of a two-column input, or the samples, times [c]. *)
Definition scale_audio (c : R) (a : audio) : audio :=
  match a with
  | Mono samples => Mono (scale c samples)
  | Stereo rows => Stereo (map (fun r => (fst r * c, snd r * c)) rows)
  end.

(** ** Configuration: enhancers by name, presets *)

(** Python's string methods, on ASCII strings. *)
Module Str.

(** One character of [s.lower()] *)
Definition lower_char (c : Ascii.ascii) : Ascii.ascii :=
  let n := Ascii.nat_of_ascii c in
  if ((65 <=? n) && (n <=? 90))%nat then Ascii.ascii_of_nat (n + 32) else c.

(** [s.lower()] *)
Fixpoint lower (s : String.string) : String.string :=
  match s with
  | String.EmptyString => String.EmptyString
  | String.String c t => String.String (lower_char c) (lower t)
  end.

(** [s.replace(old, new)] for a non-empty [old], read from the left: [skip]
    counts the characters of an occurrence of [old] still to step over. *)
Fixpoint replace_from (old new : String.string) (skip : nat)
         (s : String.string) : String.string :=
  match s with
  | String.EmptyString => String.EmptyString
  | String.String c t =>
      match skip with
      | S k => replace_from old new k t
      | O =>
          if String.prefix old s
          then String.append new
                 (replace_from old new (String.length old - 1) t)
          else String.String c (replace_from old new 0 t)
      end
  end.

(** [s.replace(old, new)] *)
Definition replace (old new s : String.string) : String.string :=
  replace_from old new 0 s.

End Str.

(** [os.path.join(a, b)] on POSIX *)
Definition path_join (a b : String.string) : String.string :=
  if String.prefix "/"%string b then b
  else if String.eqb a ""%string then b
  else if String.eqb (String.substring (String.length a - 1) 1 a) "/"%string
       then String.append a b
       else String.append a (String.append "/"%string b).

(** The exceptions of the configuration code: the two that it adds to the
    exceptions of the signal path. *)
Inductive config_exn : Type :=
| KeyError            (* a dict has no such key *)
| TypeError           (* a constructor was given a keyword it does not have *)
| Raised (e : exn).   (* an exception of the signal path *)

(** What the configuration code returns or raises. *)
Inductive outcome (A : Type) : Type :=
| Return (a : A)
| Throw (e : config_exn).
Arguments Return {A} a.
Arguments Throw {A} e.

Definition and_then {A B : Type} (c : outcome A) (k : A -> outcome B)
  : outcome B :=
  match c with
  | Return a => k a
  | Throw e => Throw e
  end.

(** The [name] property of [SpectralEnhancer]: the name of the class. *)
Definition name (e : Enhancer) : String.string :=
  match e with
  | HarmonicEnhancer _ _ _ => "HarmonicEnhancer"%string
  | SpectralWidener _ _ => "SpectralWidener"%string
  | ExciterEnhancer _ _ => "ExciterEnhancer"%string
  | TransientEnhancer _ _ _ => "TransientEnhancer"%string
  end.

(** The four classes, as values. *)
Inductive enhancer_class : Type :=
| HarmonicEnhancer_class
| SpectralWidener_class
| ExciterEnhancer_class
| TransientEnhancer_class.

(** A keyword argument of a constructor call: a parameter of one of the
    classes with a value of its type. *)
Inductive kwarg : Type :=
| kw_harmonic_boost (x : R)
| kw_harmonic_decay (x : R)
| kw_preserve_phases (b : bool)
| kw_width (x : R)
| kw_focus_region (r : R * R)
| kw_drive (x : R)
| kw_freq_range (r : R * R)
| kw_sensitivity (x : R)
| kw_attack_boost (x : R).

(** The instance a constructor makes when called without arguments. *)
Definition defaults (cls : enhancer_class) : Enhancer :=
  match cls with
  | HarmonicEnhancer_class => HarmonicEnhancer 1.5 0.5 true
  | SpectralWidener_class => SpectralWidener 1.5 (300, 5000)
  | ExciterEnhancer_class => ExciterEnhancer 1.5 (1000, 16000)
  | TransientEnhancer_class => TransientEnhancer 0.5 2.0 None
  end.

(** One keyword of the call: it replaces the default of its parameter; a
    keyword the class does not have raises. *)
Definition set_kwarg (e : Enhancer) (kw : kwarg) : outcome Enhancer :=
  match e, kw with
  | HarmonicEnhancer _ hd pp, kw_harmonic_boost x =>
      Return (HarmonicEnhancer x hd pp)
  | HarmonicEnhancer hb _ pp, kw_harmonic_decay x =>
      Return (HarmonicEnhancer hb x pp)
  | HarmonicEnhancer hb hd _, kw_preserve_phases b =>
      Return (HarmonicEnhancer hb hd b)
  | SpectralWidener _ fr, kw_width x => Return (SpectralWidener x fr)
  | SpectralWidener w _, kw_focus_region r => Return (SpectralWidener w r)
  | ExciterEnhancer _ fr, kw_drive x => Return (ExciterEnhancer x fr)
  | ExciterEnhancer d _, kw_freq_range r => Return (ExciterEnhancer d r)
  | TransientEnhancer _ ab prev, kw_sensitivity x =>
      Return (TransientEnhancer x ab prev)
  | TransientEnhancer s _ prev, kw_attack_boost x =>
      Return (TransientEnhancer s x prev)
  | _, _ => Throw TypeError
  end.

(** [cls] called with the keywords [params] *)
Definition new (cls : enhancer_class) (params : list kwarg)
  : outcome Enhancer :=
  fold_left (fun acc kw => and_then acc (fun e => set_kwarg e kw))
            params (Return (defaults cls)).

(** A dict with strings as keys, in the order of insertion. *)
Fixpoint lookup {A : Type} (key : String.string)
         (d : list (String.string * A)) : option A :=
  match d with
  | [] => None
  | (k, v) :: rest => if String.eqb key k then Some v else lookup key rest
  end.

(** [get_available_enhancers]: the dict from names to classes. *)
Definition get_available_enhancers : list (String.string * enhancer_class) :=
  [("harmonic"%string, HarmonicEnhancer_class);
   ("widener"%string, SpectralWidener_class);
   ("exciter"%string, ExciterEnhancer_class);
   ("transient"%string, TransientEnhancer_class)].

(** An entry of the configuration list: a dict that may have the keys
    ['name'] and ['params']. *)
Record item : Type := {
  item_name : option String.string;
  item_params : option (list kwarg)
}.

(** [create_enhancer_chain]: an entry without ['name'] raises; an entry
    whose name is not available is passed over, whatever its parameters. *)
Fixpoint create_enhancer_chain (config : list item)
  : outcome (list Enhancer) :=
  match config with
  | [] => Return []
  | it :: rest =>
      match item_name it with
      | None => Throw KeyError
      | Some name =>
          let params := match item_params it with
                        | Some params => params
                        | None => []
                        end in
          match lookup name get_available_enhancers with
          | Some cls =>
              and_then (new cls params) (fun enhancer =>
              and_then (create_enhancer_chain rest) (fun enhancers =>
              Return (enhancer :: enhancers)))
          | None => create_enhancer_chain rest
          end
      end
  end.

(** [get_enhancer_params] of upscaler.py: the dict it returns, as keyword
    arguments. *)
Definition get_enhancer_params (enhancer_type : String.string) : list kwarg :=
  match lookup enhancer_type get_available_enhancers with
  | None => []
  | Some _ =>
      if String.eqb enhancer_type "harmonic"%string
      then [kw_harmonic_boost 1.5; kw_harmonic_decay 0.5]
      else if String.eqb enhancer_type "widener"%string then [kw_width 1.5]
      else if String.eqb enhancer_type "exciter"%string then [kw_drive 1.5]
      else if String.eqb enhancer_type "transient"%string
      then [kw_sensitivity 0.5; kw_attack_boost 2.0]
      else []
  end.

(** The loop of the [upscale] command of cli.py that builds the chain from
    [enhancer_list], the stripped parts of the [--enhancers] option. *)
Fixpoint cli_enhancer_chain (enhancer_list : list String.string)
         (enhancer_chain : list Enhancer) : outcome (list Enhancer) :=
  match enhancer_list with
  | [] => Return enhancer_chain
  | e_name :: rest =>
      let enhancer_config := [{| item_name := Some e_name;
                                 item_params := None |}] in
      and_then (create_enhancer_chain enhancer_config) (fun created =>
      cli_enhancer_chain rest (enhancer_chain ++ created))
  end.

(** *** Presets *)

(** The dict of a preset file: each of the six keys is there or not. *)
Record preset_data : Type := {
  preset_intensity : option R;
  preset_harmonics_boost : option R;
  preset_noise_reduction : option R;
  preset_dynamic_boost : option R;
  preset_clarity_enhance : option bool;
  preset_enhancers : option (list item)
}.

(** The preset files by their path.  The file system is these files only:
    every path that exists is a preset file, and writing a file succeeds.
    [PRESETS_DIR], which the program takes from the home directory, is a
    parameter. *)
Definition files : Type := String.string -> option preset_data.

Module PresetManager.

(** [os.path.join(PRESETS_DIR, f"{preset_name}.json")] *)
Definition get_preset_path (PRESETS_DIR preset_name : String.string)
  : String.string :=
  path_join PRESETS_DIR (String.append preset_name ".json"%string).

(** [load_preset]: a ValueError when no file is at the path. *)
Definition load_preset (PRESETS_DIR preset_name : String.string) (fs : files)
  : outcome preset_data :=
  let preset_path := get_preset_path PRESETS_DIR preset_name in
  match fs preset_path with
  | None => Throw (Raised ValueError)
  | Some data => Return data
  end.

(** [save_preset]: the path written, and the files after the call. *)
Definition save_preset (PRESETS_DIR preset_name : String.string)
           (data : preset_data) (fs : files) : String.string * files :=
  let preset_path := get_preset_path PRESETS_DIR preset_name in
  (preset_path,
   fun path => if String.eqb path preset_path then Some data else fs path).

(** [delete_preset]: what it returns, and the files after the call. *)
Definition delete_preset (PRESETS_DIR preset_name : String.string)
           (fs : files) : bool * files :=
  let preset_path := get_preset_path PRESETS_DIR preset_name in
  match fs preset_path with
  | None => (false, fs)
  | Some _ =>
      (true, fun path => if String.eqb path preset_path then None else fs path)
  end.

End PresetManager.

(** The dict [AudioUpscaler.save_preset] writes. *)
Definition preset_of (self : AudioUpscaler) : preset_data :=
  {| preset_intensity := Some (intensity self);
     preset_harmonics_boost := Some (harmonics_boost self);
     preset_noise_reduction := Some (noise_reduction self);
     preset_dynamic_boost := Some (dynamic_boost self);
     preset_clarity_enhance := Some (clarity_enhance self);
     preset_enhancers :=
       Some (map (fun e =>
                    {| item_name :=
                         Some (Str.replace "enhancer"%string ""%string
                                           (Str.lower (name e)));
                       item_params := None |})
                 (enhancer_chain self)) |}.

(** [AudioUpscaler.save_preset] *)
Definition save_preset (PRESETS_DIR : String.string) (self : AudioUpscaler)
           (preset_name : String.string) (fs : files)
  : String.string * files :=
  PresetManager.save_preset PRESETS_DIR preset_name (preset_of self) fs.

(** A keyword of a call, or the default of the parameter. *)
Definition or_default {A : Type} (given : option A) (default : A) : A :=
  match given with
  | Some a => a
  | None => default
  end.

(** [cls] called with [enhancer_chain] and, as keywords, the entries of
    the dict without its enhancers; a key that is not there leaves the
    default of the constructor. *)
Definition from_preset_data (data : preset_data)
           (enhancer_chain : option (list Enhancer)) : outcome AudioUpscaler :=
  match Upscaler.__init__ (or_default (preset_intensity data) 1.5)
                          (or_default (preset_harmonics_boost data) 0.3)
                          (or_default (preset_noise_reduction data) 0.2)
                          (or_default (preset_dynamic_boost data) 1.2)
                          (or_default (preset_clarity_enhance data) true)
                          enhancer_chain with
  | Ok upscaler => Return upscaler
  | Raise e => Throw (Raised e)
  end.

(** [AudioUpscaler.from_preset] *)
Definition from_preset (PRESETS_DIR preset_name : String.string) (fs : files)
  : outcome AudioUpscaler :=
  and_then (PresetManager.load_preset PRESETS_DIR preset_name fs)
    (fun data =>
  and_then (match preset_enhancers data with
            | Some config =>
                and_then (create_enhancer_chain config) (fun chain =>
                Return (Some chain))
            | None => Return None
            end)
    (fun enhancer_chain =>
  from_preset_data data enhancer_chain)).

(** What a preset keeps of an enhancer: a new instance of its class, if the
    name written for it is one of [get_available_enhancers]. *)
Definition restored (e : Enhancer) : list Enhancer :=
  match e with
  | HarmonicEnhancer _ _ _ => [defaults HarmonicEnhancer_class]
  | SpectralWidener _ _ => []
  | ExciterEnhancer _ _ => [defaults ExciterEnhancer_class]
  | TransientEnhancer _ _ _ => [defaults TransientEnhancer_class]
  end.

(** * Properties *)

(** ** Lists and sums *)

Lemma map2_length {A B C : Type} (f : A -> B -> C) xs ys :
  length (map2 f xs ys) = Nat.min (length xs) (length ys).
Proof.
  revert ys; induction xs as [|x xs IH]; intros [|y ys]; simpl; auto.
Qed.

Lemma map2_map_r {A B C D : Type} (f : A -> C -> D) (g : B -> C) xs ys :
  map2 f xs (map g ys) = map2 (fun x y => f x (g y)) xs ys.
Proof.
  revert ys; induction xs as [|x xs IH]; intros [|y ys]; simpl; auto.
  now rewrite IH.
Qed.

Lemma map2_diag {A C : Type} (f : A -> A -> C) xs :
  map2 f xs xs = map (fun x => f x x) xs.
Proof. induction xs as [|x xs IH]; simpl; auto. now rewrite IH. Qed.

Lemma map2_repeat_r {A B C : Type} (f : A -> B -> C) xs b n :
  length xs = n -> map2 f xs (repeat b n) = map (fun x => f x b) xs.
Proof.
  revert n; induction xs as [|x xs IH]; intros [|n] H; simpl in *;
    try discriminate; auto.
  f_equal. apply IH. now injection H.
Qed.

Lemma map_const_repeat {A B : Type} (b : B) (l : list A) :
  map (fun _ => b) l = repeat b (length l).
Proof. induction l as [|x l IH]; simpl; auto. now rewrite IH. Qed.

Lemma map_id_ext {A : Type} (f : A -> A) l :
  (forall x, f x = x) -> map f l = l.
Proof.
  intros H; induction l as [|x l IH]; simpl; auto. now rewrite H, IH.
Qed.

Lemma sum_repeat_0 n : Np.sum (repeat 0 n) = 0.
Proof. induction n as [|n IH]; simpl; auto. rewrite IH. lra. Qed.

Lemma mean_repeat_0 n : Np.mean (repeat 0 n) = 0.
Proof. unfold Np.mean. rewrite sum_repeat_0. unfold Rdiv. apply Rmult_0_l. Qed.

Lemma Rgtb_true x y : x > y -> Rgtb x y = true.
Proof. intros H. unfold Rgtb. destruct (Rgt_dec x y); [reflexivity|contradiction]. Qed.

Lemma Rgtb_false x y : x <= y -> Rgtb x y = false.
Proof. intros H. unfold Rgtb. destruct (Rgt_dec x y); [lra|reflexivity]. Qed.

Lemma nth_map2 {A B C : Type} (f : A -> B -> C) (xs : list A) (ys : list B)
      (i : nat) (da : A) (db : B) (dc : C) :
  (i < length xs)%nat -> (i < length ys)%nat ->
  nth i (map2 f xs ys) dc = f (nth i xs da) (nth i ys db).
Proof.
  revert ys i. induction xs as [|x xs IH]; intros [|y ys] [|i] Hx Hy;
    simpl in *; try lia; [reflexivity|].
  apply IH; lia.
Qed.

Lemma nth_map_lt {A B : Type} (f : A -> B) (l : list A) (i : nat)
      (db : B) (da : A) :
  (i < length l)%nat -> nth i (map f l) db = f (nth i l da).
Proof.
  revert i. induction l as [|x l IH]; intros [|i] Hi; simpl in *; try lia;
    [reflexivity|].
  apply IH. lia.
Qed.

(** ** Results of fallible steps *)

Lemma bind_Ok {A B : Type} (c : result A) (k : A -> result B) (b : B) :
  bind c k = Ok b -> exists a, c = Ok a /\ k a = Ok b.
Proof. destruct c as [a|e]; [intros H; now exists a|discriminate]. Qed.

Lemma ok_inj {A : Type} (a b : A) : Ok a = Ok b -> a = b.
Proof. intros H. now injection H. Qed.

(** What holds before a loop and is kept by every turn that returns holds
    after the loop. *)
Lemma for_each_invariant {A B : Type} (P : A -> Prop)
      (body : A -> B -> result A) (items : list B) :
  (forall a x a', P a -> body a x = Ok a' -> P a') ->
  forall a a', P a -> Py.for_each body items a = Ok a' -> P a'.
Proof.
  intros Hbody. induction items as [|x items IH]; intros a a' Ha H;
    cbn [Py.for_each] in H.
  - apply ok_inj in H. now subst a'.
  - apply bind_Ok in H. destruct H as (a1 & H1 & H).
    exact (IH a1 a' (Hbody a x a1 Ha H1) H).
Qed.

(** A loop returns exactly when every turn does, where that depends on the
    item of the turn alone. *)
Lemma for_each_returns {A B : Type} (good : B -> Prop)
      (body : A -> B -> result A) (items : list B) :
  (forall a x, (exists a', body a x = Ok a') <-> good x) ->
  forall a, (exists a', Py.for_each body items a = Ok a')
            <-> Forall good items.
Proof.
  intros Hbody. induction items as [|x items IH]; intros a;
    cbn [Py.for_each].
  - split; [constructor|intros _; now exists a].
  - split.
    + intros [a' H]. apply bind_Ok in H. destruct H as (a1 & H1 & H).
      constructor.
      * apply (Hbody a x). now exists a1.
      * apply (IH a1). now exists a'.
    + intros H. inversion H as [|? ? Hx Hrest]; subst.
      apply (Hbody a x) in Hx. destruct Hx as [a1 H1].
      apply (IH a1) in Hrest. destruct Hrest as [a' H'].
      exists a'. rewrite H1. exact H'.
Qed.

(** ** The enhancer chain *)

(** C10: applying the enhancer chain with an empty list of enhancers returns
    the input magnitudes and phases unchanged, for every pair of sequences. *)
Theorem apply_enhancer_chain_nil (magnitudes phases : list R) :
  apply_enhancer_chain magnitudes phases [] = Ok (magnitudes, phases, []).
Proof. reflexivity. Qed.

(** ** The transient enhancer *)

Lemma transient_mask_no_flux (sensitivity : R) (n : nat) :
  TransientEnhancer.transient_mask sensitivity (repeat 0 n) = repeat false n.
Proof.
  unfold TransientEnhancer.transient_mask.
  assert (Hz : map (Rmax 0) (repeat 0 n) = repeat 0 n).
  { rewrite map_repeat. f_equal. apply Rmax_left. lra. }
  rewrite Hz, mean_repeat_0, Rmult_0_l, map_repeat.
  f_equal. apply Rgtb_false. lra.
Qed.

Lemma flux_identical (m : list R) :
  Np.broadcast2 Rminus m m = Ok (repeat 0 (length m)).
Proof.
  unfold Np.broadcast2. rewrite Nat.eqb_refl, map2_diag.
  f_equal. rewrite <- map_const_repeat. apply map_ext. intros; lra.
Qed.

Lemma transient_process_identical (s ab : R) (m ph : list R) :
  TransientEnhancer.process s ab (Some m) m ph = Ok (m, ph, Some m).
Proof.
  unfold TransientEnhancer.process.
  rewrite flux_identical. cbn [bind].
  rewrite transient_mask_no_flux, map_repeat.
  unfold Np.inplace2. rewrite repeat_length, Nat.eqb_refl.
  rewrite map2_repeat_r by reflexivity. cbn [bind].
  rewrite map_id_ext; [reflexivity|].
  intros x. unfold bool_to_R. lra.
Qed.

(** C7: the transient enhancer returns its first frame unchanged and keeps
    the magnitudes as history; given the same magnitudes again, the flux
    against that history flags no bin (the transient mask is all false) and
    the second frame is returned unchanged as well. *)
Theorem transient_identical_frames (sensitivity attack_boost : R)
        (magnitudes phases phases' : list R) :
  let fresh := TransientEnhancer sensitivity attack_boost None in
  let seen := TransientEnhancer sensitivity attack_boost (Some magnitudes) in
  process fresh magnitudes phases = Ok (magnitudes, phases, seen)
  /\ (exists flux,
        Np.broadcast2 Rminus magnitudes magnitudes = Ok flux
        /\ TransientEnhancer.transient_mask sensitivity flux
           = repeat false (length magnitudes))
  /\ process seen magnitudes phases' = Ok (magnitudes, phases', seen).
Proof.
  cbn zeta. split; [reflexivity|]. split.
  - exists (repeat 0 (length magnitudes)). split.
    + apply flux_identical.
    + apply transient_mask_no_flux.
  - cbn [process TransientEnhancer.process].
    rewrite flux_identical. cbn [bind].
    rewrite transient_mask_no_flux, map_repeat.
    unfold Np.inplace2. rewrite repeat_length, Nat.eqb_refl.
    rewrite map2_repeat_r by reflexivity. cbn [bind].
    rewrite map_id_ext; [reflexivity|].
    intros x. unfold bool_to_R. lra.
Qed.

(** ** Noise-floor reduction *)

Lemma ceil_fifth_le (n : nat) : ((n + 4) / 5 <= n)%nat.
Proof.
  pose proof (Nat.div_mod_eq (n + 4) 5).
  pose proof (Nat.mod_upper_bound (n + 4) 5). lia.
Qed.

(** [a[-len(a)//5:]] is made of the last [ceil(len(a)/5)] elements. *)
Lemma slice_from_top_fifth {A : Type} (l : list A) :
  Py.slice_from l (- Z.of_nat (length l) / 5)
  = skipn (length l - (length l + 4) / 5) l.
Proof.
  unfold Py.slice_from, Py.bound. f_equal.
  pose proof (ceil_fifth_le (length l)) as Hle.
  assert (Hc : Z.of_nat ((length l + 4) / 5)
               = ((Z.of_nat (length l) + 4) / 5)%Z).
  { rewrite Nat2Z.inj_div. f_equal. lia. }
  assert (Hn : (- Z.of_nat (length l) / 5
                = - ((Z.of_nat (length l) + 4) / 5))%Z).
  { Z.div_mod_to_equations. lia. }
  assert (H0 : ((length l + 4) / 5 = 0 -> length l = 0)%nat).
  { pose proof (Nat.div_mod_eq (length l + 4) 5).
    pose proof (Nat.mod_upper_bound (length l + 4) 5). lia. }
  rewrite Hn, <- Hc.
  destruct (Z.ltb_spec (- Z.of_nat ((length l + 4) / 5)) 0); lia.
Qed.

(** C8: with a strength above 0 the stage takes as floor the mean of the
    last fifth of the bins (rounded up to whole bins), sets to zero every bin
    that does not strictly exceed [floor * (1 + 3*strength)] and leaves the
    other bins as they are. *)
Theorem noise_floor_reduction_spec (strength : R) (magnitudes : list R) :
  strength > 0 ->
  exists low top,
    magnitudes = low ++ top
    /\ length top = ((length magnitudes + 4) / 5)%nat
    /\ Upscaler.noise_floor_reduction strength magnitudes
       = map (fun m => if Rgt_dec m (Np.mean top * (1 + 3 * strength))
                       then m else 0)
             magnitudes.
Proof.
  intros Hs.
  pose proof (ceil_fifth_le (length magnitudes)) as Hle.
  exists (firstn (length magnitudes - (length magnitudes + 4) / 5) magnitudes),
         (skipn (length magnitudes - (length magnitudes + 4) / 5) magnitudes).
  split; [symmetry; apply firstn_skipn|].
  split; [rewrite length_skipn; lia|].
  unfold Upscaler.noise_floor_reduction.
  destruct (Rgt_dec strength 0) as [_|Hn]; [|contradiction].
  rewrite slice_from_top_fifth, map2_map_r, map2_diag.
  apply map_ext. intros m. unfold Rgtb.
  replace (1 + strength * 3) with (1 + 3 * strength) by lra.
  destruct (Rgt_dec m _); unfold bool_to_R; lra.
Qed.

Lemma noise_floor_reduction_spec_witness :
  exists low top,
    [8; 1; 1; 3; 1] = low ++ top
    /\ length top = ((length [8; 1; 1; 3; 1] + 4) / 5)%nat
    /\ Upscaler.noise_floor_reduction 1 [8; 1; 1; 3; 1]
       = map (fun m => if Rgt_dec m (Np.mean top * (1 + 3 * 1)) then m else 0)
             [8; 1; 1; 3; 1].
Proof. apply (noise_floor_reduction_spec 1 [8; 1; 1; 3; 1]). lra. Defined.

(** Five bins, strength 1: the floor is the last bin, 1, the threshold 4;
    only the first bin is above it. *)
Example noise_floor_reduction_example :
  Upscaler.noise_floor_reduction 1 [8; 1; 1; 3; 1] = [8; 0; 0; 0; 0].
Proof.
  unfold Upscaler.noise_floor_reduction.
  destruct (Rgt_dec 1 0) as [_|H]; [|lra].
  change (Py.slice_from [8; 1; 1; 3; 1] (- Z.of_nat (length [8; 1; 1; 3; 1]) / 5))
    with [1].
  unfold Np.mean, Np.sum. cbn [fold_right length map INR].
  rewrite (Rgtb_true 8) by lra. rewrite !(Rgtb_false 1), (Rgtb_false 3) by lra.
  cbn [map2 bool_to_R]. repeat (apply f_equal2; [lra|]). reflexivity.
Qed.

(** The stage is the first of the built-in stages of a frame. *)
Lemma noise_floor_reduction_first (self : AudioUpscaler) (magnitudes : list R) :
  exists later,
    Upscaler.builtin_stages self magnitudes
    = later (Upscaler.noise_floor_reduction (noise_reduction self) magnitudes).
Proof.
  exists (fun m =>
            Upscaler.clarity_enhancement (clarity_enhance self)
              (Upscaler.dynamic_range_enhancement (dynamic_boost self)
                 (Upscaler.intensity_scaling (intensity self)
                    (Upscaler.harmonic_enhancement (harmonics_boost self) m)))).
  reflexivity.
Qed.

(** ** The frame loop *)

(** With a positive step, [range(0, stop, step)] holds the multiples of the
    step from 0 that are strictly below [stop]. *)
Lemma range_positive_step (stop step : Z) (l : list Z) (o : Z) :
  (0 < step)%Z ->
  Py.range 0 stop step = Ok l ->
  In o l <-> (0 <= o /\ o mod step = 0 /\ o < stop)%Z.
Proof.
  intros Hstep. unfold Py.range.
  destruct (Z.eqb_spec step 0) as [->|_]; [lia|].
  intros H; injection H as <-.
  unfold Py.range_len.
  destruct (Z.ltb_spec 0 step) as [_|]; [|lia].
  rewrite Z.sub_0_r, Z.add_0_l || idtac.
  rewrite in_map_iff. split.
  - intros (i & <- & Hi). apply in_seq in Hi. simpl.
    rewrite Z.mod_mul by lia. split; [lia|]. split; [reflexivity|].
    destruct Hi as [_ Hi]. simpl in Hi.
    assert (Hq : (Z.of_nat i < (stop - 0 + step - 1) / step)%Z) by lia.
    assert (Hq' : (Z.of_nat i + 1 <= (stop - 0 + step - 1) / step)%Z) by lia.
    assert (Hm : ((Z.of_nat i + 1) * step <= stop - 0 + step - 1)%Z).
    { etransitivity; [apply Z.mul_le_mono_nonneg_r; [lia|exact Hq']|].
      rewrite Z.mul_comm. apply Z.mul_div_le. lia. }
    lia.
  - intros (H0 & Hmod & Hlt). exists (Z.to_nat (o / step)).
    assert (Hq : (0 <= o / step)%Z) by (apply Z.div_pos; lia).
    assert (Ho : (o = step * (o / step))%Z).
    { pose proof (Z.div_mod o step). lia. }
    split; [simpl; rewrite Z2Nat.id by lia; lia|].
    apply in_seq. split; [lia|]. simpl.
    apply Z2Nat.inj_lt; [lia| |].
    + apply Z.div_pos; lia.
    + apply Z.div_lt_upper_bound; [lia|].
      assert (Hs : (stop - 0 + step - 1 < step * ((stop - 0 + step - 1) / step + 1))%Z).
      { pose proof (Z.div_mod (stop - 0 + step - 1) step).
        pose proof (Z.mod_pos_bound (stop - 0 + step - 1) step). lia. }
      assert (Hd : (o / step < (stop - 0 + step - 1) / step + 1 - 0)%Z).
      { apply Z.mul_lt_mono_pos_l with (p := step); [lia|].
        rewrite <- Ho. lia. }
      nia.
Qed.

(** [np.pad] adds the pad length at both ends. *)
Lemma pad_reflect_length (a padded : list R) (pad : Z) :
  Upscaler.pad_reflect a pad = Ok padded ->
  Z.of_nat (length padded) = (Z.of_nat (length a) + 2 * pad)%Z.
Proof.
  unfold Upscaler.pad_reflect.
  destruct (Z.ltb_spec pad 0) as [|Hp]; [discriminate|].
  destruct a as [|x0 a].
  - destruct (Z.eqb_spec pad 0) as [->|]; [|discriminate].
    intros H; injection H as <-. reflexivity.
  - intros H; injection H as <-. cbn [length]. rewrite length_map, length_seq.
    cbn [length]. lia.
Qed.

(** C4, at a channel of 6 samples with frame size 4 and hop 2: the padded
    channel has 14 samples, the loop visits the offsets 0, 2, 4, 6 and 8 and
    stops there, although 10 is a multiple of the hop with exactly one frame
    left (10 + 4 = 14); the progress bar is told 6 frames, the loop runs 5. *)
Theorem last_full_frame_is_skipped (a b c d e f : R) :
  exists padded offsets,
    Upscaler.pad_reflect [a; b; c; d; e; f] 4 = Ok padded
    /\ length padded = 14%nat
    /\ Upscaler.frame_offsets (Z.of_nat (length padded)) 4 2 = Ok offsets
    /\ offsets = [0; 2; 4; 6; 8]%Z
    /\ (10 mod 2 = 0 /\ 10 + 4 <= Z.of_nat (length padded))%Z
    /\ ~ In 10%Z offsets
    /\ Upscaler.total_frames (Z.of_nat (length padded)) 4 2
       = Ok (Z.of_nat (length offsets) + 1)%Z.
Proof.
  eexists. eexists. split; [reflexivity|].
  split; [reflexivity|]. split; [reflexivity|]. split; [reflexivity|].
  split; [split; [reflexivity|simpl; lia]|].
  split; [|reflexivity].
  simpl. intros [H|[H|[H|[H|[H|[]]]]]]; discriminate.
Qed.

(** With the default frame size 2048 and hop 1024, on a channel of 4096
    samples (8192 once padded): six offsets are visited, seven frames are
    announced, and the offset 6144 is left out. *)
Lemma last_full_frame_is_skipped_at_defaults :
  Upscaler.frame_offsets 8192 2048 1024
  = Ok [0; 1024; 2048; 3072; 4096; 5120]%Z
  /\ Upscaler.total_frames 8192 2048 1024 = Ok 7%Z
  /\ (6144 mod 1024 = 0 /\ 6144 + 2048 <= 8192)%Z.
Proof. repeat split; reflexivity || (intro H; discriminate H). Qed.

(** Whatever the sizes, the offset that leaves exactly one frame is never
    among the offsets of the loop. *)
Lemma exact_last_offset_not_visited (padded_len frame_size hop : Z)
      (offsets : list Z) :
  (0 < hop)%Z ->
  Upscaler.frame_offsets padded_len frame_size hop = Ok offsets ->
  ~ In (padded_len - frame_size)%Z offsets.
Proof.
  intros Hhop Hoff Hin.
  apply (range_positive_step _ _ _ _ Hhop Hoff) in Hin. lia.
Qed.

(** ** Construction and validation *)

(** C3, as the code has it: the constructor checks nothing, it returns an
    upscaler that stores whatever values it is given (an absent or empty
    chain as the empty chain); the frame size is an argument of
    [process_audio], where a negative one makes the padding step raise
    before the frame loop is entered. *)
Theorem construction_validates_nothing
        (i hb nr db : R) (ce : bool) (chain : option (list Enhancer)) :
  (exists self,
     Upscaler.__init__ i hb nr db ce chain = Ok self
     /\ intensity self = i /\ harmonics_boost self = hb
     /\ noise_reduction self = nr /\ dynamic_boost self = db
     /\ clarity_enhance self = ce
     /\ enhancer_chain self = match chain with Some c => c | None => [] end)
  /\ forall self audio_data sr frame_size hop_length,
       (frame_size < 0)%Z ->
       (forall channel_data,
          Upscaler.pad_reflect channel_data frame_size = Raise ValueError)
       /\ Upscaler.process_audio self audio_data sr frame_size hop_length
          = Raise ValueError.
Proof.
  split.
  - eexists. split; [reflexivity|]. cbn.
    repeat (split; [reflexivity|]).
    destruct chain as [[|e c]|]; reflexivity.
  - intros self audio_data sr frame_size hop_length Hneg.
    assert (Hpad : forall channel_data,
               Upscaler.pad_reflect channel_data frame_size = Raise ValueError).
    { intros ch. unfold Upscaler.pad_reflect.
      destruct (Z.ltb_spec frame_size 0); [reflexivity|lia]. }
    split; [exact Hpad|].
    destruct audio_data as [samples|rows];
      unfold Upscaler.process_audio, Upscaler._process_channel,
             Upscaler.overlap_add; rewrite Hpad; reflexivity.
Qed.

Lemma construction_validates_nothing_witness :
  Upscaler.process_audio noop_config (Mono [1; 2; 3]) 22050 (-2048) 1024
  = Raise ValueError.
Proof.
  apply (construction_validates_nothing 1.5 0.3 0.2 1.2 true None).
  lia.
Defined.

(** C3 as stated fails at the constructor's own defaults followed by a run with
    frame size -2048: construction returns an upscaler, no error; the error
    belongs to the run. *)
Lemma construction_accepts_then_run_fails :
  exists self,
    Upscaler.__init__ 1.5 0.3 0.2 1.2 true None = Ok self
    /\ (forall e, Upscaler.__init__ 1.5 0.3 0.2 1.2 true None <> Raise e)
    /\ Upscaler.process_audio self (Mono [1; 2; 3]) 22050 (-2048) 1024
       = Raise ValueError.
Proof.
  eexists. split; [reflexivity|]. split; [discriminate|reflexivity].
Qed.

(** ** The power of a harmonic *)

Lemma float_tiny_bounds : 0 < Py.float_tiny < 1.
Proof.
  unfold Py.float_tiny. split.
  - apply pow_lt. lra.
  - apply pow_lt_1_compat; [lra|apply Nat.lt_0_succ].
Qed.

Lemma float_max_bound : 8 <= Py.float_max.
Proof.
  unfold Py.float_max.
  assert (H52 : 0 <= (/ 2) ^ 52 < 1)
    by (apply pow_lt_1_compat; [lra|apply Nat.lt_0_succ]).
  replace 1023%nat with (3 + 1020)%nat by reflexivity.
  rewrite pow_add.
  assert (H3 : 2 ^ 3 = 8) by (simpl; ring).
  pose proof (pow_R1_Rle 2 1020 ltac:(lra)) as H1020.
  rewrite H3. remember (2 ^ 1020) as b eqn:Eb. clear Eb.
  remember ((/ 2) ^ 52) as a eqn:Ea. clear Ea. nra.
Qed.

Lemma float_max_below : Py.float_max < 2 ^ 1024.
Proof.
  unfold Py.float_max.
  assert (H52 : 0 < (/ 2) ^ 52) by (apply pow_lt; lra).
  assert (Hp : 0 < 2 ^ 1023) by (apply pow_lt; lra).
  change (2 ^ 1024) with (2 * 2 ^ 1023).
  remember (2 ^ 1023) as b eqn:Eb. clear Eb.
  remember ((/ 2) ^ 52) as a eqn:Ea. clear Ea. nra.
Qed.

(** What rounds to [0.0] is below the inverse of every float. *)
Lemma float_tiny_below : Py.float_tiny < / Py.float_max.
Proof.
  pose proof float_max_bound as Hm. pose proof float_max_below as Hb.
  apply Rlt_trans with (/ 2 ^ 1024).
  - unfold Py.float_tiny. rewrite <- pow_inv.
    replace 1075%nat with (1024 + 51)%nat by reflexivity. rewrite pow_add.
    assert (H1 : 0 < (/ 2) ^ 1024) by (apply pow_lt; lra).
    assert (H2 : 0 <= (/ 2) ^ 51 < 1)
      by (apply pow_lt_1_compat; [lra|apply Nat.lt_0_succ]).
    remember ((/ 2) ^ 1024) as a eqn:Ea. clear Ea.
    remember ((/ 2) ^ 51) as b eqn:Eb. clear Eb. nra.
  - apply Rinv_0_lt_contravar; lra.
Qed.

(** With a decay that is not negative the powers of the harmonics 2 to 7
    lie between 1 and the power of the seventh: where that one is a float,
    they all are in range. *)
Lemma power_in_range_le (h : nat) (hd : R) :
  (2 <= h <= 7)%nat -> 0 <= hd -> Rpower (INR 7) hd <= Py.float_max ->
  power_in_range h hd.
Proof.
  intros [H2 H7] Hd Hhi. unfold power_in_range.
  assert (Hh1 : 1 <= INR h).
  { change 1 with (INR 1). apply le_INR. lia. }
  assert (Hh7 : INR h <= INR 7) by (apply le_INR; exact H7).
  assert (Hpos : 0 < INR h) by lra.
  pose proof float_max_bound as Hm.
  assert (Hinv : / Py.float_max <= 1).
  { rewrite <- Rinv_1. apply Rinv_le_contravar; lra. }
  split.
  - pose proof (Rle_Rpower (INR h) 0 hd Hh1 Hd) as H.
    rewrite Rpower_O in H by exact Hpos. lra.
  - pose proof (Rle_Rpower_l (INR h) (INR 7) hd Hd (conj Hpos Hh7)). lra.
Qed.

(** The default decay, 0.5, is in range. *)
Lemma default_decay_in_range :
  0 <= 0.5 /\ Rpower (INR 7) 0.5 <= Py.float_max.
Proof.
  pose proof float_max_bound as Hm.
  assert (H1 : 1 <= INR 7) by (change 1 with (INR 1); apply le_INR; lia).
  assert (H7 : INR 7 <= 7) by (simpl; lra).
  pose proof (Rle_Rpower (INR 7) 0.5 1 H1 ltac:(lra)) as Hhi.
  rewrite Rpower_1 in Hhi by lra. lra.
Qed.

(** The boost of a harmonic is computed exactly when its power is in
    range. *)
Lemma boost_of_Ok (hb hd : R) (h : nat) (boost : R) :
  HarmonicEnhancer.boost_of hb hd h = Ok boost ->
  power_in_range h hd /\ boost = hb * (1 / Rpower (INR h) hd).
Proof.
  unfold HarmonicEnhancer.boost_of, Py.float_pow, Py.float_div,
    power_in_range.
  pose proof float_tiny_bounds as [Ht _].
  pose proof float_max_bound as Hm.
  assert (Hp : 0 < Rpower (INR h) hd) by (unfold Rpower; apply exp_pos).
  destruct (Rlt_dec Py.float_max (Rpower (INR h) hd)); cbn [bind];
    [discriminate|].
  destruct (Rle_dec (Rpower (INR h) hd) Py.float_tiny); cbn [bind].
  - destruct (Req_dec_T 0 0) as [_|Hn]; [discriminate|now destruct Hn].
  - destruct (Req_dec_T (Rpower (INR h) hd) 0); cbn [bind]; [discriminate|].
    destruct (Rlt_dec Py.float_max (Rabs (1 / Rpower (INR h) hd)))
      as [|Hle]; cbn [bind]; [discriminate|].
    intros H. apply ok_inj in H. split; [|now subst boost].
    split; [|lra].
    assert (Hq : 0 < 1 / Rpower (INR h) hd)
      by (apply Rdiv_lt_0_compat; lra).
    rewrite Rabs_right in Hle by lra.
    assert (Hone : 1 / Rpower (INR h) hd * Rpower (INR h) hd = 1)
      by (field; lra).
    assert (H1 : 1 <= Py.float_max * Rpower (INR h) hd).
    { rewrite <- Hone. apply Rmult_le_compat_r; lra. }
    apply Rmult_le_reg_l with Py.float_max; [lra|].
    rewrite Rinv_r by lra. exact H1.
Qed.

Lemma boost_of_in_range (hb hd : R) (h : nat) :
  power_in_range h hd ->
  HarmonicEnhancer.boost_of hb hd h = Ok (hb * (1 / Rpower (INR h) hd)).
Proof.
  intros [Hlo Hhi].
  unfold HarmonicEnhancer.boost_of, Py.float_pow, Py.float_div.
  pose proof float_tiny_below as Ht.
  pose proof float_max_bound as Hm.
  assert (Hi : 0 < / Py.float_max) by (apply Rinv_0_lt_compat; lra).
  destruct (Rlt_dec Py.float_max (Rpower (INR h) hd)); [lra|].
  destruct (Rle_dec (Rpower (INR h) hd) Py.float_tiny); [lra|].
  cbn [bind].
  destruct (Req_dec_T (Rpower (INR h) hd) 0); [lra|].
  destruct (Rlt_dec Py.float_max (Rabs (1 / Rpower (INR h) hd)))
    as [Hgt|_]; [exfalso|reflexivity].
  assert (Hq : 0 < 1 / Rpower (INR h) hd) by (apply Rdiv_lt_0_compat; lra).
  rewrite Rabs_right in Hgt by lra.
  assert (Hone : 1 / Rpower (INR h) hd * Rpower (INR h) hd = 1)
    by (field; lra).
  assert (H1 : Py.float_max * / Py.float_max = 1) by (apply Rinv_r; lra).
  assert (H2 : Py.float_max * / Py.float_max
               <= Py.float_max * Rpower (INR h) hd)
    by (apply Rmult_le_compat_l; lra).
  assert (H3 : Py.float_max * Rpower (INR h) hd
               < 1 / Rpower (INR h) hd * Rpower (INR h) hd)
    by (apply Rmult_lt_compat_r; lra).
  lra.
Qed.

(** A turn of the loop returns unless it boosts a harmonic whose power is
    out of range. *)
Lemma boost_harmonic_returns (hb hd : R) (n f : nat) (l : list R) (h : nat) :
  (exists l', HarmonicEnhancer.boost_harmonic hb hd n f l h = Ok l')
  <-> ((f * h < n)%nat -> power_in_range h hd).
Proof.
  unfold HarmonicEnhancer.boost_harmonic.
  destruct (Nat.ltb_spec (f * h) n) as [Hlt|Hge].
  - split.
    + intros [l' H] _. apply bind_Ok in H. destruct H as (b & Hb & _).
      now apply boost_of_Ok in Hb.
    + intros H. rewrite (boost_of_in_range hb hd h (H Hlt)). cbn [bind].
      eexists; reflexivity.
  - split; [intros _ H; lia|intros _; eexists; reflexivity].
Qed.

(** ** Non-negative magnitudes *)

Lemma Rdiv_nonneg (a b : R) : 0 <= a -> 0 < b -> 0 <= a / b.
Proof.
  intros Ha Hb. unfold Rdiv. apply Rmult_le_pos; [exact Ha|].
  left. now apply Rinv_0_lt_compat.
Qed.

Lemma all_nonneg_firstn (n : nat) (l : list R) :
  all_nonneg l -> all_nonneg (firstn n l).
Proof.
  unfold all_nonneg. revert l; induction n as [|n IH]; intros [|x l] H;
    simpl; auto.
  inversion H; subst. constructor; auto.
Qed.

Lemma all_nonneg_skipn (n : nat) (l : list R) :
  all_nonneg l -> all_nonneg (skipn n l).
Proof.
  unfold all_nonneg. revert l; induction n as [|n IH]; intros [|x l] H;
    simpl; auto.
  inversion H; subst. auto.
Qed.

Lemma all_nonneg_map2_mult (xs ys : list R) :
  all_nonneg xs -> all_nonneg ys -> all_nonneg (map2 Rmult xs ys).
Proof.
  unfold all_nonneg. intros Hx; revert ys.
  induction Hx as [|x xs Hx0 Hx IH]; intros [|y ys] Hy; simpl; auto.
  inversion Hy; subst. constructor; [now apply Rmult_le_pos|auto].
Qed.

Lemma all_nonneg_slice_mul (l vals : list R) (start : nat) :
  all_nonneg l -> all_nonneg vals -> all_nonneg (Np.slice_mul l start vals).
Proof.
  intros Hl Hv. unfold Np.slice_mul, all_nonneg.
  rewrite !Forall_app. repeat split.
  - now apply all_nonneg_firstn.
  - apply all_nonneg_map2_mult; [|exact Hv].
    now apply all_nonneg_firstn, all_nonneg_skipn.
  - now apply all_nonneg_skipn.
Qed.

Lemma all_nonneg_slice_map (f : R -> R) (l : list R) (start stop : nat) :
  (forall x, 0 <= x -> 0 <= f x) ->
  all_nonneg l -> all_nonneg (Np.slice_map f l start stop).
Proof.
  intros Hf Hl. unfold Np.slice_map, all_nonneg.
  rewrite !Forall_app. repeat split.
  - now apply all_nonneg_firstn.
  - apply Forall_map.
    eapply Forall_impl; [|apply all_nonneg_firstn, all_nonneg_skipn, Hl].
    exact Hf.
  - now apply all_nonneg_skipn.
Qed.

(** The boost curve [linspace(1.0, 0.1, num)] stays at or above 0.1. *)
Lemma boost_curve_nonneg (num : nat) :
  all_nonneg (Np.linspace 1.0 0.1 num).
Proof.
  unfold all_nonneg, Np.linspace.
  destruct num as [|[|k]]; [constructor|repeat constructor; lra|].
  apply Forall_map, Forall_forall. intros i Hi. apply in_seq in Hi.
  replace (S (S k) - 1)%nat with (S k) by lia.
  assert (Hk : 0 < INR (S k)) by (apply lt_0_INR; lia).
  assert (Hik : INR i <= INR (S k)) by (apply le_INR; lia).
  assert (H0 : 0 <= INR i) by apply pos_INR.
  assert (Hq : INR i * ((0.1 - 1.0) / INR (S k)) = - (9 / 10) * (INR i / INR (S k))).
  { replace (0.1 - 1.0) with (- (9 / 10)) by lra. field. lra. }
  rewrite Hq.
  assert (Hr : INR i / INR (S k) <= 1).
  { apply Rmult_le_reg_r with (r := INR (S k)); [exact Hk|].
    unfold Rdiv. rewrite Rmult_assoc, Rinv_l by lra. lra. }
  lra.
Qed.

(** The Hann window takes its values between 0 and 1. *)
Lemma hanning_bounds (M : nat) :
  Forall (fun w => 0 <= w <= 1) (Np.hanning M).
Proof.
  unfold Np.hanning.
  destruct M as [|[|k]]; [constructor|repeat constructor; lra|].
  apply Forall_map, Forall_forall. intros n _.
  pose proof (COS_bound (2 * PI * INR n / INR (S (S k) - 1))). lra.
Qed.

Lemma tanh_nonneg (x : R) : 0 <= x -> 0 <= tanh x.
Proof.
  intros Hx. unfold tanh, sinh, cosh.
  pose proof (exp_pos x) as Hp. pose proof (exp_pos (- x)) as Hm.
  assert (Hle : exp (- x) <= exp x).
  { destruct Hx as [Hx|<-].
    - left. apply exp_increasing. lra.
    - rewrite Ropp_0. lra. }
  apply Rdiv_nonneg; lra.
Qed.

Section BuiltinStages.

Variable magnitudes : list R.
Hypothesis Hmag : all_nonneg magnitudes.

Lemma noise_floor_reduction_nonneg (strength : R) :
  all_nonneg (Upscaler.noise_floor_reduction strength magnitudes).
Proof.
  unfold Upscaler.noise_floor_reduction.
  destruct (Rgt_dec strength 0); [|exact Hmag].
  rewrite map2_map_r, map2_diag. apply Forall_map.
  eapply Forall_impl; [|exact Hmag].
  intros m Hm. cbv beta. unfold bool_to_R.
  destruct (Rgtb m _); lra.
Qed.

Lemma harmonic_enhancement_nonneg (boost : R) :
  0 <= boost ->
  all_nonneg (Upscaler.harmonic_enhancement boost magnitudes).
Proof.
  intros Hb. unfold Upscaler.harmonic_enhancement.
  destruct (Rgt_dec boost 0); [|exact Hmag].
  apply all_nonneg_slice_mul; [exact Hmag|].
  apply Forall_map.
  eapply Forall_impl; [|apply boost_curve_nonneg].
  intros c Hc. cbv beta in *. nra.
Qed.

Lemma intensity_scaling_nonneg (factor : R) :
  0 <= factor ->
  all_nonneg (Upscaler.intensity_scaling factor magnitudes).
Proof.
  intros Hf. apply Forall_map.
  eapply Forall_impl; [|exact Hmag].
  intros m Hm. now apply Rmult_le_pos.
Qed.

Lemma dynamic_range_enhancement_nonneg (factor : R) :
  all_nonneg (Upscaler.dynamic_range_enhancement factor magnitudes).
Proof.
  unfold Upscaler.dynamic_range_enhancement.
  destruct (Req_dec_T factor 1.0); [exact Hmag|].
  apply Forall_map, Forall_forall. intros m _. apply Rmax_l.
Qed.

Lemma clarity_enhancement_nonneg (flag : bool) :
  all_nonneg (Upscaler.clarity_enhancement flag magnitudes).
Proof.
  destruct flag; [|exact Hmag].
  apply all_nonneg_slice_map; [intros; lra|exact Hmag].
Qed.

End BuiltinStages.

Lemma builtin_stages_nonneg (self : AudioUpscaler) (magnitudes : list R) :
  0 <= intensity self -> 0 <= harmonics_boost self ->
  all_nonneg magnitudes ->
  all_nonneg (Upscaler.builtin_stages self magnitudes).
Proof.
  intros Hi Hh Hm. unfold Upscaler.builtin_stages.
  apply clarity_enhancement_nonneg, dynamic_range_enhancement_nonneg,
    intensity_scaling_nonneg; [|exact Hi].
  apply harmonic_enhancement_nonneg; [|exact Hh].
  now apply noise_floor_reduction_nonneg.
Qed.

Section EnhancerVariants.

Variables magnitudes phases : list R.
Hypothesis Hmag : all_nonneg magnitudes.

Lemma boost_harmonic_nonneg (hb hd : R) (n f : nat) (l l' : list R)
      (h : nat) :
  0 <= hb -> all_nonneg l ->
  HarmonicEnhancer.boost_harmonic hb hd n f l h = Ok l' -> all_nonneg l'.
Proof.
  intros Hb Hl. unfold HarmonicEnhancer.boost_harmonic.
  destruct (f * h <? n)%nat;
    [|intros H; apply ok_inj in H; now subst l'].
  intros H. apply bind_Ok in H. destruct H as (boost & Hboost & H).
  apply ok_inj in H. subst l'.
  apply boost_of_Ok in Hboost. destruct Hboost as [_ ->].
  apply all_nonneg_slice_mul; [exact Hl|].
  apply Forall_map.
  eapply Forall_impl; [|apply hanning_bounds].
  intros w Hw. cbv beta in *.
  assert (Hp : 0 < Rpower (INR h) hd) by (unfold Rpower; apply exp_pos).
  assert (Hq : 0 <= hb * (1 / Rpower (INR h) hd)).
  { apply Rmult_le_pos; [exact Hb|]. apply Rdiv_nonneg; lra. }
  nra.
Qed.

Lemma harmonic_process_nonneg (hb hd : R) (m p : list R) :
  0 <= hb ->
  HarmonicEnhancer.process hb hd magnitudes phases = Ok (m, p) ->
  all_nonneg m.
Proof.
  intros Hb. unfold HarmonicEnhancer.process. intros H.
  apply bind_Ok in H. destruct H as (em & Hem & H).
  apply ok_inj in H. injection H as <- _.
  destruct (0 <? _)%nat; [|apply ok_inj in Hem; now subst em].
  destruct (0 <? _)%nat; [|apply ok_inj in Hem; now subst em].
  revert Hem. apply for_each_invariant; [|exact Hmag].
  intros a x a' Ha. now apply boost_harmonic_nonneg.
Qed.

(** The harmonic enhancer returns when its decay is not negative and the
    power of the seventh harmonic is a float. *)
Lemma harmonic_process_returns (hb hd : R) :
  0 <= hd -> Rpower (INR 7) hd <= Py.float_max ->
  exists m, HarmonicEnhancer.process hb hd magnitudes phases
            = Ok (m, phases).
Proof.
  intros Hd Hr. unfold HarmonicEnhancer.process.
  set (n := length magnitudes).
  set (f := Np.argmax (firstn (Nat.min (n / 5) 100) magnitudes)).
  assert (Hloop : exists m,
             Py.for_each (HarmonicEnhancer.boost_harmonic hb hd n f)
                         (seq 2 6) magnitudes = Ok m).
  { apply (for_each_returns
             (fun h => (f * h < n)%nat -> power_in_range h hd)).
    - intros a x. apply boost_harmonic_returns.
    - apply Forall_forall. intros h Hh _. apply in_seq in Hh.
      apply power_in_range_le; [lia|exact Hd|exact Hr]. }
  destruct Hloop as [m Hm].
  destruct (0 <? _)%nat; [|eexists; reflexivity].
  destruct (0 <? f)%nat; [|eexists; reflexivity].
  rewrite Hm. eexists; reflexivity.
Qed.

Lemma exciter_mask_nonneg (n : nat) : all_nonneg (ExciterEnhancer.mask n).
Proof.
  unfold ExciterEnhancer.mask. apply all_nonneg_slice_map; [intros; lra|].
  apply Forall_forall. intros x Hx. apply repeat_spec in Hx. lra.
Qed.

Lemma exciter_process_nonneg (drive : R) :
  0 < drive ->
  exists m, ExciterEnhancer.process drive magnitudes phases = Ok (m, phases)
            /\ all_nonneg m.
Proof.
  intros Hd. unfold ExciterEnhancer.process.
  destruct magnitudes as [|m0 ms] eqn:E; [eexists; split; [reflexivity|constructor]|].
  destruct (Req_dec_T drive 0); [lra|].
  eexists; split; [reflexivity|].
  apply all_nonneg_map2_mult; [|apply exciter_mask_nonneg].
  apply Forall_map. eapply Forall_impl; [|exact Hmag].
  intros m Hm. cbv beta. apply Rdiv_nonneg; [|exact Hd].
  apply tanh_nonneg. now apply Rmult_le_pos; [|left].
Qed.

Lemma transient_boost_nonneg (ab : R) (mask : list bool) :
  0 <= ab ->
  all_nonneg (map (fun b => 1 + bool_to_R b * (ab - 1)) mask).
Proof.
  intros Hab. apply Forall_map, Forall_forall. intros [|] _; cbn; lra.
Qed.

Lemma inplace_mul_nonneg (ys out : list R) :
  all_nonneg ys ->
  Np.inplace2 Rmult magnitudes ys = Ok out -> all_nonneg out.
Proof.
  intros Hy. unfold Np.inplace2.
  destruct (length magnitudes =? length ys)%nat.
  - intros H; injection H as <-. now apply all_nonneg_map2_mult.
  - destruct ys as [|y [|y' ys]]; try discriminate.
    intros H; injection H as <-. inversion Hy; subst.
    apply Forall_map. eapply Forall_impl; [|exact Hmag].
    intros m Hm. now apply Rmult_le_pos.
Qed.

Lemma transient_process_nonneg (s ab : R) (prev : option (list R))
      (m p : list R) (prev' : option (list R)) :
  0 <= ab ->
  TransientEnhancer.process s ab prev magnitudes phases = Ok (m, p, prev') ->
  all_nonneg m.
Proof.
  intros Hab. unfold TransientEnhancer.process.
  destruct prev as [prev|].
  - destruct (Np.broadcast2 Rminus magnitudes prev) as [flux|]; cbn [bind];
      [|discriminate].
    destruct (Np.inplace2 Rmult magnitudes _) as [out|] eqn:E; cbn [bind];
      [|discriminate].
    intros H; injection H as <- _ _.
    eapply inplace_mul_nonneg; [|exact E].
    now apply transient_boost_nonneg.
  - intros H; injection H as <- _ _. exact Hmag.
Qed.

Lemma transient_process_returns (s ab : R) (prev : list R) :
  length prev = length magnitudes ->
  exists m, TransientEnhancer.process s ab (Some prev) magnitudes phases
            = Ok (m, phases, Some magnitudes).
Proof.
  intros Hlen. unfold TransientEnhancer.process, Np.broadcast2.
  rewrite Hlen, Nat.eqb_refl. cbn [bind].
  unfold Np.inplace2, TransientEnhancer.transient_mask.
  rewrite !length_map, map2_length, Hlen, Nat.min_id, Nat.eqb_refl.
  cbn [bind]. eexists; reflexivity.
Qed.

End EnhancerVariants.

(** C9, as the code has it: on non-negative magnitudes and with non-negative
    parameters, each built-in stage (noise floor, harmonic boost, intensity,
    dynamic range, clarity) and their composition return non-negative
    magnitudes; so does every call of an enhancer's [process] that returns,
    provided the drive of an exciter is strictly positive; and [process]
    does return when, in addition, the history a transient enhancer holds
    has the length of the input and the decay of a harmonic enhancer keeps
    the power [7 ** harmonic_decay] within the floats (beyond them the
    power raises OverflowError). *)
Theorem magnitudes_stay_nonneg (self : AudioUpscaler) (e : Enhancer)
        (magnitudes phases : list R) :
  0 <= intensity self -> 0 <= harmonics_boost self ->
  0 <= noise_reduction self -> 0 <= dynamic_boost self ->
  nonneg_params e -> positive_drive e ->
  all_nonneg magnitudes ->
  (all_nonneg (Upscaler.noise_floor_reduction (noise_reduction self) magnitudes)
   /\ all_nonneg (Upscaler.harmonic_enhancement (harmonics_boost self) magnitudes)
   /\ all_nonneg (Upscaler.intensity_scaling (intensity self) magnitudes)
   /\ all_nonneg (Upscaler.dynamic_range_enhancement (dynamic_boost self) magnitudes)
   /\ all_nonneg (Upscaler.clarity_enhancement (clarity_enhance self) magnitudes)
   /\ all_nonneg (Upscaler.builtin_stages self magnitudes))
  /\ (forall m p e', process e magnitudes phases = Ok (m, p, e') -> all_nonneg m)
  /\ (history_fits e (length magnitudes) -> decay_in_range e ->
      exists m p e', process e magnitudes phases = Ok (m, p, e')).
Proof.
  intros Hi Hh Hn Hd He Hdrive Hm. split; [|split].
  - repeat split.
    + now apply noise_floor_reduction_nonneg.
    + now apply harmonic_enhancement_nonneg.
    + now apply intensity_scaling_nonneg.
    + now apply dynamic_range_enhancement_nonneg.
    + now apply clarity_enhancement_nonneg.
    + now apply builtin_stages_nonneg.
  - intros m p e'. destruct e as [hb hd pp|w fr|d fr|s ab prev];
      cbn [process nonneg_params positive_drive] in *.
    + intros E. apply bind_Ok in E. destruct E as ([m0 p0] & E0 & E).
      injection E as <- _ _.
      exact (harmonic_process_nonneg magnitudes phases Hm hb hd m0 p0
               (proj1 He) E0).
    + unfold SpectralWidener.process. intros E; injection E as <- _ _.
      exact Hm.
    + destruct (exciter_process_nonneg magnitudes phases Hm d Hdrive)
        as (m0 & -> & H0).
      cbn [bind]. intros E; injection E as <- _ _. exact H0.
    + destruct (TransientEnhancer.process s ab prev magnitudes phases)
        as [[[m0 p0] prev']|] eqn:E; cbn [bind]; [|discriminate].
      intros E'; injection E' as <- _ _.
      eapply transient_process_nonneg; [exact Hm|exact (proj2 He)|exact E].
  - intros Hfit Hdecay. destruct e as [hb hd pp|w fr|d fr|s ab prev];
      cbn [process positive_drive history_fits decay_in_range] in *.
    + destruct (harmonic_process_returns magnitudes phases hb hd
                  (proj1 Hdecay) (proj2 Hdecay)) as (m0 & ->).
      do 3 eexists; reflexivity.
    + unfold SpectralWidener.process. do 3 eexists; reflexivity.
    + destruct (exciter_process_nonneg magnitudes phases Hm d Hdrive)
        as (m0 & -> & _).
      do 3 eexists; reflexivity.
    + destruct prev as [prev|].
      * destruct (transient_process_returns magnitudes phases s ab prev Hfit)
          as (m0 & ->).
        do 3 eexists; reflexivity.
      * do 3 eexists; reflexivity.
Qed.

Lemma magnitudes_stay_nonneg_witness :
  all_nonneg (Upscaler.builtin_stages noop_config [2; 0; 1])
  /\ exists m p e',
       process (TransientEnhancer 0.5 2.0 (Some [1; 1; 1])) [2; 0; 1] [0; 0; 0]
       = Ok (m, p, e').
Proof.
  assert (Hm : all_nonneg [2; 0; 1]) by (repeat constructor; lra).
  assert (He : nonneg_params (TransientEnhancer 0.5 2.0 (Some [1; 1; 1])))
    by (cbn; lra).
  destruct (magnitudes_stay_nonneg noop_config
              (TransientEnhancer 0.5 2.0 (Some [1; 1; 1])) [2; 0; 1] [0; 0; 0])
    as (Hs & _ & Hr); cbn; try lra; try exact I; try exact Hm; try exact He.
  split; [apply Hs|apply Hr; [reflexivity|exact I]].
Defined.

(** C9 as stated fails at an exciter of drive 0, a non-negative parameter, on
    the one-bin spectrum [[1]]: the bin becomes [tanh(0)/0], not a number,
    so no sequence of non-negative magnitudes comes back. *)
Lemma exciter_zero_drive_not_a_number :
  nonneg_params (ExciterEnhancer 0 (1000, 16000))
  /\ all_nonneg [1]
  /\ process (ExciterEnhancer 0 (1000, 16000)) [1] [0] = Raise NonFinite
  /\ forall m p e',
       process (ExciterEnhancer 0 (1000, 16000)) [1] [0] <> Ok (m, p, e').
Proof.
  assert (E : process (ExciterEnhancer 0 (1000, 16000)) [1] [0]
              = Raise NonFinite).
  { cbn. destruct (Req_dec_T 0 0) as [_|H]; [reflexivity|now destruct H]. }
  split; [cbn; lra|]. split; [repeat constructor; lra|].
  split; [exact E|]. intros m p e'. rewrite E. discriminate.
Qed.

(** ** Finite sums *)

Lemma big_sum_ext (n : nat) (f g : nat -> R) :
  (forall i, (i < n)%nat -> f i = g i) -> big_sum n f = big_sum n g.
Proof.
  induction n as [|n IH]; intros H; simpl; [reflexivity|].
  rewrite IH, (H n) by auto with arith. reflexivity.
Qed.

Lemma big_sum_lin (n : nat) (c d : R) (f g : nat -> R) :
  big_sum n (fun i => c * f i + d * g i) = c * big_sum n f + d * big_sum n g.
Proof. induction n as [|n IH]; simpl; [|rewrite IH]; ring. Qed.

Lemma big_sum_plus (n : nat) (f g : nat -> R) :
  big_sum n f + big_sum n g = big_sum n (fun i => f i + g i).
Proof. induction n as [|n IH]; simpl; [|rewrite <- IH]; ring. Qed.

Lemma big_sum_scal (n : nat) (c : R) (f : nat -> R) :
  big_sum n (fun i => c * f i) = c * big_sum n f.
Proof. induction n as [|n IH]; simpl; [|rewrite IH]; ring. Qed.

Lemma big_sum_const (n : nat) (c : R) : big_sum n (fun _ => c) = INR n * c.
Proof.
  induction n as [|n IH]; [simpl; ring|].
  cbn [big_sum]. rewrite IH, S_INR. ring.
Qed.

Lemma big_sum_swap (n m : nat) (g : nat -> nat -> R) :
  big_sum n (fun i => big_sum m (fun k => g i k))
  = big_sum m (fun k => big_sum n (fun i => g i k)).
Proof.
  induction n as [|n IH]; simpl.
  - induction m as [|m IHm]; simpl; [reflexivity|]. rewrite <- IHm. ring.
  - rewrite IH. clear IH. induction m as [|m IHm]; simpl; [ring|].
    rewrite <- IHm. ring.
Qed.

Lemma big_sum_zero (n : nat) (f : nat -> R) :
  (forall i, (i < n)%nat -> f i = 0) -> big_sum n f = 0.
Proof.
  intros H. rewrite (big_sum_ext n f (fun _ => 0) H), big_sum_const. ring.
Qed.

Lemma big_sum_single (n j : nat) (f : nat -> R) :
  (j < n)%nat -> (forall i, (i < n)%nat -> i <> j -> f i = 0) ->
  big_sum n f = f j.
Proof.
  induction n as [|n IH]; intros Hj H; [lia|]. simpl.
  destruct (Nat.eq_dec j n) as [->|Hne].
  - rewrite big_sum_zero; [ring|]. intros i Hi. apply H; lia.
  - rewrite IH, (H n) by (try intros; try apply H; lia). ring.
Qed.

(** ** Trigonometry at whole multiples *)

Lemma cos_nat_PI (j : nat) : cos (INR j * PI) = (-1) ^ j.
Proof.
  induction j as [|j IH]; [simpl; rewrite Rmult_0_l; apply cos_0|].
  rewrite S_INR, Rmult_plus_distr_r, Rmult_1_l, neg_cos, IH. simpl. ring.
Qed.

Lemma sin_nat_PI (j : nat) : sin (INR j * PI) = 0.
Proof.
  induction j as [|j IH]; [simpl; rewrite Rmult_0_l; apply sin_0|].
  rewrite S_INR, Rmult_plus_distr_r, Rmult_1_l, neg_sin, IH. ring.
Qed.

(** The Dirichlet-type kernel met by the inverse transform. *)
Lemma kernel_telescopes (M : nat) (phi : R) :
  sin (phi / 2)
  * (1 + cos (INR (S M) * phi)
     + 2 * big_sum M (fun i => cos (INR (S i) * phi)))
  = sin (INR (S M) * phi) * cos (phi / 2).
Proof.
  induction M as [|M IH].
  - simpl. rewrite Rmult_1_l.
    set (h := phi / 2).
    assert (Ec : cos phi = cos h * cos h - sin h * sin h).
    { replace phi with (2 * h) by (unfold h; field). apply cos_2a. }
    assert (Es : sin phi = 2 * sin h * cos h).
    { replace phi with (2 * h) by (unfold h; field). apply sin_2a. }
    rewrite Ec, Es.
    pose proof (sin2_cos2 h) as H. unfold Rsqr in H.
    replace 1 with (sin h * sin h + cos h * cos h) by exact H. ring.
  - cbn [big_sum].
    set (A := INR (S M) * phi + phi / 2).
    set (h := phi / 2).
    assert (E1 : INR (S (S M)) * phi = A + h).
    { unfold A, h. rewrite (S_INR (S M)). field. }
    assert (E2 : INR (S M) * phi = A - h).
    { unfold A, h. field. }
    rewrite E1. rewrite E2 in IH.
    replace (cos (INR (S M) * phi)) with (cos (A - h)) by (now rewrite E2).
    rewrite cos_plus, sin_plus, cos_minus.
    rewrite cos_minus, sin_minus in IH.
    fold h in IH.
    nra.
Qed.

Lemma sin_int_PI (n j : nat) : sin (PI * (INR n - INR j)) = 0.
Proof.
  apply sin_eq_0_1. exists (Z.of_nat n - Z.of_nat j)%Z.
  rewrite minus_IZR, <- !INR_IZR_INZ. ring.
Qed.

Lemma sin_fraction_PI_neq_0 (n j N : nat) :
  (n < N)%nat -> (j < N)%nat -> n <> j ->
  sin (PI * (INR n - INR j) / INR N) <> 0.
Proof.
  intros Hn Hj Hne.
  assert (HN : 0 < INR N) by (apply lt_0_INR; lia).
  pose proof PI_RGT_0 as Hpi.
  pose proof (pos_INR n) as Hn0. pose proof (pos_INR j) as Hj0.
  assert (HnN : INR n < INR N) by (apply lt_INR; lia).
  assert (HjN : INR j < INR N) by (apply lt_INR; lia).
  set (d := (INR n - INR j) / INR N).
  assert (Ex : PI * (INR n - INR j) / INR N = PI * d) by (unfold d; field; lra).
  rewrite Ex.
  assert (Hd : -1 < d < 1).
  { unfold d. split.
    - apply Rmult_lt_reg_r with (r := INR N); [exact HN|].
      unfold Rdiv. rewrite Rmult_assoc, Rinv_l by lra. lra.
    - apply Rmult_lt_reg_r with (r := INR N); [exact HN|].
      unfold Rdiv. rewrite Rmult_assoc, Rinv_l by lra. lra. }
  destruct (Nat.lt_total n j) as [Hlt|[Heq|Hgt]]; [|contradiction|].
  - assert (Hdn : d < 0).
    { unfold d. apply lt_INR in Hlt.
      apply Rmult_lt_reg_r with (r := INR N); [exact HN|].
      unfold Rdiv. rewrite Rmult_assoc, Rinv_l by lra. lra. }
    assert (sin (PI * d) < 0); [|lra].
    apply sin_lt_0_var; nra.
  - assert (Hdp : 0 < d).
    { unfold d. apply lt_INR in Hgt.
      apply Rmult_lt_reg_r with (r := INR N); [exact HN|].
      unfold Rdiv. rewrite Rmult_assoc, Rinv_l by lra. lra. }
    assert (0 < sin (PI * d)); [|lra].
    apply sin_gt_0; nra.
Qed.

Lemma kernel_value (M n j : nat) :
  (n < 2 * S M)%nat -> (j < 2 * S M)%nat ->
  let phi := 2 * PI * (INR n - INR j) / INR (2 * S M) in
  1 + cos (INR (S M) * phi) + 2 * big_sum M (fun i => cos (INR (S i) * phi))
  = if Nat.eq_dec n j then INR (2 * S M) else 0.
Proof.
  intros Hn Hj phi.
  assert (HN : INR (2 * S M) = 2 * INR (S M)) by (rewrite mult_INR; simpl; ring).
  assert (HM : 0 < INR (S M)) by (apply lt_0_INR; lia).
  destruct (Nat.eq_dec n j) as [->|Hne].
  - assert (E0 : phi = 0) by (unfold phi; rewrite HN; field; lra).
    rewrite E0, Rmult_0_r, cos_0.
    rewrite (big_sum_ext M _ (fun _ => 1)).
    + rewrite big_sum_const, HN, S_INR. ring.
    + intros i _. rewrite Rmult_0_r. apply cos_0.
  - pose proof (kernel_telescopes M phi) as T.
    assert (E1 : INR (S M) * phi = PI * (INR n - INR j)).
    { unfold phi. rewrite HN. field. lra. }
    assert (E2 : phi / 2 = PI * (INR n - INR j) / INR (2 * S M)).
    { unfold phi. field. rewrite HN. lra. }
    assert (Hs : sin (INR (S M) * phi) = 0) by (rewrite E1; apply sin_int_PI).
    rewrite Hs, Rmult_0_l in T.
    apply Rmult_integral in T. destruct T as [T|T]; [|exact T].
    exfalso. rewrite E2 in T.
    now apply (sin_fraction_PI_neq_0 n j (2 * S M)).
Qed.

(** ** Magnitude and phase recombine to the bin they came from *)

Lemma polar_abs_angle (z : complex) : Fft.polar (Fft.abs z) (Fft.angle z) = z.
Proof.
  destruct z as [x y]. unfold Fft.polar, Fft.abs, Fft.angle, Fft.arctan2.
  cbn [fst snd].
  assert (Hatan : forall t, 0 < sqrt (1 + t²)).
  { intros t. apply sqrt_lt_R0. unfold Rsqr. nra. }
  assert (Hsplit : x <> 0 ->
            sqrt (x * x + y * y) = Rabs x * sqrt (1 + (y / x)²)).
  { intros Hx.
    replace (x * x + y * y) with (x² * (1 + (y / x)²))
      by (unfold Rsqr; field; exact Hx).
    rewrite sqrt_mult; [|apply Rle_0_sqr|unfold Rsqr; nra].
    now rewrite sqrt_Rsqr_abs. }
  destruct (Rlt_dec 0 x) as [Hpos|Hnpos].
  - rewrite Hsplit by lra. rewrite Rabs_right by lra.
    rewrite cos_atan, sin_atan. specialize (Hatan (y / x)).
    f_equal; field; lra.
  - destruct (Rlt_dec x 0) as [Hneg|Hnneg].
    + rewrite Hsplit by lra. rewrite Rabs_left by lra.
      specialize (Hatan (y / x)).
      destruct (Rle_dec 0 y).
      * rewrite neg_cos, neg_sin, cos_atan, sin_atan. f_equal; field; lra.
      * rewrite cos_minus, sin_minus, cos_PI, sin_PI, cos_atan, sin_atan.
        f_equal; field; lra.
    + assert (x = 0) by lra. subst x.
      replace (0 * 0 + y * y) with (y * y) by ring.
      destruct (Rlt_dec 0 y) as [Hy|Hy].
      * rewrite sqrt_square by lra. rewrite cos_PI2, sin_PI2. f_equal; ring.
      * destruct (Rlt_dec y 0) as [Hy'|Hy'].
        -- replace (y * y) with ((- y) * (- y)) by ring.
           rewrite sqrt_square by lra.
           rewrite cos_neg, sin_neg, cos_PI2, sin_PI2. f_equal; ring.
        -- assert (y = 0) by lra. subst y.
           rewrite Rmult_0_l, sqrt_0. f_equal; ring.
Qed.

(** ** The inverse transform undoes the forward transform *)

Lemma nth_rfft_bins (a : list R) (K k : nat) :
  (k < K)%nat ->
  nth k (map (Fft.rfft_bin a) (seq 0 K)) (0, 0) = Fft.rfft_bin a k.
Proof.
  intros Hk.
  rewrite nth_indep with (d' := Fft.rfft_bin a 0%nat)
    by (rewrite length_map, length_seq; exact Hk).
  rewrite map_nth, seq_nth by exact Hk. reflexivity.
Qed.

Section Inversion.

Variable a : list R.
Variable M : nat.
Hypothesis Hlen : length a = (2 * S M)%nat.

Lemma INR_N : INR (2 * S M) = 2 * INR (S M).
Proof. rewrite mult_INR. simpl. ring. Qed.

Lemma INR_N_pos : 0 < INR (2 * S M).
Proof. apply lt_0_INR. lia. Qed.

Lemma theta_diff (k j n : nat) :
  cos (INR k * Fft.lag (2 * S M) j n)
  = cos (Fft.turn (2 * S M) k n) * cos (Fft.turn (2 * S M) k j) + sin (Fft.turn (2 * S M) k n) * sin (Fft.turn (2 * S M) k j).
Proof.
  rewrite <- cos_minus. f_equal. unfold Fft.lag, Fft.turn.
  pose proof INR_N_pos. field. lra.
Qed.

Lemma theta_nyquist (n : nat) : Fft.turn (2 * S M) (S M) n = INR n * PI.
Proof.
  unfold Fft.turn. rewrite INR_N.
  assert (0 < INR (S M)) by (apply lt_0_INR; lia). field. lra.
Qed.

Lemma theta_dc (n : nat) : Fft.turn (2 * S M) 0 n = 0.
Proof. unfold Fft.turn. simpl. unfold Rdiv. ring. Qed.

(** The sum over the inner bins, with the two sums exchanged. *)
Lemma inner_bins (j : nat) :
  big_sum M (fun i =>
    big_sum (2 * S M) (fun n => nth n a 0 * cos (Fft.turn (2 * S M) (S i) n)) * cos (Fft.turn (2 * S M) (S i) j)
    - - big_sum (2 * S M) (fun n => nth n a 0 * sin (Fft.turn (2 * S M) (S i) n))
        * sin (Fft.turn (2 * S M) (S i) j))
  = big_sum (2 * S M) (fun n =>
      nth n a 0 * big_sum M (fun i => cos (INR (S i) * Fft.lag (2 * S M) j n))).
Proof.
  rewrite (big_sum_ext (2 * S M) _
             (fun n => big_sum M (fun i =>
                         nth n a 0 * cos (INR (S i) * Fft.lag (2 * S M) j n))))
    by (intros n _; symmetry; apply big_sum_scal).
  rewrite <- big_sum_swap.
  apply big_sum_ext. intros i _.
  rewrite (big_sum_ext (2 * S M) (fun n => nth n a 0 * cos (INR (S i) * Fft.lag (2 * S M) j n))
             (fun n => cos (Fft.turn (2 * S M) (S i) j) * (nth n a 0 * cos (Fft.turn (2 * S M) (S i) n))
                       + sin (Fft.turn (2 * S M) (S i) j)
                         * (nth n a 0 * sin (Fft.turn (2 * S M) (S i) n))))
    by (intros n _; rewrite theta_diff; ring).
  rewrite big_sum_lin. ring.
Qed.

Lemma nyquist_bin (j : nat) :
  (-1) ^ j * big_sum (2 * S M) (fun n => nth n a 0 * cos (Fft.turn (2 * S M) (S M) n))
  = big_sum (2 * S M) (fun n => nth n a 0 * cos (INR (S M) * Fft.lag (2 * S M) j n)).
Proof.
  rewrite <- big_sum_scal. apply big_sum_ext. intros n _.
  rewrite theta_diff, !theta_nyquist, !cos_nat_PI, !sin_nat_PI. ring.
Qed.

Lemma dc_bin :
  big_sum (2 * S M) (fun n => nth n a 0 * cos (Fft.turn (2 * S M) 0 n))
  = big_sum (2 * S M) (fun n => nth n a 0 * 1).
Proof.
  apply big_sum_ext. intros n _. now rewrite theta_dc, cos_0.
Qed.

Lemma irfft_sample_rfft (j : nat) :
  (j < 2 * S M)%nat ->
  Fft.irfft_sample (map (Fft.rfft_bin a) (seq 0 (S M + 1))) j = nth j a 0.
Proof.
  intros Hj. unfold Fft.irfft_sample.
  rewrite length_map, length_seq.
  replace (S M + 1 - 1)%nat with (S M) by lia.
  replace (S M + 1 - 2)%nat with M by lia.
  rewrite !nth_rfft_bins by lia.
  rewrite (big_sum_ext M _
    (fun i =>
       big_sum (2 * S M) (fun n => nth n a 0 * cos (Fft.turn (2 * S M) (S i) n))
       * cos (Fft.turn (2 * S M) (S i) j)
       - - big_sum (2 * S M) (fun n => nth n a 0 * sin (Fft.turn (2 * S M) (S i) n))
           * sin (Fft.turn (2 * S M) (S i) j))).
  2:{ intros i Hi. cbv zeta. rewrite nth_rfft_bins by lia.
      unfold Fft.rfft_bin. rewrite Hlen. reflexivity. }
  unfold Fft.rfft_bin. rewrite Hlen. cbn [fst snd].
  rewrite inner_bins, nyquist_bin, dc_bin.
  rewrite <- big_sum_scal.
  rewrite !big_sum_plus.
  rewrite (big_sum_single (2 * S M) j).
  - pose proof (kernel_value M j j Hj Hj) as K. cbv zeta in K.
    fold (Fft.lag (2 * S M) j j) in K.
    destruct (Nat.eq_dec j j) as [_|]; [|contradiction].
    replace (nth j a 0 * 1 + nth j a 0 * cos (INR (S M) * Fft.lag (2 * S M) j j)
             + 2 * (nth j a 0
                    * big_sum M (fun i => cos (INR (S i) * Fft.lag (2 * S M) j j))))
      with (nth j a 0
            * (1 + cos (INR (S M) * Fft.lag (2 * S M) j j)
               + 2 * big_sum M (fun i => cos (INR (S i) * Fft.lag (2 * S M) j j))))
      by ring.
    rewrite K. pose proof INR_N_pos. field. lra.
  - exact Hj.
  - intros n Hn Hne.
    pose proof (kernel_value M n j Hn Hj) as K. cbv zeta in K.
    fold (Fft.lag (2 * S M) j n) in K.
    destruct (Nat.eq_dec n j) as [|_]; [contradiction|].
    replace (nth n a 0 * 1 + nth n a 0 * cos (INR (S M) * Fft.lag (2 * S M) j n)
             + 2 * (nth n a 0
                    * big_sum M (fun i => cos (INR (S i) * Fft.lag (2 * S M) j n))))
      with (nth n a 0
            * (1 + cos (INR (S M) * Fft.lag (2 * S M) j n)
               + 2 * big_sum M (fun i => cos (INR (S i) * Fft.lag (2 * S M) j n))))
      by ring.
    rewrite K. ring.
Qed.

End Inversion.

Lemma map2_map_both {A B C D : Type} (f : B -> C -> D) (g : A -> B)
      (h : A -> C) (l : list A) :
  map2 f (map g l) (map h l) = map (fun x => f (g x) (h x)) l.
Proof. induction l as [|x l IH]; simpl; [|rewrite IH]; reflexivity. Qed.

Lemma map_nth_seq {A : Type} (l : list A) (d : A) :
  map (fun j => nth j l d) (seq 0 (length l)) = l.
Proof.
  induction l as [|x l IH]; [reflexivity|].
  cbn [length seq map nth]. f_equal.
  rewrite <- seq_shift, map_map. exact IH.
Qed.

Lemma even_length_half {A : Type} (l : list A) :
  l <> [] -> Nat.even (length l) = true ->
  exists M, length l = (2 * S M)%nat.
Proof.
  intros Hne He. apply Nat.even_spec in He. destruct He as [m Hm].
  destruct m as [|M]; [|now exists M].
  destruct l; [contradiction|discriminate].
Qed.

Lemma analyze_returns (frame : list R) (M : nat) :
  length frame = (2 * S M)%nat ->
  Upscaler.analyze frame
  = Ok (map Fft.abs (map (Fft.rfft_bin frame) (seq 0 (S M + 1))),
        map Fft.angle (map (Fft.rfft_bin frame) (seq 0 (S M + 1)))).
Proof.
  intros Hlen. unfold Upscaler.analyze, Fft.rfft.
  destruct frame as [|x frame]; [discriminate|].
  rewrite Hlen.
  replace (2 * S M / 2)%nat with (S M)
    by (rewrite Nat.mul_comm, Nat.div_mul; lia).
  reflexivity.
Qed.

Lemma synthesize_analysis (frame : list R) (M : nat) :
  length frame = (2 * S M)%nat ->
  Upscaler.synthesize
    (map Fft.abs (map (Fft.rfft_bin frame) (seq 0 (S M + 1))))
    (map Fft.angle (map (Fft.rfft_bin frame) (seq 0 (S M + 1))))
  = Ok frame.
Proof.
  intros Hlen. unfold Upscaler.synthesize.
  rewrite map2_map_both.
  rewrite (map_id_ext (fun z => Fft.polar (Fft.abs z) (Fft.angle z)))
    by apply polar_abs_angle.
  unfold Fft.irfft. rewrite length_map, length_seq.
  replace (S M + 1 <=? 1)%nat with false by (symmetry; apply Nat.leb_gt; lia).
  replace (2 * (S M + 1 - 1))%nat with (length frame) by lia.
  f_equal. rewrite <- (map_nth_seq frame 0) at 3.
  apply map_ext_in. intros j Hj. apply in_seq in Hj.
  apply irfft_sample_rfft; [exact Hlen|lia].
Qed.

(** C5, as the code has it: for every frame of even, non-zero length the
    analysis (real transform, magnitude and phase of each bin) followed at
    once by the synthesis (recombination and inverse real transform) gives
    the frame back, in exact arithmetic sample for sample. *)
Theorem analysis_synthesis_roundtrip (frame : list R) :
  frame <> [] -> Nat.even (length frame) = true ->
  exists magnitudes phases,
    Upscaler.analyze frame = Ok (magnitudes, phases)
    /\ Upscaler.synthesize magnitudes phases = Ok frame.
Proof.
  intros Hne He. destruct (even_length_half frame Hne He) as [M Hlen].
  do 2 eexists. split; [apply (analyze_returns frame M Hlen)|].
  apply (synthesize_analysis frame M Hlen).
Qed.

Lemma analysis_synthesis_roundtrip_witness :
  exists magnitudes phases,
    Upscaler.analyze [1; 2; 3; 4] = Ok (magnitudes, phases)
    /\ Upscaler.synthesize magnitudes phases = Ok [1; 2; 3; 4].
Proof.
  apply (analysis_synthesis_roundtrip [1; 2; 3; 4]);
    [discriminate|reflexivity].
Defined.

(** C5 as stated fails at the frame [[1; 2; 3]] of odd length: its two bins come
    back as two samples, which no tolerance makes the three of the frame. *)
Lemma odd_frame_comes_back_shorter :
  exists magnitudes phases out,
    Upscaler.analyze [1; 2; 3] = Ok (magnitudes, phases)
    /\ Upscaler.synthesize magnitudes phases = Ok out
    /\ length out = 2%nat
    /\ forall eps, ~ within_tolerance eps out [1; 2; 3].
Proof.
  do 3 eexists. split; [reflexivity|]. split; [reflexivity|].
  split; [reflexivity|].
  intros eps [Hlen _]. discriminate Hlen.
Qed.

Lemma builtin_stages_noop (magnitudes : list R) :
  Upscaler.builtin_stages noop_config magnitudes = magnitudes.
Proof.
  unfold Upscaler.builtin_stages, noop_config. cbn [intensity harmonics_boost
    noise_reduction dynamic_boost clarity_enhance].
  unfold Upscaler.clarity_enhancement, Upscaler.dynamic_range_enhancement,
    Upscaler.intensity_scaling, Upscaler.harmonic_enhancement,
    Upscaler.noise_floor_reduction.
  destruct (Req_dec_T 1.0 1.0) as [_|H]; [|now destruct H].
  destruct (Rgt_dec 0 0) as [H|_]; [lra|].
  apply map_id_ext. intros x. lra.
Qed.

Lemma process_frame_noop (frame : list R) :
  frame <> [] -> Nat.even (length frame) = true ->
  Upscaler._process_frame noop_config frame = Ok (frame, noop_config).
Proof.
  intros Hne He. destruct (even_length_half frame Hne He) as [M Hlen].
  unfold Upscaler._process_frame.
  rewrite (analyze_returns frame M Hlen). cbn [bind].
  rewrite builtin_stages_noop. cbn [enhancer_chain noop_config bind].
  rewrite (synthesize_analysis frame M Hlen). reflexivity.
Qed.

(** ** Slices and buffers *)

Lemma bound_le (n : nat) (i : Z) : (Py.bound (Z.of_nat n) i <= n)%nat.
Proof. unfold Py.bound. destruct (Z.ltb_spec i 0); lia. Qed.

Lemma slice_length {A : Type} (l : list A) (start stop : Z) :
  length (Py.slice l start stop)
  = (Py.bound (Z.of_nat (length l)) stop
     - Py.bound (Z.of_nat (length l)) start)%nat.
Proof.
  unfold Py.slice. rewrite length_firstn, length_skipn.
  pose proof (bound_le (length l) stop).
  pose proof (bound_le (length l) start). lia.
Qed.

Lemma slice_same {A : Type} (l : list A) (i : Z) : Py.slice l i i = [].
Proof. unfold Py.slice. now rewrite Nat.sub_diag. Qed.

Lemma inplace2_length (op : R -> R -> R) (xs ys out : list R) :
  Np.inplace2 op xs ys = Ok out -> length out = length xs.
Proof.
  unfold Np.inplace2.
  destruct (Nat.eqb_spec (length xs) (length ys)) as [E|_].
  - intros H; injection H as <-. rewrite map2_length. lia.
  - destruct ys as [|y [|y' ys]]; try discriminate.
    intros H; injection H as <-. apply length_map.
Qed.

Lemma slice_iadd_length (buf vals out : list R) (start stop : Z) :
  Upscaler.slice_iadd buf start stop vals = Ok out ->
  length out = length buf.
Proof.
  unfold Upscaler.slice_iadd. intros H.
  apply bind_Ok in H. destruct H as (upd & Hupd & H). injection H as <-.
  apply inplace2_length in Hupd. rewrite slice_length in Hupd.
  rewrite !length_app, length_firstn, length_skipn, Hupd.
  pose proof (bound_le (length buf) stop).
  pose proof (bound_le (length buf) start). lia.
Qed.

Lemma frame_loop_length (padded : list R) (frame_size : Z) (offsets : list Z) :
  forall self buf out self',
    Upscaler.frame_loop self padded frame_size offsets buf = Ok (out, self') ->
    length out = length buf.
Proof.
  induction offsets as [|i rest IH]; intros self buf out self' H.
  - injection H as <- _. reflexivity.
  - cbn [Upscaler.frame_loop] in H.
    apply bind_Ok in H. destruct H as ([frame self1] & _ & H).
    apply bind_Ok in H. destruct H as (windowed & _ & H).
    apply bind_Ok in H. destruct H as (buf1 & Hadd & H).
    apply IH in H. apply slice_iadd_length in Hadd. congruence.
Qed.

Lemma overlap_normalize_length (buf out : list R) (k : Z) :
  Upscaler.overlap_normalize buf k = Ok out -> length out = length buf.
Proof.
  unfold Upscaler.overlap_normalize. destruct buf as [|x buf].
  - intros H; injection H as <-. reflexivity.
  - destruct (k =? 0)%Z; [discriminate|].
    intros H; injection H as <-. cbn [length]. now rewrite length_map.
Qed.

Lemma normalize_level_length (buf out : list R) :
  Upscaler.normalize_level buf = Ok out -> length out = length buf.
Proof.
  unfold Upscaler.normalize_level. intros H.
  apply bind_Ok in H. destruct H as (mx & _ & H).
  destruct (Rgt_dec mx 0); injection H as <-; [apply length_map|reflexivity].
Qed.

(** Stripping the padding of a buffer of length [L + 2*pad], [pad > 0]. *)
Lemma unpad_length (buf : list R) (L : nat) (pad : Z) :
  (0 < pad)%Z -> Z.of_nat (length buf) = (Z.of_nat L + 2 * pad)%Z ->
  length (Py.slice buf pad (- pad)) = L.
Proof.
  intros Hp Hlen. rewrite slice_length. unfold Py.bound.
  destruct (Z.ltb_spec pad 0); [lia|].
  destruct (Z.ltb_spec (- pad) 0); lia.
Qed.

(** With a zero frame size no run of a channel comes to an end, except on
    the empty channel up to the normalization, which then raises. *)
Lemma zero_frame_size_fails (self : AudioUpscaler) (channel : list R)
      (hop : Z) (out : list R) (self' : AudioUpscaler) :
  Upscaler.overlap_add self channel 0 hop = Ok (out, self') -> channel = [].
Proof.
  unfold Upscaler.overlap_add. intros H.
  destruct channel as [|x0 channel]; [reflexivity|exfalso].
  apply bind_Ok in H. destruct H as (padded & Hpad & H).
  pose proof (pad_reflect_length _ _ _ Hpad) as Hlen.
  apply bind_Ok in H. destruct H as (total & _ & H).
  apply bind_Ok in H. destruct H as (offsets & Hoff & H).
  apply bind_Ok in H. destruct H as ([buf self1] & Hloop & H).
  apply bind_Ok in H. destruct H as (buf2 & Hnorm & _).
  unfold Upscaler.frame_offsets, Py.range in Hoff.
  destruct (Z.eqb_spec hop 0) as [|Hh]; [discriminate|].
  injection Hoff as <-.
  cbn [length] in Hlen.
  destruct (Z.ltb_spec 0 hop) as [Hpos|Hneg].
  - (* at least one frame, and it is empty *)
    assert (Hn : exists k, Py.range_len 0 (Z.of_nat (length padded) - 0) hop = S k).
    { unfold Py.range_len. destruct (Z.ltb_spec 0 hop); [|lia].
      assert (1 <= (Z.of_nat (length padded) - 0 - 0 + hop - 1) / hop)%Z.
      { apply Z.div_le_lower_bound; lia. }
      exists (Z.to_nat ((Z.of_nat (length padded) - 0 - 0 + hop - 1) / hop) - 1)%nat.
      lia. }
    destruct Hn as [k Hk]. rewrite Hk in Hloop.
    cbn [seq map Upscaler.frame_loop] in Hloop.
    apply bind_Ok in Hloop. destruct Hloop as ([frame self2] & Hframe & _).
    unfold Upscaler._process_frame in Hframe.
    apply bind_Ok in Hframe. destruct Hframe as ([m p] & Han & _).
    unfold Upscaler.analyze in Han.
    apply bind_Ok in Han. destruct Han as (bins & Hfft & _).
    rewrite Z.add_0_r, slice_same in Hfft. discriminate.
  - (* no frame, and a division by zero overlaps *)
    assert (Hn : Py.range_len 0 (Z.of_nat (length padded) - 0) hop = O).
    { unfold Py.range_len. destruct (Z.ltb_spec 0 hop); [lia|].
      assert ((0 - (Z.of_nat (length padded) - 0) - hop - 1) / - hop <= 0)%Z.
      { apply Z.lt_succ_r. apply Z.div_lt_upper_bound; lia. }
      lia. }
    rewrite Hn in Hloop. cbn [seq map Upscaler.frame_loop] in Hloop.
    injection Hloop as <- _.
    replace (0 / hop)%Z with 0%Z in Hnorm by (symmetry; apply Z.div_0_l; lia).
    unfold Upscaler.overlap_normalize in Hnorm.
    destruct (repeat 0 (length padded)) as [|z zs] eqn:E.
    + apply (f_equal (@length R)) in E. rewrite repeat_length in E.
      cbn [length] in E. lia.
    + discriminate.
Qed.

(** The channel pipeline returns as many samples as it was given. *)
Lemma overlap_add_length (self : AudioUpscaler) (channel : list R)
      (frame_size hop : Z) (out : list R) (self' : AudioUpscaler) :
  Upscaler.overlap_add self channel frame_size hop = Ok (out, self') ->
  length out = length channel.
Proof.
  intros H.
  destruct (Z.eq_dec frame_size 0) as [->|Hfs].
  - pose proof (zero_frame_size_fails _ _ _ _ _ H) as ->.
    unfold Upscaler.overlap_add in H.
    apply bind_Ok in H. destruct H as (padded & Hpad & H).
    apply bind_Ok in H. destruct H as (total & _ & H).
    apply bind_Ok in H. destruct H as (offsets & Hoff & H).
    apply bind_Ok in H. destruct H as ([buf self1] & Hloop & H).
    apply bind_Ok in H. destruct H as (buf2 & Hnorm & H).
    injection H as <- _. rewrite slice_length. cbn [length].
    unfold Py.bound. cbn. lia.
  - unfold Upscaler.overlap_add in H.
    apply bind_Ok in H. destruct H as (padded & Hpad & H).
    pose proof (pad_reflect_length _ _ _ Hpad) as Hlen.
    assert (Hpos : (0 < frame_size)%Z).
    { unfold Upscaler.pad_reflect in Hpad.
      destruct (Z.ltb_spec frame_size 0); [discriminate|lia]. }
    apply bind_Ok in H. destruct H as (total & _ & H).
    apply bind_Ok in H. destruct H as (offsets & Hoff & H).
    apply bind_Ok in H. destruct H as ([buf self1] & Hloop & H).
    apply bind_Ok in H. destruct H as (buf2 & Hnorm & H).
    injection H as <- _.
    apply frame_loop_length in Hloop. rewrite repeat_length in Hloop.
    apply overlap_normalize_length in Hnorm.
    apply unpad_length; [exact Hpos|]. congruence.
Qed.

Lemma process_channel_length (self : AudioUpscaler) (channel : list R)
      (sr frame_size hop : Z) (out : list R) (self' : AudioUpscaler) :
  Upscaler._process_channel self channel sr frame_size hop = Ok (out, self') ->
  length out = length channel.
Proof.
  unfold Upscaler._process_channel. intros H.
  apply bind_Ok in H. destruct H as ([acc self1] & Hacc & H).
  apply bind_Ok in H. destruct H as (lev & Hlev & H).
  injection H as <- _.
  apply normalize_level_length in Hlev. apply overlap_add_length in Hacc.
  congruence.
Qed.

(** ** Peak normalization *)

Lemma fold_left_Rmax_scale (g : R) (t : list R) (x : R) :
  0 <= g ->
  fold_left Rmax (map (fun y => y * g) t) (x * g) = fold_left Rmax t x * g.
Proof.
  intros Hg. revert x. induction t as [|y t IH]; intros x; simpl; [reflexivity|].
  rewrite <- IH. f_equal.
  rewrite (Rmult_comm x g), (Rmult_comm y g), RmaxRmult by exact Hg. ring.
Qed.

Lemma max_abs_scale (g mx : R) (l : list R) :
  0 <= g ->
  Np.max (map Rabs l) = Ok mx ->
  Np.max (map Rabs (map (fun x => x * g) l)) = Ok (mx * g).
Proof.
  intros Hg. destruct l as [|x l]; [discriminate|].
  cbn [map Np.max]. intros H; injection H as <-. f_equal.
  rewrite <- fold_left_Rmax_scale by exact Hg.
  rewrite Rabs_mult, (Rabs_right g) by lra. f_equal.
  rewrite !map_map. apply map_ext. intros y.
  now rewrite Rabs_mult, (Rabs_right g) by lra.
Qed.

Lemma fold_left_Rmax_bound (t : list R) (x : R) :
  x <= fold_left Rmax t x /\ forall y, In y t -> y <= fold_left Rmax t x.
Proof.
  revert x. induction t as [|z t IH]; intros x; simpl.
  - split; [lra|intros y []].
  - destruct (IH (Rmax x z)) as [H1 H2]. split.
    + pose proof (Rmax_l x z). lra.
    + intros y [Hy|Hy]; [|now apply H2].
      subst y. pose proof (Rmax_r x z). lra.
Qed.

Lemma max_bounds (l : list R) (mx : R) :
  Np.max l = Ok mx -> forall y, In y l -> y <= mx.
Proof.
  destruct l as [|x t]; [discriminate|].
  cbn [Np.max]. intros H; injection H as <-.
  destruct (fold_left_Rmax_bound t x) as [H1 H2].
  intros y [<-|Hy]; [exact H1|now apply H2].
Qed.

Lemma normalize_level_peak (acc : list R) (max_val : R) :
  Np.max (map Rabs acc) = Ok max_val -> max_val > 0 ->
  Upscaler.normalize_level acc
  = Ok (map (fun x => x * (0.95 / max_val)) acc)
  /\ Np.max (map Rabs (map (fun x => x * (0.95 / max_val)) acc)) = Ok 0.95.
Proof.
  intros Hmax Hpos. split.
  - unfold Upscaler.normalize_level. rewrite Hmax. cbn [bind].
    destruct (Rgt_dec max_val 0); [reflexivity|contradiction].
  - assert (Hg : 0 <= 0.95 / max_val) by (apply Rdiv_nonneg; lra).
    rewrite (max_abs_scale _ max_val) by assumption.
    f_equal. field. lra.
Qed.

(** ** The no-op configuration runs to the end *)

Lemma hanning_length (M : nat) : length (Np.hanning M) = M.
Proof.
  destruct M as [|[|k]]; try reflexivity.
  unfold Np.hanning. now rewrite length_map, length_seq.
Qed.

Lemma even_to_nat (z : Z) :
  (0 <= z)%Z -> Z.even z = true -> Nat.even (Z.to_nat z) = true.
Proof.
  intros Hz He. apply Z.even_spec in He. destruct He as [k ->].
  apply Nat.even_spec. exists (Z.to_nat k). lia.
Qed.

Lemma frame_of_padded (padded : list R) (frame_size i : Z) :
  (0 <= i)%Z -> (0 <= frame_size)%Z ->
  (i + frame_size <= Z.of_nat (length padded))%Z ->
  length (Py.slice padded i (i + frame_size)) = Z.to_nat frame_size.
Proof.
  intros Hi Hf Hle. rewrite slice_length. unfold Py.bound.
  destruct (Z.ltb_spec (i + frame_size) 0); [lia|].
  destruct (Z.ltb_spec i 0); lia.
Qed.

Lemma slice_iadd_returns (buf vals : list R) (start stop : Z) :
  length (Py.slice buf start stop) = length vals ->
  exists out, Upscaler.slice_iadd buf start stop vals = Ok out.
Proof.
  intros Hlen. unfold Upscaler.slice_iadd, Np.inplace2.
  rewrite Hlen, Nat.eqb_refl. cbn [bind]. eexists; reflexivity.
Qed.

Lemma pad_reflect_returns (channel : list R) (pad : Z) :
  channel <> [] -> (0 <= pad)%Z ->
  exists padded, Upscaler.pad_reflect channel pad = Ok padded.
Proof.
  intros Hne Hp. unfold Upscaler.pad_reflect.
  destruct (Z.ltb_spec pad 0); [lia|].
  destruct channel as [|x0 channel]; [contradiction|]. eexists; reflexivity.
Qed.

(** ** A run on a constant channel *)

Lemma hanning_4 : Np.hanning 4 = [0; 3 / 4; 3 / 4; 0].
Proof.
  unfold Np.hanning. cbn [seq map Nat.sub].
  assert (E0 : cos (2 * PI * INR 0 / INR 3) = 1).
  { replace (2 * PI * INR 0 / INR 3) with 0 by (simpl; field). apply cos_0. }
  assert (E1 : cos (2 * PI * INR 1 / INR 3) = - 1 / 2).
  { replace (2 * PI * INR 1 / INR 3) with (2 * (PI / 3)) by (simpl; field).
    apply cos_2PI3. }
  assert (E2 : cos (2 * PI * INR 2 / INR 3) = - 1 / 2).
  { replace (2 * PI * INR 2 / INR 3) with (PI / 3 + PI) by (simpl; field).
    rewrite neg_cos, cos_PI3. lra. }
  assert (E3 : cos (2 * PI * INR 3 / INR 3) = 1).
  { replace (2 * PI * INR 3 / INR 3) with (2 * PI) by (simpl; field).
    apply cos_2PI. }
  rewrite E0, E1, E2, E3.
  replace (0.5 - 0.5 * 1) with 0 by lra.
  replace (0.5 - 0.5 * (- 1 / 2)) with (3 / 4) by lra.
  reflexivity.
Qed.

(** ** The spectrum of a constant frame *)

Lemma cos_3PI : cos (3 * PI) = -1.
Proof. replace (3 * PI) with (2 * PI + PI) by ring. rewrite neg_cos, cos_2PI. ring. Qed.

Lemma sin_3PI : sin (3 * PI) = 0.
Proof. replace (3 * PI) with (2 * PI + PI) by ring. rewrite neg_sin, sin_2PI. ring. Qed.

Lemma rfft_constant_frame (c : R) :
  map (Fft.rfft_bin [c; c; c; c]) (seq 0 3) = [(4 * c, - 0); (0, - 0); (0, - 0)].
Proof.
  cbn [seq map]. unfold Fft.rfft_bin, Fft.turn. cbn [length big_sum nth].
  replace (INR 4) with 4 by (simpl; ring).
  replace (INR 3) with 3 by (simpl; ring).
  replace (INR 2) with 2 by (simpl; ring).
  replace (INR 1) with 1 by (simpl; ring).
  replace (INR 0) with 0 by reflexivity.
  replace (2 * PI * 0 * 0 / 4) with 0 by field.
  replace (2 * PI * 0 * 1 / 4) with 0 by field.
  replace (2 * PI * 0 * 2 / 4) with 0 by field.
  replace (2 * PI * 0 * 3 / 4) with 0 by field.
  replace (2 * PI * 1 * 0 / 4) with 0 by field.
  replace (2 * PI * 1 * 1 / 4) with (PI / 2) by field.
  replace (2 * PI * 1 * 2 / 4) with PI by field.
  replace (2 * PI * 1 * 3 / 4) with (3 * (PI / 2)) by field.
  replace (2 * PI * 2 * 0 / 4) with 0 by field.
  replace (2 * PI * 2 * 1 / 4) with PI by field.
  replace (2 * PI * 2 * 2 / 4) with (2 * PI) by field.
  replace (2 * PI * 2 * 3 / 4) with (3 * PI) by field.
  rewrite cos_0, sin_0, cos_PI2, sin_PI2, cos_PI, sin_PI, cos_3PI2, sin_3PI2,
    cos_2PI, sin_2PI, cos_3PI, sin_3PI.
  repeat (apply f_equal2; [apply f_equal2; ring|]). reflexivity.
Qed.

Lemma analyze_constant_frame (c : R) :
  0 <= c ->
  Upscaler.analyze [c; c; c; c] = Ok ([4 * c; 0; 0], [0; 0; 0]).
Proof.
  intros Hc. rewrite (analyze_returns [c; c; c; c] 1) by reflexivity.
  change (seq 0 (1 + 1 + 1)) with (seq 0 3). rewrite rfft_constant_frame.
  cbn [map]. unfold Fft.abs, Fft.angle, Fft.arctan2. cbn [fst snd].
  replace (- 0) with 0 by ring.
  replace (4 * c * (4 * c) + 0 * 0) with ((4 * c) * (4 * c)) by ring.
  replace (0 * 0 + 0 * 0) with 0 by ring.
  rewrite sqrt_square by lra. rewrite sqrt_0.
  assert (Ha : atan (0 / (4 * c)) = 0).
  { unfold Rdiv. rewrite Rmult_0_l. apply atan_0. }
  destruct (Rlt_dec 0 0) as [H|_]; [lra|].
  destruct (Rlt_dec 0 (4 * c)) as [_|Hn].
  - rewrite Ha. reflexivity.
  - destruct (Rlt_dec (4 * c) 0); [lra|]. reflexivity.
Qed.

Lemma synthesize_dc_only (c : R) :
  0 <= c ->
  Upscaler.synthesize [4 * c; 0; 0] [0; 0; 0] = Ok [c; c; c; c].
Proof.
  intros Hc.
  pose proof (analyze_constant_frame c Hc) as Ha.
  rewrite (analyze_returns [c; c; c; c] 1) in Ha by reflexivity.
  pose proof (synthesize_analysis [c; c; c; c] 1 eq_refl) as Hs.
  remember (map Fft.abs _) as X eqn:EX in Ha, Hs.
  remember (map Fft.angle _) as Y eqn:EY in Ha, Hs.
  assert (Hm : X = [4 * c; 0; 0]) by congruence.
  assert (Hp : Y = [0; 0; 0]) by congruence.
  now rewrite Hm, Hp in Hs.
Qed.

(** ** Frames of a constant channel through a transient enhancer *)

Lemma builtin_stages_transient_config (s ab : R) (prev : option (list R))
      (magnitudes : list R) :
  Upscaler.builtin_stages (transient_config s ab prev) magnitudes = magnitudes.
Proof. exact (builtin_stages_noop magnitudes). Qed.

Lemma process_frame_transient_first (c s ab : R) :
  0 <= c ->
  Upscaler._process_frame (transient_config s ab None) [c; c; c; c]
  = Ok ([c; c; c; c], transient_config s ab (Some [4 * c; 0; 0])).
Proof.
  intros Hc. unfold Upscaler._process_frame.
  rewrite (analyze_constant_frame c Hc). cbn [bind].
  rewrite builtin_stages_transient_config.
  cbn [transient_config Upscaler.with_chain enhancer_chain
       apply_enhancer_chain process TransientEnhancer.process bind].
  rewrite (synthesize_dc_only c Hc). reflexivity.
Qed.

Lemma process_frame_transient_same (c s ab : R) :
  0 <= c ->
  Upscaler._process_frame (transient_config s ab (Some [4 * c; 0; 0]))
                          [c; c; c; c]
  = Ok ([c; c; c; c], transient_config s ab (Some [4 * c; 0; 0])).
Proof.
  intros Hc. unfold Upscaler._process_frame.
  rewrite (analyze_constant_frame c Hc). cbn [bind].
  rewrite builtin_stages_transient_config.
  cbn [transient_config Upscaler.with_chain enhancer_chain
       apply_enhancer_chain process].
  rewrite transient_process_identical. cbn [bind].
  rewrite (synthesize_dc_only c Hc). reflexivity.
Qed.

(** A frame of ones met with the history of a frame of halves: the flux of
    bin 0 is above the mean flux, the bin is doubled, and so is the frame. *)
Lemma process_frame_transient_boost :
  Upscaler._process_frame (transient_config 0 2 (Some [4 * (1 / 2); 0; 0]))
                          [1; 1; 1; 1]
  = Ok ([2; 2; 2; 2], transient_config 0 2 (Some [4 * 1; 0; 0])).
Proof.
  unfold Upscaler._process_frame.
  rewrite (analyze_constant_frame 1) by lra. cbn [bind].
  rewrite builtin_stages_transient_config.
  cbn [transient_config Upscaler.with_chain enhancer_chain
       apply_enhancer_chain process TransientEnhancer.process
       Np.broadcast2 length Nat.eqb map2 bind].
  assert (Hmask : TransientEnhancer.transient_mask 0
                    [4 * 1 - 4 * (1 / 2); 0 - 0; 0 - 0]
                  = [true; false; false]).
  { unfold TransientEnhancer.transient_mask. cbn [map].
    replace (Rmax 0 (4 * 1 - 4 * (1 / 2))) with 2
      by (rewrite Rmax_right; lra).
    replace (Rmax 0 (0 - 0)) with 0 by (rewrite Rmax_left; lra).
    unfold Np.mean, Np.sum. cbn [fold_right length].
    replace (INR 3) with 3 by (simpl; ring).
    rewrite Rgtb_true by lra. rewrite Rgtb_false by lra. reflexivity. }
  rewrite Hmask.
  cbn [map bool_to_R Np.inplace2 length Nat.eqb map2 bind].
  replace (4 * 1 * (1 + 1 * (2 - 1))) with (4 * 2) by ring.
  replace (0 * (1 + 0 * (2 - 1))) with 0 by ring.
  rewrite (synthesize_dc_only 2) by lra. reflexivity.
Qed.

(** ** Runs of a constant channel of five samples, frame size 4, hop 2 *)

Ltac eval_call f :=
  match goal with
  | |- context [f ?a ?b ?c ?d] =>
      let r := eval cbv - [Rplus Rmult Rdiv Rminus IZR] in (f a b c d) in
      change (f a b c d) with r
  end.

Ltac constant_frame c H :=
  match goal with
  | |- context [bind (Upscaler._process_frame ?s ?fr) _] =>
      change fr with [c; c; c; c]; rewrite H
  end;
  cbn [bind Np.broadcast2 length Nat.eqb map2];
  eval_call Upscaler.slice_iadd; cbn [bind].

Ltac list_eq :=
  repeat (apply f_equal2; [try lra|]); try reflexivity.

(** The frame at offset 0 lies in the padding: whatever it becomes,
    [f0; f1; f2; f3], is stripped; the four frames after it are returned as
    they are and make the channel, weighted by the window and halved. *)
Lemma constant_channel_overlap_add (self0 self1 : AudioUpscaler)
      (c f0 f1 f2 f3 : R) :
  Upscaler._process_frame self0 [c; c; c; c] = Ok ([f0; f1; f2; f3], self1) ->
  Upscaler._process_frame self1 [c; c; c; c] = Ok ([c; c; c; c], self1) ->
  Upscaler.overlap_add self0 [c; c; c; c; c] 4 2
  = Ok ([c * (3 / 8); c * (3 / 8); c * (3 / 8); c * (3 / 8); c * (3 / 8)],
        self1).
Proof.
  intros Hfirst Hnext. unfold Upscaler.overlap_add.
  assert (Hpad : Upscaler.pad_reflect [c; c; c; c; c] 4
                 = Ok [c; c; c; c; c; c; c; c; c; c; c; c; c]) by reflexivity.
  rewrite Hpad. cbn [bind].
  change (Upscaler.total_frames
            (Z.of_nat (length [c; c; c; c; c; c; c; c; c; c; c; c; c])) 4 2)
    with (Ok 5%Z).
  cbn [bind].
  assert (Hoff : Upscaler.frame_offsets
                   (Z.of_nat (length [c; c; c; c; c; c; c; c; c; c; c; c; c])) 4 2
                 = Ok [0; 2; 4; 6; 8]%Z) by reflexivity.
  rewrite Hoff. cbn [bind Upscaler.frame_loop].
  change (Z.to_nat 4) with 4%nat. rewrite hanning_4.
  remember (3 / 4) as w eqn:Ew. remember 0 as z eqn:Ez.
  cbn [length repeat].
  constant_frame c Hfirst.
  do 4 constant_frame c Hnext.
  change (4 / 2)%Z with 2%Z.
  cbn [Upscaler.overlap_normalize Z.eqb bind map].
  match goal with
  | |- context [Py.slice ?l ?i ?j] =>
      let r := eval cbv - [Rplus Rmult Rdiv Rminus IZR] in (Py.slice l i j) in
      change (Py.slice l i j) with r
  end.
  subst w z. f_equal. f_equal. list_eq.
Qed.

Lemma constant_channel_peak (c : R) :
  c > 0 ->
  Np.max (map Rabs [c * (3 / 8); c * (3 / 8); c * (3 / 8); c * (3 / 8);
                    c * (3 / 8)])
  = Ok (c * (3 / 8)).
Proof.
  intros Hc. cbn [map Np.max fold_left]. rewrite Rabs_right by lra.
  rewrite !(Rmax_left (c * (3 / 8)) (c * (3 / 8))) by lra. reflexivity.
Qed.

Lemma constant_channel_run (self0 self1 : AudioUpscaler) (c f0 f1 f2 f3 : R)
      (sr : Z) :
  c > 0 ->
  Upscaler._process_frame self0 [c; c; c; c] = Ok ([f0; f1; f2; f3], self1) ->
  Upscaler._process_frame self1 [c; c; c; c] = Ok ([c; c; c; c], self1) ->
  Upscaler._process_channel self0 [c; c; c; c; c] sr 4 2
  = Ok ([0.95; 0.95; 0.95; 0.95; 0.95], self1).
Proof.
  intros Hc Hfirst Hnext. unfold Upscaler._process_channel.
  rewrite (constant_channel_overlap_add self0 self1 c f0 f1 f2 f3 Hfirst Hnext).
  cbn [bind].
  destruct (normalize_level_peak _ _ (constant_channel_peak c Hc)) as [-> _];
    [lra|].
  cbn [bind map].
  assert (E : c * (3 / 8) * (0.95 / (c * (3 / 8))) = 0.95).
  { generalize 0.95. intros t. field. lra. }
  rewrite E. reflexivity.
Qed.

Lemma noop_constant_frame (c : R) :
  Upscaler._process_frame noop_config [c; c; c; c]
  = Ok ([c; c; c; c], noop_config).
Proof. apply process_frame_noop; [discriminate|reflexivity]. Qed.

(** C6: when the overlap-added, unpadded channel has a largest absolute
    sample above 0, the pipeline returns that channel scaled by the one gain
    [0.95 / peak]; the largest absolute sample of the result is 0.95, so
    every sample is within 0.95 plus any tolerance. *)
Theorem peak_normalization (self : AudioUpscaler) (channel : list R)
        (sr frame_size hop : Z) (acc : list R) (self' : AudioUpscaler)
        (max_val : R) :
  Upscaler.overlap_add self channel frame_size hop = Ok (acc, self') ->
  Np.max (map Rabs acc) = Ok max_val ->
  max_val > 0 ->
  exists out,
    Upscaler._process_channel self channel sr frame_size hop = Ok (out, self')
    /\ out = map (fun x => x * (0.95 / max_val)) acc
    /\ Np.max (map Rabs out) = Ok 0.95
    /\ forall eps x, 0 <= eps -> In x out -> Rabs x <= 0.95 + eps.
Proof.
  intros Hacc Hmax Hpos.
  destruct (normalize_level_peak acc max_val Hmax Hpos) as [Hlev Hpeak].
  exists (map (fun x => x * (0.95 / max_val)) acc).
  split; [|split; [reflexivity|split; [exact Hpeak|]]].
  - unfold Upscaler._process_channel. rewrite Hacc. cbn [bind].
    rewrite Hlev. reflexivity.
  - intros eps x Heps Hx.
    pose proof (max_bounds _ _ Hpeak (Rabs x) (in_map Rabs _ _ Hx)). lra.
Qed.

Lemma peak_normalization_witness :
  exists out,
    Upscaler._process_channel noop_config [1; 1; 1; 1; 1] 22050 4 2
    = Ok (out, noop_config)
    /\ out = map (fun x => x * (0.95 / (1 * (3 / 8))))
                 [1 * (3 / 8); 1 * (3 / 8); 1 * (3 / 8); 1 * (3 / 8);
                  1 * (3 / 8)]
    /\ Np.max (map Rabs out) = Ok 0.95
    /\ forall eps x, 0 <= eps -> In x out -> Rabs x <= 0.95 + eps.
Proof.
  apply (peak_normalization noop_config [1; 1; 1; 1; 1] 22050 4 2 _ _ _
           (constant_channel_overlap_add noop_config noop_config 1 1 1 1 1
              (noop_constant_frame 1) (noop_constant_frame 1))
           (constant_channel_peak 1 ltac:(lra))).
  lra.
Defined.

(** ** The no-op configuration *)

Lemma reflect_index_inside (len k : nat) :
  (k < len)%nat -> Upscaler.reflect_index len (Z.of_nat k) = k.
Proof.
  intros Hk. unfold Upscaler.reflect_index.
  destruct (Nat.eqb_spec len 1) as [->|Hne]; [lia|].
  cbv zeta. rewrite Z.mod_small by lia.
  destruct (Z.ltb_spec (Z.of_nat k) (Z.of_nat len)); lia.
Qed.

Lemma seq_offset (start len : nat) :
  seq start len = map (fun k => (start + k)%nat) (seq 0 len).
Proof.
  revert start. induction len as [|len IH]; intros start; [reflexivity|].
  cbn [seq map]. rewrite Nat.add_0_r. f_equal.
  rewrite (IH (S start)), (IH 1%nat), map_map.
  apply map_ext. intros k. lia.
Qed.

Lemma firstn_seq (n start len : nat) :
  firstn n (seq start len) = seq start (Nat.min n len).
Proof.
  revert start len. induction n as [|n IH]; intros start [|len];
    try reflexivity.
  cbn [seq firstn Nat.min]. now rewrite IH.
Qed.

Lemma pad_reflect_value (channel : list R) (pad : Z) :
  channel <> [] -> (0 <= pad)%Z ->
  Upscaler.pad_reflect channel pad
  = Ok (map (fun i => nth (Upscaler.reflect_index (length channel)
                                                  (Z.of_nat i - pad))
                          channel (hd 0 channel))
            (seq 0 (length channel + 2 * Z.to_nat pad))).
Proof.
  intros Hne Hp. unfold Upscaler.pad_reflect.
  destruct (Z.ltb_spec pad 0); [lia|].
  destruct channel; [contradiction|reflexivity].
Qed.

Lemma pad_reflect_unpad (channel : list R) (pad : Z) :
  channel <> [] -> (0 < pad)%Z ->
  exists padded,
    Upscaler.pad_reflect channel pad = Ok padded
    /\ Z.of_nat (length padded) = (Z.of_nat (length channel) + 2 * pad)%Z
    /\ Py.slice padded pad (- pad) = channel.
Proof.
  intros Hne Hpad.
  pose proof (pad_reflect_value channel pad Hne (Z.lt_le_incl _ _ Hpad)) as Hp.
  eexists. split; [exact Hp|].
  split; [exact (pad_reflect_length _ _ _ Hp)|].
  unfold Py.slice. cbv zeta. rewrite length_map, length_seq.
  assert (Hs : Py.bound (Z.of_nat (length channel + 2 * Z.to_nat pad)) pad
               = Z.to_nat pad).
  { unfold Py.bound. destruct (Z.ltb_spec pad 0); lia. }
  assert (He : Py.bound (Z.of_nat (length channel + 2 * Z.to_nat pad)) (- pad)
               = (length channel + Z.to_nat pad)%nat).
  { unfold Py.bound. destruct (Z.ltb_spec (- pad) 0); lia. }
  rewrite Hs, He, skipn_map, firstn_map, skipn_seq, firstn_seq.
  replace (Nat.min (length channel + Z.to_nat pad - Z.to_nat pad)
                   (length channel + 2 * Z.to_nat pad - Z.to_nat pad))
    with (length channel) by lia.
  replace (0 + Z.to_nat pad)%nat with (Z.to_nat pad) by lia.
  rewrite (seq_offset (Z.to_nat pad) (length channel)), map_map.
  transitivity (map (fun j => nth j channel (hd 0 channel))
                    (seq 0 (length channel))); [|apply map_nth_seq].
  apply map_ext_in. intros k Hk. apply in_seq in Hk.
  replace (Z.of_nat (Z.to_nat pad + k) - pad)%Z with (Z.of_nat k) by lia.
  now rewrite reflect_index_inside by lia.
Qed.

Lemma nth_slice (l : list R) (i fs : Z) (k : nat) :
  (0 <= i)%Z -> (0 <= fs)%Z -> (i + fs <= Z.of_nat (length l))%Z ->
  (k < Z.to_nat fs)%nat ->
  nth k (Py.slice l i (i + fs)) 0 = nth (Z.to_nat i + k) l 0.
Proof.
  intros Hi Hfs Hle Hk. unfold Py.slice. cbv zeta.
  assert (Hs : Py.bound (Z.of_nat (length l)) i = Z.to_nat i).
  { unfold Py.bound. destruct (Z.ltb_spec i 0); lia. }
  assert (He : Py.bound (Z.of_nat (length l)) (i + fs) = Z.to_nat (i + fs)).
  { unfold Py.bound. destruct (Z.ltb_spec (i + fs) 0); lia. }
  rewrite Hs, He, nth_firstn, nth_skipn.
  destruct (Nat.ltb_spec k (Z.to_nat (i + fs) - Z.to_nat i)); [reflexivity|lia].
Qed.

Lemma nth_unpad (l : list R) (pad : Z) (L j : nat) :
  (0 < pad)%Z -> Z.of_nat (length l) = (Z.of_nat L + 2 * pad)%Z ->
  (j < L)%nat ->
  nth j (Py.slice l pad (- pad)) 0 = nth (Z.to_nat pad + j) l 0.
Proof.
  intros Hp Hlen Hj. unfold Py.slice. cbv zeta.
  assert (Hs : Py.bound (Z.of_nat (length l)) pad = Z.to_nat pad).
  { unfold Py.bound. destruct (Z.ltb_spec pad 0); lia. }
  assert (He : Py.bound (Z.of_nat (length l)) (- pad)
               = (L + Z.to_nat pad)%nat).
  { unfold Py.bound. destruct (Z.ltb_spec (- pad) 0); lia. }
  rewrite Hs, He, nth_firstn, nth_skipn.
  destruct (Nat.ltb_spec j (L + Z.to_nat pad - Z.to_nat pad)); [reflexivity|lia].
Qed.

Lemma slice_iadd_nth (buf vals out : list R) (i fs : Z) (t : nat) :
  (0 <= i)%Z -> (0 <= fs)%Z -> (i + fs <= Z.of_nat (length buf))%Z ->
  length vals = Z.to_nat fs ->
  Upscaler.slice_iadd buf i (i + fs) vals = Ok out ->
  nth t out 0
  = nth t buf 0
    + (if ((i <=? Z.of_nat t) && (Z.of_nat t <? i + fs))%Z
       then nth (Z.to_nat (Z.of_nat t - i)) vals 0 else 0).
Proof.
  intros Hi Hfs Hle Hv. unfold Upscaler.slice_iadd. cbv zeta. intros H.
  apply bind_Ok in H. destruct H as (upd & Hupd & H). apply ok_inj in H.
  subst out.
  assert (Hsl : length (Py.slice buf i (i + fs)) = Z.to_nat fs)
    by (apply frame_of_padded; lia).
  unfold Np.inplace2 in Hupd. rewrite Hsl, Hv, Nat.eqb_refl in Hupd.
  apply ok_inj in Hupd. subst upd.
  assert (Hs : Py.bound (Z.of_nat (length buf)) i = Z.to_nat i).
  { unfold Py.bound. destruct (Z.ltb_spec i 0); lia. }
  assert (He : Py.bound (Z.of_nat (length buf)) (i + fs) = Z.to_nat (i + fs)).
  { unfold Py.bound. destruct (Z.ltb_spec (i + fs) 0); lia. }
  rewrite Hs, He.
  assert (Lf : length (firstn (Z.to_nat i) buf) = Z.to_nat i)
    by (rewrite length_firstn; lia).
  assert (Lm : length (map2 Rplus (Py.slice buf i (i + fs)) vals)
               = Z.to_nat fs)
    by (rewrite map2_length, Hsl, Hv; lia).
  destruct (Z.leb_spec i (Z.of_nat t)) as [Hit|Hit]; cbn [andb].
  - rewrite app_nth2 by lia. rewrite Lf.
    destruct (Z.ltb_spec (Z.of_nat t) (i + fs)) as [Hte|Hte].
    + rewrite app_nth1 by lia.
      rewrite (nth_map2 Rplus _ _ _ 0 0 0) by lia.
      rewrite nth_slice by lia.
      replace (Z.to_nat i + (t - Z.to_nat i))%nat with t by lia.
      replace (Z.to_nat (Z.of_nat t - i)) with (t - Z.to_nat i)%nat by lia.
      reflexivity.
    + rewrite app_nth2 by lia. rewrite Lm, nth_skipn.
      replace (Nat.max (Z.to_nat i) (Z.to_nat (i + fs))
               + (t - Z.to_nat i - Z.to_nat fs))%nat with t by lia.
      ring.
  - rewrite app_nth1 by lia. rewrite nth_firstn.
    destruct (Nat.ltb_spec t (Z.to_nat i)); [ring|lia].
Qed.

Lemma window_sum_cons (frame_size i : Z) (rest : list Z) (t : nat) :
  window_sum frame_size (i :: rest) t
  = window_at frame_size i t + window_sum frame_size rest t.
Proof. reflexivity. Qed.

(** Under the no-op configuration every frame comes back as it was cut, so
    the loop adds to each sample of the buffer the sample of the padded
    channel times the windows of the frames that cover it. *)
Lemma frame_loop_noop_value (padded : list R) (frame_size : Z)
      (offsets : list Z) :
  (0 < frame_size)%Z -> Z.even frame_size = true ->
  Forall (fun i => 0 <= i /\ i + frame_size <= Z.of_nat (length padded))%Z
         offsets ->
  forall (buf : list R) (W : nat -> R),
    length buf = length padded ->
    (forall t, nth t buf 0 = nth t padded 0 * W t) ->
    exists out,
      Upscaler.frame_loop noop_config padded frame_size offsets buf
      = Ok (out, noop_config)
      /\ forall t, nth t out 0
                   = nth t padded 0 * (W t + window_sum frame_size offsets t).
Proof.
  intros Hpos Heven Hoff.
  induction Hoff as [|i rest [Hi Hle] _ IH]; intros buf W Hbuf HW.
  - exists buf. split; [reflexivity|].
    intros t. rewrite HW. cbn [window_sum fold_right]. ring.
  - cbn [Upscaler.frame_loop].
    pose proof (frame_of_padded padded frame_size i Hi
                  (Z.lt_le_incl _ _ Hpos) Hle) as Hframe.
    rewrite process_frame_noop.
    2:{ intros E. rewrite E in Hframe. cbn [length] in Hframe. lia. }
    2:{ rewrite Hframe. apply even_to_nat; [lia|exact Heven]. }
    cbn [bind]. unfold Np.broadcast2.
    rewrite Hframe, hanning_length, Nat.eqb_refl. cbn [bind].
    set (vals := map2 Rmult (Py.slice padded i (i + frame_size))
                      (Np.hanning (Z.to_nat frame_size))).
    assert (Lv : length vals = Z.to_nat frame_size).
    { subst vals. rewrite map2_length, Hframe, hanning_length. lia. }
    destruct (slice_iadd_returns buf vals i (i + frame_size)) as [buf' Hbuf'].
    { rewrite Lv. apply frame_of_padded; lia. }
    rewrite Hbuf'. cbn [bind].
    destruct (IH buf' (fun t => W t + window_at frame_size i t))
      as (out & Hout & Hval).
    { apply slice_iadd_length in Hbuf'. congruence. }
    { intros t.
      rewrite (slice_iadd_nth buf vals buf' i frame_size t Hi
                 (Z.lt_le_incl _ _ Hpos) ltac:(lia) Lv Hbuf').
      rewrite HW. unfold window_at.
      destruct ((i <=? Z.of_nat t) && (Z.of_nat t <? i + frame_size))%Z
        eqn:Hin; [|ring].
      apply andb_true_iff in Hin. destruct Hin as [H1 H2].
      apply Z.leb_le in H1. apply Z.ltb_lt in H2.
      subst vals.
      rewrite (nth_map2 Rmult _ _ _ 0 0 0)
        by (rewrite ?Hframe, ?hanning_length; lia).
      rewrite nth_slice by lia.
      replace (Z.to_nat i + Z.to_nat (Z.of_nat t - i))%nat with t by lia.
      ring. }
    exists out. split; [exact Hout|].
    intros t. rewrite Hval, window_sum_cons. ring.
Qed.

(** The channel that the no-op configuration hands to the level
    normalisation: each sample of the input times the weight of its
    position. *)
Lemma overlap_add_noop_value (channel : list R) (frame_size hop : Z) :
  channel <> [] -> (0 < frame_size)%Z -> Z.even frame_size = true ->
  (0 < hop <= frame_size)%Z ->
  exists offsets,
    Upscaler.frame_offsets (Z.of_nat (length channel) + 2 * frame_size)
                           frame_size hop = Ok offsets
    /\ Upscaler.overlap_add noop_config channel frame_size hop
       = Ok (map (fun j => nth j channel 0
                           * overlap_weight frame_size hop offsets j)
                 (seq 0 (length channel)), noop_config).
Proof.
  intros Hne Hpos Heven Hhop.
  destruct (pad_reflect_unpad channel frame_size Hne Hpos)
    as (padded & Hpad & Hlen & Hunpad).
  destruct (Upscaler.frame_offsets (Z.of_nat (length padded)) frame_size hop)
    as [offsets|e] eqn:Hoff.
  2:{ unfold Upscaler.frame_offsets, Py.range in Hoff.
      destruct (Z.eqb_spec hop 0); [lia|discriminate]. }
  exists offsets. split; [now rewrite <- Hlen|].
  destruct (frame_loop_noop_value padded frame_size offsets Hpos Heven)
    with (buf := repeat 0 (length padded)) (W := fun _ : nat => 0)
    as (buf & Hloop & Hval).
  { apply Forall_forall. intros o Ho.
    apply (range_positive_step _ _ _ o (proj1 Hhop) Hoff) in Ho. lia. }
  { apply repeat_length. }
  { intros t. rewrite nth_repeat. ring. }
  assert (Lbuf : length buf = length padded).
  { apply frame_loop_length in Hloop. now rewrite repeat_length in Hloop. }
  assert (Hk : (frame_size / hop <> 0)%Z).
  { assert (1 <= frame_size / hop)%Z by (apply Z.div_le_lower_bound; lia).
    lia. }
  unfold Upscaler.overlap_add. rewrite Hpad. cbn [bind].
  unfold Upscaler.total_frames.
  destruct (Z.eqb_spec hop 0); [lia|]. cbn [bind].
  rewrite Hoff. cbn [bind]. rewrite Hloop. cbn [bind].
  assert (Hnorm : Upscaler.overlap_normalize buf (frame_size / hop)
                  = Ok (map (fun x => x / IZR (frame_size / hop)) buf)).
  { unfold Upscaler.overlap_normalize.
    destruct buf as [|b buf]; [reflexivity|].
    destruct (Z.eqb_spec (frame_size / hop) 0); [contradiction|reflexivity]. }
  rewrite Hnorm. cbn [bind]. f_equal. f_equal.
  apply (nth_ext _ _ 0 0).
  { rewrite length_map, length_seq. apply unpad_length; [exact Hpos|].
    rewrite length_map. lia. }
  intros j Hj.
  assert (HjL : (j < length channel)%nat).
  { rewrite (unpad_length _ (length channel) frame_size Hpos) in Hj;
      [exact Hj|rewrite length_map; lia]. }
  rewrite (nth_unpad _ frame_size (length channel) j Hpos)
    by (rewrite ?length_map; lia).
  rewrite (nth_map_lt _ _ _ 0 0) by lia.
  rewrite Hval.
  rewrite (nth_map_lt _ _ j 0 0%nat) by (rewrite length_seq; lia).
  rewrite seq_nth by lia. cbn [Nat.add].
  rewrite <- (nth_unpad padded frame_size (length channel) j Hpos Hlen HjL).
  rewrite Hunpad. unfold overlap_weight. unfold Rdiv. ring.
Qed.




(** ** Stereo input *)

Lemma map_fst_combine {A B : Type} (l : list A) (r : list B) :
  length l = length r -> map fst (combine l r) = l.
Proof.
  revert r; induction l as [|x l IH]; intros [|y r] H; simpl in *;
    try discriminate; [reflexivity|].
  f_equal. apply IH. now injection H.
Qed.

Lemma map_snd_combine {A B : Type} (l : list A) (r : list B) :
  length l = length r -> map snd (combine l r) = r.
Proof.
  revert r; induction l as [|x l IH]; intros [|y r] H; simpl in *;
    try discriminate; [reflexivity|].
  f_equal. apply IH. now injection H.
Qed.

(** The five rows (1/2, 1) with a fresh transient enhancer of sensitivity 0
    and attack boost 2 as the chain (frame size 4, hop 2): the enhancer has
    no history before the left run and holds the magnitudes [[2; 0; 0]] of
    the left channel's last frame after it; the right run starts from that
    upscaler, and its first frame, which a fresh enhancer returns unchanged,
    is doubled against the left channel's history. *)
Lemma stereo_run_one_transient :
  let self := transient_config 0 2 None in
  let self1 := transient_config 0 2 (Some [4 * (1 / 2); 0; 0]) in
  let self2 := transient_config 0 2 (Some [4 * 1; 0; 0]) in
  let rows := [(1 / 2, 1); (1 / 2, 1); (1 / 2, 1); (1 / 2, 1); (1 / 2, 1)] in
  histories (enhancer_chain self) = [None]
  /\ Upscaler._process_channel self (map fst rows) 22050 4 2
     = Ok ([0.95; 0.95; 0.95; 0.95; 0.95], self1)
  /\ histories (enhancer_chain self1) = [Some [4 * (1 / 2); 0; 0]]
  /\ Upscaler._process_channel self1 (map snd rows) 22050 4 2
     = Ok ([0.95; 0.95; 0.95; 0.95; 0.95], self2)
  /\ Upscaler.process_audio self (Stereo rows) 22050 4 2
     = Ok (Stereo [(0.95, 0.95); (0.95, 0.95); (0.95, 0.95); (0.95, 0.95);
                   (0.95, 0.95)], self2)
  /\ Upscaler._process_frame self [1; 1; 1; 1] = Ok ([1; 1; 1; 1], self2)
  /\ Upscaler._process_frame self1 [1; 1; 1; 1] = Ok ([2; 2; 2; 2], self2).
Proof.
  cbv zeta.
  assert (Hl : Upscaler._process_channel (transient_config 0 2 None)
                 [1 / 2; 1 / 2; 1 / 2; 1 / 2; 1 / 2] 22050 4 2
               = Ok ([0.95; 0.95; 0.95; 0.95; 0.95],
                     transient_config 0 2 (Some [4 * (1 / 2); 0; 0]))).
  { apply (constant_channel_run _ _ (1 / 2) (1 / 2) (1 / 2) (1 / 2) (1 / 2));
      [lra|apply process_frame_transient_first; lra
          |apply process_frame_transient_same; lra]. }
  assert (Hr : Upscaler._process_channel
                 (transient_config 0 2 (Some [4 * (1 / 2); 0; 0]))
                 [1; 1; 1; 1; 1] 22050 4 2
               = Ok ([0.95; 0.95; 0.95; 0.95; 0.95],
                     transient_config 0 2 (Some [4 * 1; 0; 0]))).
  { apply (constant_channel_run _ _ 1 2 2 2 2);
      [lra|apply process_frame_transient_boost
          |apply process_frame_transient_same; lra]. }
  split; [reflexivity|]. split; [exact Hl|]. split; [reflexivity|].
  split; [exact Hr|]. split.
  - unfold Upscaler.process_audio. cbn [map fst snd].
    rewrite Hl. cbn [bind]. rewrite Hr. reflexivity.
  - split; [apply process_frame_transient_first; lra
           |apply process_frame_transient_boost].
Qed.

(** ** Frames of a constant channel through two transient enhancers *)

(** A spectrum with all its energy in bin 0, met with a history that has
    less there: the flux of bin 0 is above the mean flux and the bin is
    multiplied by the attack boost. *)
Lemma transient_dc_step (ab a b r : R) :
  a > b -> r = a * ab ->
  TransientEnhancer.process 0 ab (Some [b; 0; 0]) [a; 0; 0] [0; 0; 0]
  = Ok ([r; 0; 0], [0; 0; 0], Some [a; 0; 0]).
Proof.
  intros Hab ->.
  cbn [TransientEnhancer.process Np.broadcast2 length Nat.eqb map2 bind].
  assert (Hmask : TransientEnhancer.transient_mask 0 [a - b; 0 - 0; 0 - 0]
                  = [true; false; false]).
  { unfold TransientEnhancer.transient_mask. cbn [map].
    replace (Rmax 0 (a - b)) with (a - b) by (rewrite Rmax_right; lra).
    replace (Rmax 0 (0 - 0)) with 0 by (rewrite Rmax_left; lra).
    unfold Np.mean, Np.sum. cbn [fold_right length].
    replace (INR 3) with 3 by (simpl; ring).
    rewrite Rgtb_true by lra. rewrite Rgtb_false by lra. reflexivity. }
  rewrite Hmask.
  cbn [map bool_to_R Np.inplace2 length Nat.eqb map2 bind].
  replace (a * (1 + 1 * (ab - 1))) with (a * ab) by ring.
  replace (0 * (1 + 0 * (ab - 1))) with 0 by ring.
  reflexivity.
Qed.

Lemma process_frame_two_transients (ab1 ab2 : R)
      (h1 h2 h1' h2' : option (list R)) (c d : R) (m1 : list R) :
  0 <= c -> 0 <= d ->
  TransientEnhancer.process 0 ab1 h1 [4 * c; 0; 0] [0; 0; 0]
  = Ok (m1, [0; 0; 0], h1') ->
  TransientEnhancer.process 0 ab2 h2 m1 [0; 0; 0]
  = Ok ([4 * d; 0; 0], [0; 0; 0], h2') ->
  Upscaler._process_frame (two_transients_config ab1 ab2 h1 h2) [c; c; c; c]
  = Ok ([d; d; d; d], two_transients_config ab1 ab2 h1' h2').
Proof.
  intros Hc Hd H1 H2. unfold Upscaler._process_frame.
  rewrite (analyze_constant_frame c Hc). cbn [bind].
  change (Upscaler.builtin_stages (two_transients_config ab1 ab2 h1 h2)
            [4 * c; 0; 0])
    with (Upscaler.builtin_stages noop_config [4 * c; 0; 0]).
  rewrite builtin_stages_noop.
  cbn [two_transients_config Upscaler.with_chain enhancer_chain
       apply_enhancer_chain process].
  rewrite H1. cbn [bind]. rewrite H2. cbn [bind].
  rewrite (synthesize_dc_only d Hd). reflexivity.
Qed.

(** The left channel, of halves: the first frame gives both enhancers
    their history, and every later frame is returned as it is. *)
Lemma two_transients_left_first :
  Upscaler._process_frame (two_transients_config (1 / 2) 2 None None)
                          [1 / 2; 1 / 2; 1 / 2; 1 / 2]
  = Ok ([1 / 2; 1 / 2; 1 / 2; 1 / 2],
        two_transients_config (1 / 2) 2 (Some [4 * (1 / 2); 0; 0])
                              (Some [4 * (1 / 2); 0; 0])).
Proof.
  apply (process_frame_two_transients (1 / 2) 2 None None _ _ (1 / 2) (1 / 2)
           [4 * (1 / 2); 0; 0]); [lra|lra|reflexivity|reflexivity].
Qed.

Lemma two_transients_same (c : R) :
  0 <= c ->
  Upscaler._process_frame
    (two_transients_config (1 / 2) 2 (Some [4 * c; 0; 0]) (Some [4 * c; 0; 0]))
    [c; c; c; c]
  = Ok ([c; c; c; c],
        two_transients_config (1 / 2) 2 (Some [4 * c; 0; 0])
                              (Some [4 * c; 0; 0])).
Proof.
  intros Hc.
  apply (process_frame_two_transients (1 / 2) 2 _ _ _ _ c c [4 * c; 0; 0]);
    [exact Hc|exact Hc|apply transient_process_identical
    |apply transient_process_identical].
Qed.

(** The right channel, of ones, met with the history of the left channel:
    the first enhancer halves the first frame, which leaves the second
    enhancer with the history of a frame of halves ... *)
Lemma two_transients_right_first :
  Upscaler._process_frame
    (two_transients_config (1 / 2) 2 (Some [4 * (1 / 2); 0; 0])
                           (Some [4 * (1 / 2); 0; 0]))
    [1; 1; 1; 1]
  = Ok ([1 / 2; 1 / 2; 1 / 2; 1 / 2],
        two_transients_config (1 / 2) 2 (Some [4 * 1; 0; 0])
                              (Some [4 * (1 / 2); 0; 0])).
Proof.
  apply (process_frame_two_transients (1 / 2) 2 _ _ _ _ 1 (1 / 2)
           [4 * (1 / 2); 0; 0]); [lra|lra| |].
  - apply transient_dc_step; lra.
  - apply transient_process_identical.
Qed.

(** ... against which the second enhancer doubles the second frame. *)
Lemma two_transients_right_second :
  Upscaler._process_frame
    (two_transients_config (1 / 2) 2 (Some [4 * 1; 0; 0])
                           (Some [4 * (1 / 2); 0; 0]))
    [1; 1; 1; 1]
  = Ok ([2; 2; 2; 2],
        two_transients_config (1 / 2) 2 (Some [4 * 1; 0; 0])
                              (Some [4 * 1; 0; 0])).
Proof.
  apply (process_frame_two_transients (1 / 2) 2 _ _ _ _ 1 2 [4 * 1; 0; 0]);
    [lra|lra| |].
  - apply transient_process_identical.
  - apply transient_dc_step; lra.
Qed.

(** On a fresh chain the frames of the right channel come back as they
    are. *)
Lemma two_transients_fresh_first :
  Upscaler._process_frame (two_transients_config (1 / 2) 2 None None)
                          [1; 1; 1; 1]
  = Ok ([1; 1; 1; 1],
        two_transients_config (1 / 2) 2 (Some [4 * 1; 0; 0])
                              (Some [4 * 1; 0; 0])).
Proof.
  apply (process_frame_two_transients (1 / 2) 2 None None _ _ 1 1
           [4 * 1; 0; 0]); [lra|lra|reflexivity|reflexivity].
Qed.

(** The frame at offset 0 lies in the padding and is stripped; the frame at
    offset 2, [g0; g1; g2; g3], reaches the first sample of the channel
    with its third sample. *)
Lemma constant_channel_overlap_add_second (self0 self1 self2 : AudioUpscaler)
      (c f0 f1 f2 f3 g0 g1 g2 g3 : R) :
  Upscaler._process_frame self0 [c; c; c; c] = Ok ([f0; f1; f2; f3], self1) ->
  Upscaler._process_frame self1 [c; c; c; c] = Ok ([g0; g1; g2; g3], self2) ->
  Upscaler._process_frame self2 [c; c; c; c] = Ok ([c; c; c; c], self2) ->
  Upscaler.overlap_add self0 [c; c; c; c; c] 4 2
  = Ok ([g2 * (3 / 8); c * (3 / 8); c * (3 / 8); c * (3 / 8); c * (3 / 8)],
        self2).
Proof.
  intros Hfirst Hsecond Hnext. unfold Upscaler.overlap_add.
  assert (Hpad : Upscaler.pad_reflect [c; c; c; c; c] 4
                 = Ok [c; c; c; c; c; c; c; c; c; c; c; c; c]) by reflexivity.
  rewrite Hpad. cbn [bind].
  change (Upscaler.total_frames
            (Z.of_nat (length [c; c; c; c; c; c; c; c; c; c; c; c; c])) 4 2)
    with (Ok 5%Z).
  cbn [bind].
  assert (Hoff : Upscaler.frame_offsets
                   (Z.of_nat (length [c; c; c; c; c; c; c; c; c; c; c; c; c])) 4 2
                 = Ok [0; 2; 4; 6; 8]%Z) by reflexivity.
  rewrite Hoff. cbn [bind Upscaler.frame_loop].
  change (Z.to_nat 4) with 4%nat. rewrite hanning_4.
  remember (3 / 4) as w eqn:Ew. remember 0 as z eqn:Ez.
  cbn [length repeat].
  constant_frame c Hfirst.
  constant_frame c Hsecond.
  do 3 constant_frame c Hnext.
  change (4 / 2)%Z with 2%Z.
  cbn [Upscaler.overlap_normalize Z.eqb bind map].
  match goal with
  | |- context [Py.slice ?l ?i ?j] =>
      let r := eval cbv - [Rplus Rmult Rdiv Rminus IZR] in (Py.slice l i j) in
      change (Py.slice l i j) with r
  end.
  subst w z. f_equal. f_equal. list_eq.
Qed.

Lemma boosted_channel_peak :
  Np.max (map Rabs [2 * (3 / 8); 1 * (3 / 8); 1 * (3 / 8); 1 * (3 / 8);
                    1 * (3 / 8)])
  = Ok (2 * (3 / 8)).
Proof.
  cbn [map Np.max fold_left]. rewrite !Rabs_right by lra.
  rewrite !(Rmax_left (2 * (3 / 8)) (1 * (3 / 8))) by lra. reflexivity.
Qed.

(** The right channel after the left one: its first sample alone is at the
    level 0.95, the others at half of it. *)
Lemma two_transients_right_run (sr : Z) :
  Upscaler._process_channel
    (two_transients_config (1 / 2) 2 (Some [4 * (1 / 2); 0; 0])
                           (Some [4 * (1 / 2); 0; 0]))
    [1; 1; 1; 1; 1] sr 4 2
  = Ok ([0.95; 0.475; 0.475; 0.475; 0.475],
        two_transients_config (1 / 2) 2 (Some [4 * 1; 0; 0])
                              (Some [4 * 1; 0; 0])).
Proof.
  unfold Upscaler._process_channel.
  rewrite (constant_channel_overlap_add_second _ _ _ 1 _ _ _ _ _ _ _ _
             two_transients_right_first two_transients_right_second
             (two_transients_same 1 ltac:(lra))).
  cbn [bind].
  destruct (normalize_level_peak _ _ boosted_channel_peak) as [-> _]; [lra|].
  cbn [bind map]. f_equal. f_equal. list_eq.
Qed.

Lemma two_transients_left_run (sr : Z) :
  Upscaler._process_channel (two_transients_config (1 / 2) 2 None None)
                            [1 / 2; 1 / 2; 1 / 2; 1 / 2; 1 / 2] sr 4 2
  = Ok ([0.95; 0.95; 0.95; 0.95; 0.95],
        two_transients_config (1 / 2) 2 (Some [4 * (1 / 2); 0; 0])
                              (Some [4 * (1 / 2); 0; 0])).
Proof.
  apply (constant_channel_run _ _ (1 / 2) (1 / 2) (1 / 2) (1 / 2) (1 / 2));
    [lra|apply two_transients_left_first|apply two_transients_same; lra].
Qed.

Lemma two_transients_fresh_run (sr : Z) :
  Upscaler._process_channel (two_transients_config (1 / 2) 2 None None)
                            [1; 1; 1; 1; 1] sr 4 2
  = Ok ([0.95; 0.95; 0.95; 0.95; 0.95],
        two_transients_config (1 / 2) 2 (Some [4 * 1; 0; 0])
                              (Some [4 * 1; 0; 0])).
Proof.
  apply (constant_channel_run _ _ 1 1 1 1 1);
    [lra|apply two_transients_fresh_first|apply two_transients_same; lra].
Qed.

(** The same rows with two fresh transient enhancers, of attack boosts 1/2
    and 2: the right column of the output is not what the right channel
    gives on a fresh chain. *)
Lemma stereo_run_two_transients :
  let self := two_transients_config (1 / 2) 2 None None in
  let rows := [(1 / 2, 1); (1 / 2, 1); (1 / 2, 1); (1 / 2, 1); (1 / 2, 1)] in
  Upscaler.process_audio self (Stereo rows) 22050 4 2
  = Ok (Stereo [(0.95, 0.95); (0.95, 0.475); (0.95, 0.475); (0.95, 0.475);
                (0.95, 0.475)],
        two_transients_config (1 / 2) 2 (Some [4 * 1; 0; 0])
                              (Some [4 * 1; 0; 0]))
  /\ Upscaler._process_channel self (map snd rows) 22050 4 2
     = Ok ([0.95; 0.95; 0.95; 0.95; 0.95],
           two_transients_config (1 / 2) 2 (Some [4 * 1; 0; 0])
                                 (Some [4 * 1; 0; 0])).
Proof.
  cbv zeta. split.
  - unfold Upscaler.process_audio. cbn [map fst snd].
    rewrite two_transients_left_run. cbn [bind].
    rewrite two_transients_right_run. reflexivity.
  - apply two_transients_fresh_run.
Qed.

(** C1: the claim fails on the code.  [process_audio] runs the right channel
    on the chain as the left channel left it; nothing resets or re-creates
    an enhancer in between.  At the five rows (1/2, 1), frame size 4 and
    hop 2, with one fresh transient enhancer (sensitivity 0, attack boost
    2): the enhancer has no history before the left run and holds the
    magnitudes [[2; 0; 0]] of the left channel's last frame after it, and
    the first frame of the right run, which a fresh enhancer returns
    unchanged, is doubled against that history.  With two fresh transient
    enhancers (attack boosts 1/2 and 2) the history reaches the output: the
    right column comes back as 0.95, 0.475, 0.475, 0.475, 0.475, where the
    right channel run alone on a fresh chain gives 0.95 five times. *)
Theorem right_run_starts_from_left_history :
  (let self := transient_config 0 2 None in
   let self1 := transient_config 0 2 (Some [4 * (1 / 2); 0; 0]) in
   let self2 := transient_config 0 2 (Some [4 * 1; 0; 0]) in
   let rows := [(1 / 2, 1); (1 / 2, 1); (1 / 2, 1); (1 / 2, 1); (1 / 2, 1)] in
   histories (enhancer_chain self) = [None]
   /\ Upscaler._process_channel self (map fst rows) 22050 4 2
      = Ok ([0.95; 0.95; 0.95; 0.95; 0.95], self1)
   /\ histories (enhancer_chain self1) = [Some [4 * (1 / 2); 0; 0]]
   /\ Upscaler._process_channel self1 (map snd rows) 22050 4 2
      = Ok ([0.95; 0.95; 0.95; 0.95; 0.95], self2)
   /\ Upscaler.process_audio self (Stereo rows) 22050 4 2
      = Ok (Stereo [(0.95, 0.95); (0.95, 0.95); (0.95, 0.95); (0.95, 0.95);
                    (0.95, 0.95)], self2)
   /\ Upscaler._process_frame self [1; 1; 1; 1] = Ok ([1; 1; 1; 1], self2)
   /\ Upscaler._process_frame self1 [1; 1; 1; 1] = Ok ([2; 2; 2; 2], self2))
  /\ (let self := two_transients_config (1 / 2) 2 None None in
      let rows := [(1 / 2, 1); (1 / 2, 1); (1 / 2, 1); (1 / 2, 1);
                   (1 / 2, 1)] in
      Upscaler.process_audio self (Stereo rows) 22050 4 2
      = Ok (Stereo [(0.95, 0.95); (0.95, 0.475); (0.95, 0.475);
                    (0.95, 0.475); (0.95, 0.475)],
            two_transients_config (1 / 2) 2 (Some [4 * 1; 0; 0])
                                  (Some [4 * 1; 0; 0]))
      /\ Upscaler._process_channel self (map snd rows) 22050 4 2
         = Ok ([0.95; 0.95; 0.95; 0.95; 0.95],
               two_transients_config (1 / 2) 2 (Some [4 * 1; 0; 0])
                                     (Some [4 * 1; 0; 0]))).
Proof.
  split; [exact stereo_run_one_transient|exact stereo_run_two_transients].
Qed.

(** * Further properties

    What the code shows beyond the claims of the specification. *)

(** ** Runs used as examples *)

Lemma mono_constant_run (sr : Z) :
  Upscaler.process_audio noop_config (Mono [1; 1; 1; 1; 1]) sr 4 2
  = Ok (Mono [0.95; 0.95; 0.95; 0.95; 0.95], noop_config).
Proof.
  cbn [Upscaler.process_audio].
  rewrite (constant_channel_run noop_config noop_config 1 1 1 1 1 sr);
    [reflexivity|lra|apply noop_constant_frame|apply noop_constant_frame].
Qed.

Lemma stereo_constant_run (sr : Z) :
  Upscaler.process_audio noop_config
    (Stereo [(1, 1); (1, 1); (1, 1); (1, 1); (1, 1)]) sr 4 2
  = Ok (Stereo [(0.95, 0.95); (0.95, 0.95); (0.95, 0.95); (0.95, 0.95);
                (0.95, 0.95)], noop_config).
Proof.
  cbn [Upscaler.process_audio map fst snd].
  rewrite (constant_channel_run noop_config noop_config 1 1 1 1 1 sr);
    [|lra|apply noop_constant_frame|apply noop_constant_frame].
  cbn [bind].
  rewrite (constant_channel_run noop_config noop_config 1 1 1 1 1 sr);
    [|lra|apply noop_constant_frame|apply noop_constant_frame].
  reflexivity.
Qed.

Lemma exciter_on_nonneg (d : R) (fr : R * R) (m p : list R) :
  0 < d -> all_nonneg m ->
  exists m', process (ExciterEnhancer d fr) m p
             = Ok (m', p, ExciterEnhancer d fr).
Proof.
  intros Hd Hm. destruct (exciter_process_nonneg m p Hm d Hd) as (m' & H & _).
  exists m'. cbn [process]. now rewrite H.
Qed.

(** ** Lengths *)

(** ** Lengths through the stages and the enhancers *)

Lemma slice_mul_length (l vals : list R) (start : nat) :
  (start + length vals <= length l)%nat ->
  length (Np.slice_mul l start vals) = length l.
Proof.
  intros H. unfold Np.slice_mul.
  rewrite !length_app, map2_length, !length_firstn, !length_skipn. lia.
Qed.

Lemma slice_map_length (f : R -> R) (l : list R) (start stop : nat) :
  length (Np.slice_map f l start stop) = length l.
Proof.
  unfold Np.slice_map.
  rewrite !length_app, length_map, !length_firstn, !length_skipn. lia.
Qed.

Lemma linspace_length (a b : R) (num : nat) :
  length (Np.linspace a b num) = num.
Proof.
  destruct num as [|[|k]]; try reflexivity.
  unfold Np.linspace. now rewrite length_map, length_seq.
Qed.

Lemma builtin_stages_length (self : AudioUpscaler) (magnitudes : list R) :
  length (Upscaler.builtin_stages self magnitudes) = length magnitudes.
Proof.
  unfold Upscaler.builtin_stages.
  assert (Hn : forall s m, length (Upscaler.noise_floor_reduction s m) = length m).
  { intros s m. unfold Upscaler.noise_floor_reduction.
    destruct (Rgt_dec s 0); [|reflexivity].
    rewrite map2_length, length_map. lia. }
  assert (Hh : forall s m, length (Upscaler.harmonic_enhancement s m) = length m).
  { intros s m. unfold Upscaler.harmonic_enhancement.
    destruct (Rgt_dec s 0); [|reflexivity].
    apply slice_mul_length. rewrite length_map, linspace_length.
    pose proof (Nat.div_mod_eq (length m) 2). lia. }
  assert (Hd : forall s m, length (Upscaler.dynamic_range_enhancement s m) = length m).
  { intros s m. unfold Upscaler.dynamic_range_enhancement.
    destruct (Req_dec_T s 1.0); [reflexivity|apply length_map]. }
  assert (Hc : forall b m, length (Upscaler.clarity_enhancement b m) = length m).
  { intros b m. destruct b; [apply slice_map_length|reflexivity]. }
  unfold Upscaler.intensity_scaling in *.
  now rewrite Hc, Hd, length_map, Hh, Hn.
Qed.

Lemma boost_harmonic_length (hb hd : R) (n f : nat) (l l' : list R)
      (h : nat) :
  length l = n ->
  HarmonicEnhancer.boost_harmonic hb hd n f l h = Ok l' -> length l' = n.
Proof.
  intros Hl. unfold HarmonicEnhancer.boost_harmonic.
  destruct (Nat.ltb_spec (f * h) n) as [Hlt|Hge];
    [|intros H; apply ok_inj in H; now subst l'].
  intros H. apply bind_Ok in H. destruct H as (boost & _ & H).
  apply ok_inj in H. subst l'.
  rewrite slice_mul_length; [exact Hl|].
  rewrite length_map, hanning_length. lia.
Qed.

(** What the harmonic enhancer returns: the magnitudes after the loop, if
    there was a fundamental to start it from, and the phases as they
    were. *)
Lemma harmonic_process_Ok (hb hd : R) (magnitudes phases m p : list R) :
  HarmonicEnhancer.process hb hd magnitudes phases = Ok (m, p) ->
  p = phases
  /\ (m = magnitudes
      \/ exists f,
           Py.for_each (HarmonicEnhancer.boost_harmonic hb hd
                          (length magnitudes) f) (seq 2 6) magnitudes
           = Ok m).
Proof.
  unfold HarmonicEnhancer.process. intros H.
  apply bind_Ok in H. destruct H as (em & Hem & H).
  apply ok_inj in H. injection H as <- <-. split; [reflexivity|].
  destruct (0 <? _)%nat; [|left; apply ok_inj in Hem; now subst em].
  destruct (0 <? _)%nat; [|left; apply ok_inj in Hem; now subst em].
  right. eexists. exact Hem.
Qed.

Lemma harmonic_process_length (hb hd : R) (magnitudes phases m p : list R) :
  HarmonicEnhancer.process hb hd magnitudes phases = Ok (m, p) ->
  length m = length magnitudes.
Proof.
  intros H. apply harmonic_process_Ok in H.
  destruct H as [_ [->|[f H]]]; [reflexivity|].
  refine (for_each_invariant (fun l => length l = length magnitudes)
            _ _ _ _ _ eq_refl H).
  intros a x a' Ha. now apply boost_harmonic_length.
Qed.

Lemma exciter_mask_length (n : nat) : length (ExciterEnhancer.mask n) = n.
Proof.
  unfold ExciterEnhancer.mask. now rewrite slice_map_length, repeat_length.
Qed.

(** Every enhancer returns as many magnitudes and as many phases as it was
    given. *)
Lemma process_lengths (e e' : Enhancer) (m p m' p' : list R) :
  process e m p = Ok (m', p', e') ->
  length m' = length m /\ length p' = length p.
Proof.
  destruct e as [hb hd pp|w fr|d fr|s ab prev]; cbn [process].
  - intros E. apply bind_Ok in E. destruct E as ([m0 p0] & E0 & E).
    injection E as <- <- _.
    split; [exact (harmonic_process_length _ _ _ _ _ _ E0)|].
    apply harmonic_process_Ok in E0. now rewrite (proj1 E0).
  - unfold SpectralWidener.process. intros E; injection E as <- <- _.
    split; [reflexivity|]. rewrite map2_length, linspace_length. lia.
  - unfold ExciterEnhancer.process. destruct m as [|m0 ms].
    + cbn [bind]. intros E; injection E as <- <- _. now split.
    + destruct (Req_dec_T d 0); [discriminate|]. cbn [bind].
      remember (m0 :: ms) as m eqn:Em.
      intros E. injection E as Hm Hp _. subst m' p'. split; [|reflexivity].
      rewrite map2_length, exciter_mask_length, length_map. lia.
  - unfold TransientEnhancer.process. destruct prev as [prev|].
    + destruct (Np.broadcast2 Rminus m prev) as [flux|]; cbn [bind];
        [|discriminate].
      destruct (Np.inplace2 Rmult m _) as [out|] eqn:Eo; cbn [bind];
        [|discriminate].
      intros E; injection E as <- <- _. split; [|reflexivity].
      now apply inplace2_length in Eo.
    + cbn [bind]. intros E; injection E as <- <- _. now split.
Qed.

Lemma chain_lengths (chain : list Enhancer) :
  forall m p m' p' chain',
    apply_enhancer_chain m p chain = Ok (m', p', chain') ->
    length m' = length m /\ length p' = length p
    /\ length chain' = length chain.
Proof.
  induction chain as [|e chain IH]; intros m p m' p' chain' H.
  - injection H as <- <- <-. auto.
  - cbn [apply_enhancer_chain] in H.
    apply bind_Ok in H. destruct H as ([[m1 p1] e1] & He & H).
    apply bind_Ok in H. destruct H as ([[m2 p2] c2] & Hc & H).
    injection H as <- <- <-.
    apply process_lengths in He. apply IH in Hc. cbn [length]. lia.
Qed.

Lemma rfft_length (frame : list R) (bins : list complex) :
  Fft.rfft frame = Ok bins ->
  length bins = (length frame / 2 + 1)%nat /\ frame <> [].
Proof.
  unfold Fft.rfft. destruct frame as [|x frame]; [discriminate|].
  intros H; injection H as <-. rewrite length_map, length_seq.
  split; [reflexivity|discriminate].
Qed.

Lemma irfft_length (s : list complex) (out : list R) :
  Fft.irfft s = Ok out ->
  length out = (2 * (length s - 1))%nat /\ (2 <= length s)%nat.
Proof.
  unfold Fft.irfft. destruct (Nat.leb_spec (length s) 1) as [|Hm];
    [discriminate|].
  intros E; injection E as <-. rewrite length_map, length_seq. lia.
Qed.

(** A processed frame has twice as many samples as the frame has whole
    pairs of samples, and a frame of fewer than two samples is refused. *)
Lemma process_frame_length (self self' : AudioUpscaler) (frame out : list R) :
  Upscaler._process_frame self frame = Ok (out, self') ->
  length out = (2 * (length frame / 2))%nat /\ (2 <= length frame)%nat.
Proof.
  unfold Upscaler._process_frame, Upscaler.analyze. intros H.
  apply bind_Ok in H. destruct H as ([m p] & Ha & H).
  apply bind_Ok in Ha. destruct Ha as (bins & Hb & Ha).
  injection Ha as <- <-.
  apply rfft_length in Hb. destruct Hb as [Hb Hne].
  apply bind_Ok in H. destruct H as ([[m1 p1] c1] & Hc & H).
  apply bind_Ok in H. destruct H as (fr & Hs & H).
  injection H as <- _.
  assert (Hl : length m1 = length bins /\ length p1 = length bins).
  { destruct (enhancer_chain self) as [|e c].
    - injection Hc as <- <- _.
      now rewrite builtin_stages_length, !length_map.
    - apply chain_lengths in Hc.
      rewrite builtin_stages_length, !length_map in Hc. tauto. }
  unfold Upscaler.synthesize in Hs. apply irfft_length in Hs.
  rewrite map2_length, (proj1 Hl), (proj2 Hl), Nat.min_id, Hb in Hs.
  assert (Hpos : (0 < length frame / 2)%nat) by lia.
  split; [lia|].
  destruct (length frame) as [|[|n]]; [cbn in Hpos; lia|cbn in Hpos; lia|lia].
Qed.

(** X11: a frame that [_process_frame] returns has at least two samples, and
    it comes back with 2 * (N // 2) samples: as long as it was when its
    length is even, one sample shorter when it is odd. *)
Theorem frame_comes_back_even (self self' : AudioUpscaler)
        (frame out : list R) :
  Upscaler._process_frame self frame = Ok (out, self') ->
  length out = (2 * (length frame / 2))%nat /\ (2 <= length frame)%nat.
Proof. apply process_frame_length. Qed.

Lemma frame_comes_back_even_witness :
  length [1; 1; 1; 1] = (2 * (length [1; 1; 1; 1] / 2))%nat
  /\ (2 <= length [1; 1; 1; 1])%nat.
Proof.
  exact (frame_comes_back_even noop_config noop_config [1; 1; 1; 1]
           [1; 1; 1; 1] (noop_constant_frame 1)).
Defined.

(** ** What every finished run has in common *)

Lemma normalize_level_bound (acc out : list R) :
  Upscaler.normalize_level acc = Ok out ->
  forall x, In x out -> Rabs x <= 0.95.
Proof.
  intros H x Hx. pose proof H as H0.
  unfold Upscaler.normalize_level in H.
  apply bind_Ok in H. destruct H as (mx & Hmax & H).
  destruct (Rgt_dec mx 0) as [Hgt|Hle].
  - injection H as <-.
    destruct (normalize_level_peak acc mx Hmax Hgt) as [_ Hpeak].
    exact (max_bounds _ _ Hpeak (Rabs x) (in_map Rabs _ _ Hx)).
  - injection H as <-.
    pose proof (max_bounds _ _ Hmax (Rabs x) (in_map Rabs _ _ Hx)). lra.
Qed.

Lemma process_channel_bound (self self' : AudioUpscaler) (ch out : list R)
      (sr fs hop : Z) :
  Upscaler._process_channel self ch sr fs hop = Ok (out, self') ->
  forall x, In x out -> Rabs x <= 0.95.
Proof.
  unfold Upscaler._process_channel. intros H.
  apply bind_Ok in H. destruct H as ([acc s1] & _ & H).
  apply bind_Ok in H. destruct H as (lev & Hlev & H).
  injection H as <- _. now apply (normalize_level_bound acc).
Qed.

Lemma process_audio_inv (self self' : AudioUpscaler) (a a' : audio)
      (sr fs hop : Z) :
  Upscaler.process_audio self a sr fs hop = Ok (a', self') ->
  match a with
  | Mono samples =>
      exists out,
        a' = Mono out
        /\ Upscaler._process_channel self samples sr fs hop = Ok (out, self')
  | Stereo rows =>
      exists l s1 r,
        a' = Stereo (combine l r)
        /\ Upscaler._process_channel self (map fst rows) sr fs hop = Ok (l, s1)
        /\ Upscaler._process_channel s1 (map snd rows) sr fs hop = Ok (r, self')
        /\ length l = length rows /\ length r = length rows
  end.
Proof.
  destruct a as [samples|rows]; unfold Upscaler.process_audio; intros H.
  - apply bind_Ok in H. destruct H as ([out s1] & Hrun & H).
    injection H as <- <-. now exists out.
  - apply bind_Ok in H. destruct H as ([l s1] & Hl & H).
    apply bind_Ok in H. destruct H as ([r s2] & Hr & H).
    apply bind_Ok in H. destruct H as (st & Hst & H).
    injection H as <- <-.
    unfold Upscaler.column_stack in Hst.
    destruct (length l =? length r)%nat; [|discriminate].
    injection Hst as <-.
    exists l, s1, r.
    pose proof (process_channel_length _ _ _ _ _ _ _ Hl) as Ll.
    pose proof (process_channel_length _ _ _ _ _ _ _ Hr) as Lr.
    rewrite length_map in Ll, Lr. auto.
Qed.

Lemma process_audio_bound (self self' : AudioUpscaler)
      (audio_data enhanced : audio) (sr frame_size hop : Z) :
  Upscaler.process_audio self audio_data sr frame_size hop
  = Ok (enhanced, self') ->
  forall x, In x (samples_of enhanced) -> Rabs x <= 0.95.
Proof.
  destruct audio_data as [samples|rows]; intros H x Hx.
  - apply process_audio_inv in H. destruct H as (out & -> & Hrun).
    cbn [samples_of] in Hx.
    now apply (process_channel_bound _ _ _ _ _ _ _ Hrun).
  - apply process_audio_inv in H.
    destruct H as (l & s1 & r & -> & Hl & Hr & _ & _).
    cbn [samples_of] in Hx. apply in_app_or in Hx.
    destruct Hx as [Hx|Hx]; apply in_map_iff in Hx;
      destruct Hx as ([a b] & <- & Hin); cbn [fst snd].
    + apply in_combine_l in Hin.
      now apply (process_channel_bound _ _ _ _ _ _ _ Hl).
    + apply in_combine_r in Hin.
      now apply (process_channel_bound _ _ _ _ _ _ _ Hr).
Qed.

(** X2: a run of [process_audio] that returns keeps the shape of its input:
    one column for one column, two columns for two, and as many rows. *)
Theorem process_audio_keeps_shape (self self' : AudioUpscaler)
        (audio_data enhanced : audio) (sr frame_size hop : Z) :
  Upscaler.process_audio self audio_data sr frame_size hop
  = Ok (enhanced, self') ->
  is_stereo enhanced = is_stereo audio_data
  /\ rows_of enhanced = rows_of audio_data.
Proof.
  intros H. apply process_audio_inv in H.
  destruct audio_data as [samples|rows].
  - destruct H as (out & -> & Hrun). split; [reflexivity|].
    cbn [rows_of]. now apply process_channel_length in Hrun.
  - destruct H as (l & s1 & r & -> & _ & _ & Ll & Lr). split; [reflexivity|].
    cbn [rows_of]. rewrite length_combine. lia.
Qed.

Lemma process_audio_keeps_shape_witness :
  is_stereo (Mono [0.95; 0.95; 0.95; 0.95; 0.95])
  = is_stereo (Mono [1; 1; 1; 1; 1])
  /\ rows_of (Mono [0.95; 0.95; 0.95; 0.95; 0.95])
     = rows_of (Mono [1; 1; 1; 1; 1]).
Proof.
  exact (process_audio_keeps_shape noop_config noop_config
           (Mono [1; 1; 1; 1; 1]) (Mono [0.95; 0.95; 0.95; 0.95; 0.95])
           22050 4 2 (mono_constant_run 22050)).
Defined.

(** ** Sizes with which no run finishes *)

Lemma range_nonempty (stop step : Z) (l : list Z) :
  (0 < step)%Z -> (0 < stop)%Z -> Py.range 0 stop step = Ok l ->
  exists rest, l = 0%Z :: rest.
Proof.
  intros Hstep Hstop H.
  assert (Hin : In 0%Z l).
  { apply (range_positive_step stop step l 0 Hstep H).
    rewrite Z.mod_0_l by lia. lia. }
  unfold Py.range in H. destruct (step =? 0)%Z; [discriminate|].
  injection H as <-.
  destruct (Py.range_len 0 stop step) as [|k]; [destruct Hin|].
  cbn [seq map]. eexists. reflexivity.
Qed.

Lemma frame_loop_first (self : AudioUpscaler) (padded buf : list R)
      (fs : Z) (rest : list Z) (out : list R) (self' : AudioUpscaler) :
  Upscaler.frame_loop self padded fs (0%Z :: rest) buf = Ok (out, self') ->
  exists frame self1 windowed,
    Upscaler._process_frame self (Py.slice padded 0 (0 + fs))
    = Ok (frame, self1)
    /\ Np.broadcast2 Rmult frame (Np.hanning (Z.to_nat fs)) = Ok windowed.
Proof.
  cbn [Upscaler.frame_loop]. intros H.
  apply bind_Ok in H. destruct H as ([frame self1] & Hf & H).
  apply bind_Ok in H. destruct H as (windowed & Hw & _).
  now exists frame, self1, windowed.
Qed.

Lemma broadcast2_Ok_lengths (op : R -> R -> R) (xs ys out : list R) :
  Np.broadcast2 op xs ys = Ok out ->
  length xs = length ys \/ length xs = 1%nat \/ length ys = 1%nat.
Proof.
  unfold Np.broadcast2.
  destruct (Nat.eqb_spec (length xs) (length ys)); [auto|].
  destruct xs as [|x [|x' xs]]; destruct ys as [|y [|y' ys]];
    cbn [length]; intros H; try discriminate; auto.
Qed.

(** X4: a run of [_process_channel] that returns was given a channel that is
    not empty, a frame size above zero and a hop that is not zero; with a
    hop above zero the frame size is even.  (Every other choice of these
    sizes raises: the padding, the count of the frames, the transform of a
    frame, the window or the final maximum.) *)
Theorem finished_run_had_sound_sizes (self self' : AudioUpscaler)
        (channel out : list R) (sr frame_size hop : Z) :
  Upscaler._process_channel self channel sr frame_size hop = Ok (out, self') ->
  channel <> []
  /\ (0 < frame_size)%Z
  /\ hop <> 0%Z
  /\ ((0 < hop)%Z -> Z.even frame_size = true).
Proof.
  unfold Upscaler._process_channel. intros H.
  apply bind_Ok in H. destruct H as ([acc s1] & Hacc & H).
  apply bind_Ok in H. destruct H as (lev & Hlev & _).
  assert (Hne : channel <> []).
  { intros ->. apply overlap_add_length in Hacc.
    destruct acc; [|discriminate]. discriminate Hlev. }
  assert (Hfs : (0 < frame_size)%Z).
  { destruct (Z.lt_trichotomy frame_size 0) as [Hneg|[->|Hpos]]; [| |exact Hpos].
    - unfold Upscaler.overlap_add, Upscaler.pad_reflect in Hacc.
      destruct (Z.ltb_spec frame_size 0); [discriminate|lia].
    - apply zero_frame_size_fails in Hacc. contradiction. }
  split; [exact Hne|]. split; [exact Hfs|].
  unfold Upscaler.overlap_add in Hacc.
  apply bind_Ok in Hacc. destruct Hacc as (padded & Hpad & Hacc).
  pose proof (pad_reflect_length _ _ _ Hpad) as Hlen.
  apply bind_Ok in Hacc. destruct Hacc as (total & Htot & Hacc).
  apply bind_Ok in Hacc. destruct Hacc as (offsets & Hoff & Hacc).
  apply bind_Ok in Hacc. destruct Hacc as ([buf s2] & Hloop & Hacc).
  apply bind_Ok in Hacc. destruct Hacc as (buf2 & Hnorm & _).
  assert (Hhop : hop <> 0%Z).
  { unfold Upscaler.total_frames in Htot.
    destruct (Z.eqb_spec hop 0); [discriminate|assumption]. }
  split; [exact Hhop|]. intros Hpos.
  unfold Upscaler.frame_offsets in Hoff.
  assert (Hstop : (0 < Z.of_nat (length padded) - frame_size)%Z) by lia.
  destruct (range_nonempty _ _ _ Hpos Hstop Hoff) as [rest ->].
  apply frame_loop_first in Hloop.
  destruct Hloop as (frame & self1 & windowed & Hframe & Hwin).
  apply process_frame_length in Hframe.
  rewrite frame_of_padded in Hframe by lia.
  apply broadcast2_Ok_lengths in Hwin.
  rewrite hanning_length, (proj1 Hframe) in Hwin.
  destruct Hframe as [_ H2].
  destruct (Z.even frame_size) eqn:Ev; [reflexivity|exfalso].
  assert (Hodd : Z.odd frame_size = true)
    by (rewrite <- Z.negb_even, Ev; reflexivity).
  apply Z.odd_spec in Hodd. destruct Hodd as [k Hk].
  assert (Hn : Z.to_nat frame_size = (2 * Z.to_nat k + 1)%nat) by lia.
  rewrite Hn in Hwin, H2. lia.
Qed.

Lemma finished_run_had_sound_sizes_witness :
  [1; 1; 1; 1; 1] <> []
  /\ (0 < 4)%Z
  /\ 2%Z <> 0%Z
  /\ ((0 < 2)%Z -> Z.even 4 = true).
Proof.
  exact (finished_run_had_sound_sizes noop_config noop_config [1; 1; 1; 1; 1]
           [0.95; 0.95; 0.95; 0.95; 0.95] 22050 4 2
           (constant_channel_run noop_config noop_config 1 1 1 1 1 22050
              ltac:(lra) (noop_constant_frame 1) (noop_constant_frame 1))).
Defined.

(** X5: with a frame size above zero, an empty channel raises ValueError
    (there is nothing to reflect into the padding), and on a channel that is
    not empty a hop of zero raises ZeroDivisionError (at the count of the
    frames). *)
Theorem empty_channel_and_zero_hop_raise (self : AudioUpscaler)
        (channel : list R) (sr frame_size hop : Z) :
  (0 < frame_size)%Z -> channel <> [] ->
  Upscaler._process_channel self [] sr frame_size hop = Raise ValueError
  /\ Upscaler._process_channel self channel sr frame_size 0
     = Raise ZeroDivisionError.
Proof.
  intros Hpos Hne. split.
  - unfold Upscaler._process_channel, Upscaler.overlap_add,
      Upscaler.pad_reflect.
    destruct (Z.ltb_spec frame_size 0); [reflexivity|].
    destruct (Z.eqb_spec frame_size 0); [lia|reflexivity].
  - destruct (pad_reflect_returns channel frame_size Hne
                (Z.lt_le_incl _ _ Hpos)) as [padded Hpad].
    unfold Upscaler._process_channel, Upscaler.overlap_add.
    rewrite Hpad. reflexivity.
Qed.

Lemma empty_channel_and_zero_hop_raise_witness :
  Upscaler._process_channel noop_config [] 22050 4 2 = Raise ValueError
  /\ Upscaler._process_channel noop_config [1; 2; 3] 22050 4 0
     = Raise ZeroDivisionError.
Proof.
  apply (empty_channel_and_zero_hop_raise noop_config [1; 2; 3] 22050 4 2);
    [lia|discriminate].
Defined.

(** ** The frames of the loop *)

Lemma range_len_positive_step (stop step : Z) :
  (0 < step)%Z ->
  Z.of_nat (Py.range_len 0 stop step) = Z.max 0 ((stop + step - 1) / step).
Proof.
  intros Hs. unfold Py.range_len.
  destruct (Z.ltb_spec 0 step); [|lia].
  rewrite Z.sub_0_r. lia.
Qed.

(** X6: with a hop above zero the loop visits, in rising order and each
    once, the offsets 0, hop, 2 * hop, ...: exactly the multiples of the hop
    from which more than one frame is left before the end of the padded
    channel, as many as the rounded-up quotient says; and every frame it
    cuts has the full frame size. *)
Theorem every_frame_is_full (padded : list R) (frame_size hop : Z)
        (offsets : list Z) :
  (0 < hop)%Z -> (0 <= frame_size)%Z ->
  Upscaler.frame_offsets (Z.of_nat (length padded)) frame_size hop
  = Ok offsets ->
  offsets = map (fun k => Z.of_nat k * hop)%Z (seq 0 (length offsets))
  /\ (forall i, In i offsets
                <-> (0 <= i < Z.of_nat (length padded) - frame_size
                     /\ i mod hop = 0)%Z)
  /\ Z.of_nat (length offsets)
     = Z.max 0 ((Z.of_nat (length padded) - frame_size + hop - 1) / hop)
  /\ Forall (fun i => length (Py.slice padded i (i + frame_size))
                      = Z.to_nat frame_size) offsets.
Proof.
  intros Hhop Hfs Hoff. split; [|split; [|split]].
  - unfold Upscaler.frame_offsets, Py.range in Hoff.
    destruct (hop =? 0)%Z; [discriminate|]. apply ok_inj in Hoff.
    subst offsets. rewrite length_map, length_seq.
    apply map_ext. intros k. lia.
  - intros i.
    rewrite (range_positive_step _ _ _ i Hhop Hoff). lia.
  - unfold Upscaler.frame_offsets, Py.range in Hoff.
    destruct (hop =? 0)%Z; [discriminate|]. injection Hoff as <-.
    rewrite length_map, length_seq. now apply range_len_positive_step.
  - apply Forall_forall. intros i Hi.
    apply (range_positive_step _ _ _ i Hhop Hoff) in Hi.
    apply frame_of_padded; lia.
Qed.

Lemma every_frame_is_full_witness :
  [0; 2; 4]%Z = map (fun k => Z.of_nat k * 2)%Z (seq 0 (length [0; 2; 4]%Z))
  /\ (forall i, In i [0; 2; 4]%Z
                <-> (0 <= i < Z.of_nat (length [1; 2; 3; 4; 5; 6; 7; 8; 9; 10])
                                - 4
                     /\ i mod 2 = 0)%Z)
  /\ Z.of_nat (length [0; 2; 4]%Z)
     = Z.max 0 ((Z.of_nat (length [1; 2; 3; 4; 5; 6; 7; 8; 9; 10])
                 - 4 + 2 - 1) / 2)
  /\ Forall (fun i => length (Py.slice [1; 2; 3; 4; 5; 6; 7; 8; 9; 10] i
                                       (i + 4))
                      = Z.to_nat 4) [0; 2; 4]%Z.
Proof.
  apply (every_frame_is_full [1; 2; 3; 4; 5; 6; 7; 8; 9; 10] 4 2
           [0; 2; 4]%Z); [lia|lia|reflexivity].
Defined.

(** ** Padding and its removal *)

(** X7: a channel that is not empty can be padded by reflection with any
    pad above zero, the padded channel is longer by twice the pad, and
    stripping [pad] samples at both ends, as [enhanced_audio[pad_length:
    -pad_length]] does, gives the channel back. *)
Theorem unpad_undoes_pad (channel : list R) (pad : Z) :
  channel <> [] -> (0 < pad)%Z ->
  exists padded,
    Upscaler.pad_reflect channel pad = Ok padded
    /\ Z.of_nat (length padded) = (Z.of_nat (length channel) + 2 * pad)%Z
    /\ Py.slice padded pad (- pad) = channel.
Proof. apply pad_reflect_unpad. Qed.

Lemma unpad_undoes_pad_witness :
  exists padded,
    Upscaler.pad_reflect [1; 2; 3] 2 = Ok padded
    /\ Z.of_nat (length padded) = (Z.of_nat (length [1; 2; 3]) + 2 * 2)%Z
    /\ Py.slice padded 2 (- 2) = [1; 2; 3].
Proof.
  apply (unpad_undoes_pad [1; 2; 3] 2); [discriminate|lia].
Defined.

(** ** Silence *)

Lemma silent_firstn (n : nat) (l : list R) : silent l -> silent (firstn n l).
Proof.
  unfold silent. revert l; induction n as [|n IH]; intros [|x l] H; simpl;
    auto. inversion H; subst. constructor; auto.
Qed.

Lemma silent_skipn (n : nat) (l : list R) : silent l -> silent (skipn n l).
Proof.
  unfold silent. revert l; induction n as [|n IH]; intros [|x l] H; simpl;
    auto. inversion H; subst. auto.
Qed.

Lemma silent_app (l r : list R) : silent l -> silent r -> silent (l ++ r).
Proof. intros Hl Hr. apply Forall_app. now split. Qed.

Lemma silent_map2_l {B : Type} (op : R -> B -> R) (xs : list R)
      (ys : list B) :
  (forall y, op 0 y = 0) -> silent xs -> silent (map2 op xs ys).
Proof.
  intros Hop Hx. revert ys. induction Hx as [|x xs -> Hx IH];
    intros [|y ys]; simpl; try constructor.
  - apply Hop.
  - apply IH.
Qed.

Lemma silent_map (f : R -> R) (l : list R) :
  f 0 = 0 -> silent l -> silent (map f l).
Proof.
  intros Hf Hl. apply Forall_map. eapply Forall_impl; [|exact Hl].
  intros x ->. exact Hf.
Qed.

Lemma silent_repeat (n : nat) : silent (repeat 0 n).
Proof. apply Forall_forall. intros x Hx. now apply repeat_spec in Hx. Qed.

Lemma silent_nth (l : list R) (i : nat) (d : R) :
  silent l -> d = 0 -> nth i l d = 0.
Proof.
  intros Hl ->. revert i. induction Hl as [|x l -> Hl IH]; intros [|i];
    simpl; auto.
Qed.

Lemma silent_slice (l : list R) (a b : Z) : silent l -> silent (Py.slice l a b).
Proof. intros H. unfold Py.slice. now apply silent_firstn, silent_skipn. Qed.

Lemma silent_slice_mul (l vals : list R) (start : nat) :
  silent l -> silent (Np.slice_mul l start vals).
Proof.
  intros H. unfold Np.slice_mul. repeat apply silent_app.
  - now apply silent_firstn.
  - apply silent_map2_l; [intros; ring|].
    now apply silent_firstn, silent_skipn.
  - now apply silent_skipn.
Qed.

Lemma silent_slice_map (f : R -> R) (l : list R) (a b : nat) :
  f 0 = 0 -> silent l -> silent (Np.slice_map f l a b).
Proof.
  intros Hf H. unfold Np.slice_map. repeat apply silent_app.
  - now apply silent_firstn.
  - apply silent_map; [exact Hf|]. now apply silent_firstn, silent_skipn.
  - now apply silent_skipn.
Qed.

Lemma sum_silent (l : list R) : silent l -> Np.sum l = 0.
Proof.
  intros H. induction H as [|x l -> H IH]; simpl; [reflexivity|].
  rewrite IH. ring.
Qed.

Lemma mean_silent (l : list R) : silent l -> Np.mean l = 0.
Proof.
  intros H. unfold Np.mean. rewrite (sum_silent l H). unfold Rdiv. ring.
Qed.

Lemma builtin_stages_silent (self : AudioUpscaler) (m : list R) :
  silent m -> silent (Upscaler.builtin_stages self m).
Proof.
  intros H. unfold Upscaler.builtin_stages.
  assert (Hn : silent (Upscaler.noise_floor_reduction (noise_reduction self) m)).
  { unfold Upscaler.noise_floor_reduction.
    destruct (Rgt_dec _ 0); [|exact H].
    apply silent_map2_l; [intros; ring|exact H]. }
  assert (Hh : silent (Upscaler.harmonic_enhancement (harmonics_boost self)
                         (Upscaler.noise_floor_reduction (noise_reduction self) m))).
  { unfold Upscaler.harmonic_enhancement.
    destruct (Rgt_dec _ 0); [|exact Hn]. now apply silent_slice_mul. }
  assert (Hi : silent (Upscaler.intensity_scaling (intensity self)
                 (Upscaler.harmonic_enhancement (harmonics_boost self)
                    (Upscaler.noise_floor_reduction (noise_reduction self) m)))).
  { apply silent_map; [ring|exact Hh]. }
  set (mi := Upscaler.intensity_scaling _ _) in *.
  assert (Hd : silent (Upscaler.dynamic_range_enhancement (dynamic_boost self) mi)).
  { unfold Upscaler.dynamic_range_enhancement.
    destruct (Req_dec_T _ 1.0); [exact Hi|].
    rewrite (mean_silent mi Hi).
    apply silent_map; [|exact Hi].
    replace (0 + (0 - 0) * dynamic_boost self) with 0 by ring.
    apply Rmax_left. lra. }
  unfold Upscaler.clarity_enhancement.
  destruct (clarity_enhance self); [|exact Hd].
  apply silent_slice_map; [ring|exact Hd].
Qed.

Lemma tanh_0 : tanh 0 = 0.
Proof. unfold tanh, sinh. rewrite Ropp_0, exp_0. unfold Rdiv. ring. Qed.

Lemma inplace2_silent (op : R -> R -> R) (xs ys out : list R) :
  (forall y, op 0 y = 0) -> silent xs ->
  Np.inplace2 op xs ys = Ok out -> silent out.
Proof.
  intros Hop Hx. unfold Np.inplace2.
  destruct (length xs =? length ys)%nat.
  - intros E; injection E as <-. now apply silent_map2_l.
  - destruct ys as [|y [|y' ys]]; try discriminate.
    intros E; injection E as <-.
    apply Forall_map. eapply Forall_impl; [|exact Hx]. intros x ->. apply Hop.
Qed.

Lemma harmonic_process_silent (hb hd : R) (m p m' p' : list R) :
  silent m -> HarmonicEnhancer.process hb hd m p = Ok (m', p') -> silent m'.
Proof.
  intros Hm H. apply harmonic_process_Ok in H.
  destruct H as [_ [->|[f H]]]; [exact Hm|].
  refine (for_each_invariant silent _ _ _ _ _ Hm H).
  intros l h l' Hl. unfold HarmonicEnhancer.boost_harmonic.
  destruct (f * h <? length m)%nat;
    [|intros E; apply ok_inj in E; now subst l'].
  intros E. apply bind_Ok in E. destruct E as (boost & _ & E).
  apply ok_inj in E. subst l'. now apply silent_slice_mul.
Qed.

Lemma process_silent (e e' : Enhancer) (m p m' p' : list R) :
  silent m -> process e m p = Ok (m', p', e') -> silent m'.
Proof.
  intros Hm. destruct e as [hb hd pp|w fr|d fr|s ab prev]; cbn [process].
  - intros E. apply bind_Ok in E. destruct E as ([a b] & E0 & E).
    injection E as <- _ _.
    exact (harmonic_process_silent hb hd m p a b Hm E0).
  - unfold SpectralWidener.process. intros E; injection E as <- _ _. exact Hm.
  - unfold ExciterEnhancer.process. destruct m as [|m0 ms].
    + cbn [bind]. intros E; injection E as <- _ _. constructor.
    + destruct (Req_dec_T d 0); [discriminate|]. cbn [bind].
      remember (m0 :: ms) as m eqn:Em.
      intros E; injection E as Hm' _ _. subst m'.
      apply silent_map2_l; [intros; ring|].
      apply silent_map; [|exact Hm].
      rewrite Rmult_0_l, tanh_0. unfold Rdiv. ring.
  - unfold TransientEnhancer.process. destruct prev as [prev|].
    + destruct (Np.broadcast2 Rminus m prev) as [flux|]; cbn [bind];
        [|discriminate].
      destruct (Np.inplace2 Rmult m _) as [out|] eqn:Eo; cbn [bind];
        [|discriminate].
      intros E; injection E as <- _ _.
      eapply inplace2_silent; [|exact Hm|exact Eo]. intros; ring.
    + cbn [bind]. intros E; injection E as <- _ _. exact Hm.
Qed.

Lemma chain_silent (chain : list Enhancer) :
  forall m p m' p' chain',
    silent m -> apply_enhancer_chain m p chain = Ok (m', p', chain') ->
    silent m'.
Proof.
  induction chain as [|e chain IH]; intros m p m' p' chain' Hm H.
  - injection H as <- _ _. exact Hm.
  - cbn [apply_enhancer_chain] in H.
    apply bind_Ok in H. destruct H as ([[m1 p1] e1] & He & H).
    apply bind_Ok in H. destruct H as ([[m2 p2] c2] & Hc & H).
    injection H as <- _ _.
    eapply IH; [|exact Hc]. eapply process_silent; [exact Hm|exact He].
Qed.

Lemma rfft_bin_silent (a : list R) (k : nat) :
  silent a -> Fft.rfft_bin a k = (0, - 0).
Proof.
  intros Ha. unfold Fft.rfft_bin.
  rewrite !big_sum_zero; [reflexivity| |];
    intros i _; rewrite (silent_nth a i 0 Ha eq_refl); ring.
Qed.

Lemma analyze_silent (frame m p : list R) :
  silent frame -> Upscaler.analyze frame = Ok (m, p) -> silent m.
Proof.
  intros Hf. unfold Upscaler.analyze, Fft.rfft.
  destruct frame as [|x frame]; [discriminate|]. cbn [bind].
  intros E; injection E as <- _.
  rewrite map_map. apply Forall_map, Forall_forall. intros k _.
  rewrite (rfft_bin_silent _ k Hf). unfold Fft.abs. cbn [fst snd].
  replace (0 * 0 + - 0 * - 0) with 0 by ring. apply sqrt_0.
Qed.

Lemma synthesize_silent (m p out : list R) :
  silent m -> Upscaler.synthesize m p = Ok out -> silent out.
Proof.
  intros Hm. unfold Upscaler.synthesize, Fft.irfft.
  set (s := map2 Fft.polar m p).
  assert (Hs : forall k, nth k s (0, 0) = (0, 0) \/ exists ph,
                 nth k s (0, 0) = (0 * cos ph, 0 * sin ph)).
  { subst s. revert p. induction Hm as [|x m -> Hm IH]; intros [|ph p] k;
      simpl; try (destruct k; now left).
    destruct k as [|k]; [right; now exists ph|apply IH]. }
  assert (Hz : forall k, fst (nth k s (0, 0)) = 0 /\ snd (nth k s (0, 0)) = 0).
  { intros k. destruct (Hs k) as [->|[ph ->]]; cbn [fst snd]; split; ring. }
  destruct (length s <=? 1)%nat; [discriminate|].
  intros E; injection E as <-.
  apply Forall_map, Forall_forall. intros j _.
  unfold Fft.irfft_sample.
  rewrite (proj1 (Hz 0%nat)), (proj1 (Hz (length s - 1)%nat)).
  rewrite big_sum_zero.
  - unfold Rdiv. ring.
  - intros i _. cbv zeta.
    rewrite (proj1 (Hz (S i))), (proj2 (Hz (S i))). ring.
Qed.

Lemma process_frame_silent (self self' : AudioUpscaler) (frame out : list R) :
  silent frame ->
  Upscaler._process_frame self frame = Ok (out, self') -> silent out.
Proof.
  intros Hf. unfold Upscaler._process_frame. intros H.
  apply bind_Ok in H. destruct H as ([m p] & Ha & H).
  apply analyze_silent in Ha; [|exact Hf].
  apply bind_Ok in H. destruct H as ([[m1 p1] c1] & Hc & H).
  apply bind_Ok in H. destruct H as (fr & Hs & H).
  injection H as <- _.
  assert (Hm1 : silent m1).
  { pose proof (builtin_stages_silent self m Ha) as Hb.
    destruct (enhancer_chain self) as [|e c].
    - injection Hc as <- _ _. exact Hb.
    - eapply chain_silent; [exact Hb|exact Hc]. }
  eapply synthesize_silent; [exact Hm1|exact Hs].
Qed.

Lemma broadcast2_mul_silent (xs ys out : list R) :
  silent xs -> Np.broadcast2 Rmult xs ys = Ok out -> silent out.
Proof.
  intros Hx. unfold Np.broadcast2.
  destruct (length xs =? length ys)%nat.
  { intros E; injection E as <-. apply silent_map2_l; [intros; ring|exact Hx]. }
  destruct xs as [|x [|x' xs]].
  - destruct ys as [|y [|y' ys]]; try discriminate.
    intros E; injection E as <-. constructor.
  - intros E; injection E as <-. inversion Hx; subst.
    apply Forall_map, Forall_forall. intros z _. ring.
  - destruct ys as [|y [|y' ys]]; try discriminate.
    intros E; injection E as <-.
    exact (silent_map (fun x => x * y) _ (Rmult_0_l y) Hx).
Qed.

Lemma silent_map2 (op : R -> R -> R) (xs ys : list R) :
  op 0 0 = 0 -> silent xs -> silent ys -> silent (map2 op xs ys).
Proof.
  intros Hop Hx. revert ys. induction Hx as [|x xs -> Hx IH];
    intros [|y ys] Hy; simpl; try constructor.
  - inversion Hy; subst. exact Hop.
  - inversion Hy; subst. now apply IH.
Qed.

Lemma slice_iadd_silent (buf vals out : list R) (a b : Z) :
  silent buf -> silent vals ->
  Upscaler.slice_iadd buf a b vals = Ok out -> silent out.
Proof.
  intros Hb Hv. unfold Upscaler.slice_iadd. intros H.
  apply bind_Ok in H. destruct H as (upd & Hu & H). injection H as <-.
  repeat apply silent_app.
  - now apply silent_firstn.
  - unfold Np.inplace2 in Hu.
    destruct (length (Py.slice buf a b) =? length vals)%nat.
    + injection Hu as <-.
      apply silent_map2; [ring|now apply silent_slice|exact Hv].
    + destruct vals as [|y [|y' vals]]; try discriminate.
      injection Hu as <-. inversion Hv; subst.
      apply silent_map; [ring|now apply silent_slice].
  - now apply silent_skipn.
Qed.

Lemma frame_loop_silent (padded : list R) (frame_size : Z) (offsets : list Z) :
  silent padded ->
  forall self buf out self',
    silent buf ->
    Upscaler.frame_loop self padded frame_size offsets buf = Ok (out, self') ->
    silent out.
Proof.
  intros Hp. induction offsets as [|i rest IH]; intros self buf out self' Hb H.
  - injection H as <- _. exact Hb.
  - cbn [Upscaler.frame_loop] in H.
    apply bind_Ok in H. destruct H as ([fr s1] & Hf & H).
    apply bind_Ok in H. destruct H as (w & Hw & H).
    apply bind_Ok in H. destruct H as (buf' & Hi & H).
    eapply IH; [|exact H].
    eapply slice_iadd_silent; [exact Hb| |exact Hi].
    eapply broadcast2_mul_silent; [|exact Hw].
    eapply process_frame_silent; [|exact Hf]. now apply silent_slice.
Qed.

Lemma pad_reflect_silent (channel padded : list R) (pad : Z) :
  silent channel -> Upscaler.pad_reflect channel pad = Ok padded ->
  silent padded.
Proof.
  intros Hc H.
  destruct (Z.ltb_spec pad 0) as [Hneg|Hpos].
  { unfold Upscaler.pad_reflect in H.
    destruct (Z.ltb_spec pad 0); [discriminate|lia]. }
  destruct (list_eq_dec Req_dec_T channel []) as [->|Hne].
  { unfold Upscaler.pad_reflect in H.
    destruct (pad <? 0)%Z; [discriminate|].
    destruct (pad =? 0)%Z; [|discriminate]. injection H as <-. constructor. }
  rewrite (pad_reflect_value channel pad Hne Hpos) in H. injection H as <-.
  apply Forall_map, Forall_forall. intros i _.
  apply silent_nth; [exact Hc|].
  destruct channel as [|x0 channel]; [contradiction|]. now inversion Hc.
Qed.

Lemma max_abs_silent (l : list R) (mx : R) :
  silent l -> Np.max (map Rabs l) = Ok mx -> mx = 0.
Proof.
  intros Hl. destruct l as [|x l]; [discriminate|].
  cbn [map Np.max]. intros E; injection E as <-.
  inversion Hl as [|? ? Hx Hl']; subst. rewrite Rabs_R0.
  clear Hl. induction Hl' as [|y l -> Hl' IH]; simpl; [reflexivity|].
  rewrite Rabs_R0. rewrite Rmax_left by lra. exact IH.
Qed.

Lemma overlap_add_silent (self self' : AudioUpscaler) (channel out : list R)
      (frame_size hop : Z) :
  silent channel ->
  Upscaler.overlap_add self channel frame_size hop = Ok (out, self') ->
  silent out.
Proof.
  intros Hc. unfold Upscaler.overlap_add. intros H.
  apply bind_Ok in H. destruct H as (padded & Hp & H).
  apply bind_Ok in H. destruct H as (total & Ht & H).
  apply bind_Ok in H. destruct H as (offsets & Ho & H).
  apply bind_Ok in H. destruct H as ([buf s1] & Hl & H).
  apply bind_Ok in H. destruct H as (nrm & Hn & H).
  injection H as <- _.
  apply silent_slice.
  assert (Hb : silent buf).
  { eapply frame_loop_silent; [|apply silent_repeat|exact Hl].
    eapply pad_reflect_silent; [exact Hc|exact Hp]. }
  unfold Upscaler.overlap_normalize in Hn.
  destruct buf as [|b buf]; [injection Hn as <-; constructor|].
  destruct (frame_size / hop =? 0)%Z; [discriminate|].
  injection Hn as <-.
  refine (silent_map (fun x => x / IZR (frame_size / hop)) _ _ Hb).
  unfold Rdiv. ring.
Qed.

Lemma process_channel_silent (self self' : AudioUpscaler)
      (channel out : list R) (sr frame_size hop : Z) :
  silent channel ->
  Upscaler._process_channel self channel sr frame_size hop = Ok (out, self') ->
  silent out.
Proof.
  intros Hc. unfold Upscaler._process_channel. intros H.
  apply bind_Ok in H. destruct H as ([ola s1] & Ho & H).
  apply bind_Ok in H. destruct H as (nrm & Hn & H).
  injection H as <- _.
  pose proof (overlap_add_silent _ _ _ _ _ _ Hc Ho) as Hs.
  unfold Upscaler.normalize_level in Hn.
  apply bind_Ok in Hn. destruct Hn as (mx & Hm & Hn).
  rewrite (max_abs_silent ola mx Hs Hm) in Hn.
  destruct (Rgt_dec 0 0) as [Hgt|_]; [lra|].
  injection Hn as <-. exact Hs.
Qed.

Lemma process_audio_silent (self self' : AudioUpscaler)
      (audio_data enhanced : audio) (sr frame_size hop : Z) :
  silent (samples_of audio_data) ->
  Upscaler.process_audio self audio_data sr frame_size hop
  = Ok (enhanced, self') ->
  silent (samples_of enhanced).
Proof.
  intros Hs H. apply process_audio_inv in H.
  destruct audio_data as [samples|rows]; cbn [samples_of] in Hs.
  - destruct H as (out & -> & Hrun). cbn [samples_of].
    eapply process_channel_silent; [exact Hs|exact Hrun].
  - destruct H as (l & s1 & r & -> & Hl & Hr & Ll & Lr).
    apply Forall_app in Hs. destruct Hs as [Hsl Hsr].
    cbn [samples_of].
    rewrite map_fst_combine, map_snd_combine by congruence.
    apply Forall_app. split.
    + eapply process_channel_silent; [exact Hsl|exact Hl].
    + eapply process_channel_silent; [exact Hsr|exact Hr].
Qed.

(** ** The chain as a composition *)

(** X12: applying a chain made of two parts is applying the first part and
    then the second part to what the first returns; the chain that is left
    is the two parts as they are left, and an exception of either part is
    the exception of the whole. *)
Theorem chain_of_two_parts (magnitudes phases : list R)
        (first second : list Enhancer) :
  apply_enhancer_chain magnitudes phases (first ++ second)
  = ('(m, p, first') <- apply_enhancer_chain magnitudes phases first ;;
     '(m', p', second') <- apply_enhancer_chain m p second ;;
     Ok (m', p', first' ++ second')).
Proof.
  revert magnitudes phases.
  induction first as [|e first IH]; intros magnitudes phases.
  - cbn [app apply_enhancer_chain bind].
    destruct (apply_enhancer_chain magnitudes phases second)
      as [[[m p] c]|x]; reflexivity.
  - cbn [app apply_enhancer_chain].
    destruct (process e magnitudes phases) as [[[m p] e']|x]; cbn [bind];
      [|reflexivity].
    rewrite IH.
    destruct (apply_enhancer_chain m p first) as [[[m1 p1] c1]|x];
      cbn [bind]; [|reflexivity].
    destruct (apply_enhancer_chain m1 p1 second) as [[[m2 p2] c2]|x];
      reflexivity.
Qed.

(** ** What a call leaves in the instance *)

Lemma process_configuration (e e' : Enhancer) (m p m' p' : list R) :
  process e m p = Ok (m', p', e') ->
  configuration e' = configuration e
  /\ (is_transient e = true -> history e' = Some m)
  /\ (is_transient e = false -> e' = e).
Proof.
  destruct e as [hb hd pp|w fr|d fr|s ab prev]; cbn [process].
  - destruct (HarmonicEnhancer.process hb hd m p) as [[a b]|x]; cbn [bind];
      [|discriminate].
    intros E; injection E as _ _ <-. repeat split; try discriminate.
  - destruct (SpectralWidener.process w m p) as [a b].
    intros E; injection E as _ _ <-. repeat split; try discriminate.
  - destruct (ExciterEnhancer.process d m p) as [[a b]|x]; cbn [bind];
      [|discriminate].
    intros E; injection E as _ _ <-. repeat split; try discriminate.
  - intros H. apply bind_Ok in H. destruct H as ([[a b] h] & Ht & H).
    injection H as _ _ <-. cbn [configuration history is_transient].
    repeat split; try discriminate. intros _.
    unfold TransientEnhancer.process in Ht.
    destruct prev as [prev|].
    + destruct (Np.broadcast2 Rminus m prev) as [flux|]; cbn [bind] in Ht;
        [|discriminate].
      destruct (Np.inplace2 Rmult m _) as [out|]; cbn [bind] in Ht;
        [|discriminate].
      now injection Ht as _ _ <-.
    + now injection Ht as _ _ <-.
Qed.

Lemma chain_configuration (chain : list Enhancer) :
  forall m p m' p' chain',
    apply_enhancer_chain m p chain = Ok (m', p', chain') ->
    map configuration chain' = map configuration chain
    /\ Forall (fun h => exists seen, h = Some seen /\ length seen = length m)
              (histories chain').
Proof.
  induction chain as [|e chain IH]; intros m p m' p' chain' H.
  - injection H as _ _ <-. split; [reflexivity|constructor].
  - cbn [apply_enhancer_chain] in H.
    apply bind_Ok in H. destruct H as ([[m1 p1] e1] & He & H).
    apply bind_Ok in H. destruct H as ([[m2 p2] c2] & Hc & H).
    injection H as _ _ <-.
    destruct (IH _ _ _ _ _ Hc) as [IHc IHh].
    destruct (process_configuration _ _ _ _ _ _ He) as (Hcfg & Htr & Hoth).
    destruct (process_lengths _ _ _ _ _ _ He) as [Hlen _].
    split; [cbn [map]; now rewrite Hcfg, IHc|].
    unfold histories in *. cbn [flat_map]. apply Forall_app. split.
    + destruct e as [hb hd pp|w fr|d fr|s ab prev];
        try (rewrite (Hoth eq_refl); constructor).
      specialize (Htr eq_refl).
      destruct e1 as [| | |s1 ab1 h1]; try discriminate.
      cbn [history] in Htr. subst h1.
      constructor; [|constructor]. now exists m.
    + eapply Forall_impl; [|exact IHh].
      intros h (seen & -> & Hs). exists seen. split; [reflexivity|congruence].
Qed.

(** X13: a chain that returns gives back as many magnitudes and as many
    phases as it was given; its enhancers keep their class and their
    parameters; and every transient enhancer is left with a history, of as
    many bins as the chain was given. *)
Theorem chain_keeps_configuration (chain chain' : list Enhancer)
        (m p m' p' : list R) :
  apply_enhancer_chain m p chain = Ok (m', p', chain') ->
  length m' = length m /\ length p' = length p
  /\ map configuration chain' = map configuration chain
  /\ Forall (fun h => exists seen, h = Some seen /\ length seen = length m)
            (histories chain').
Proof.
  intros H.
  destruct (chain_lengths _ _ _ _ _ _ H) as (Hm & Hp & _).
  destruct (chain_configuration _ _ _ _ _ _ H) as [Hc Hh].
  now repeat split.
Qed.

Lemma chain_keeps_configuration_witness :
  length [1; 2] = length [1; 2] /\ length [0; 0] = length [0; 0]
  /\ map configuration [TransientEnhancer 0.5 2 (Some [1; 2])]
     = map configuration [TransientEnhancer 0.5 2 None]
  /\ Forall (fun h => exists seen, h = Some seen
                                   /\ length seen = length [1; 2])
            (histories [TransientEnhancer 0.5 2 (Some [1; 2])]).
Proof.
  exact (chain_keeps_configuration [TransientEnhancer 0.5 2 None]
           [TransientEnhancer 0.5 2 (Some [1; 2])] [1; 2] [0; 0] [1; 2]
           [0; 0] eq_refl).
Defined.

(** ** Phases *)

Lemma process_phases (e e' : Enhancer) (m p m' p' : list R) :
  process e m p = Ok (m', p', e') -> is_widener e = false -> p' = p.
Proof.
  destruct e as [hb hd pp|w fr|d fr|s ab prev]; cbn [process]; intros H Hw;
    try discriminate.
  - apply bind_Ok in H. destruct H as ([a b] & H0 & H).
    injection H as _ <- _. now apply harmonic_process_Ok in H0.
  - unfold ExciterEnhancer.process in H. destruct m as [|m0 ms].
    + now injection H as _ <- _.
    + destruct (Req_dec_T d 0); [discriminate|]. now injection H as _ <- _.
  - unfold TransientEnhancer.process in H. destruct prev as [prev|].
    + destruct (Np.broadcast2 Rminus m prev) as [flux|]; cbn [bind] in H;
        [|discriminate].
      destruct (Np.inplace2 Rmult m _) as [out|]; cbn [bind] in H;
        [|discriminate].
      now injection H as _ <- _.
    + now injection H as _ <- _.
Qed.

(** X14: through a chain that holds no SpectralWidener the phases come back
    as they were given. *)
Theorem phases_change_only_in_a_widener (chain chain' : list Enhancer)
        (m p m' p' : list R) :
  forallb (fun e => negb (is_widener e)) chain = true ->
  apply_enhancer_chain m p chain = Ok (m', p', chain') ->
  p' = p.
Proof.
  revert m p m' p' chain'.
  induction chain as [|e chain IH]; intros m p m' p' chain' Hw H.
  - now injection H as _ <- _.
  - cbn [forallb] in Hw. apply andb_true_iff in Hw. destruct Hw as [He Hw].
    cbn [apply_enhancer_chain] in H.
    apply bind_Ok in H. destruct H as ([[m1 p1] e1] & Hp & H).
    apply bind_Ok in H. destruct H as ([[m2 p2] c2] & Hc & H).
    injection H as _ <- _.
    rewrite (IH _ _ _ _ _ Hw Hc).
    eapply process_phases; [exact Hp|]. now destruct (is_widener e).
Qed.

Lemma phases_change_only_in_a_widener_witness : [0; 0] = [0; 0].
Proof.
  exact (phases_change_only_in_a_widener [TransientEnhancer 0.5 2 None]
           [TransientEnhancer 0.5 2 (Some [1; 2])] [1; 2] [0; 0] [1; 2]
           [0; 0] eq_refl eq_refl).
Defined.

Lemma linspace_zero (n : nat) : Np.linspace 0 0 n = repeat 0 n.
Proof.
  destruct n as [|[|n]]; try reflexivity.
  unfold Np.linspace.
  transitivity (map (fun _ : nat => 0) (seq 0 (S (S n)))).
  - apply map_ext. intros i. unfold Rdiv. ring.
  - now rewrite map_const_repeat, length_seq.
Qed.

Lemma sum_nonneg (l : list R) : all_nonneg l -> 0 <= Np.sum l.
Proof.
  intros H. induction H as [|x l Hx _ IH]; simpl; lra.
Qed.

Lemma mean_nonneg (l : list R) : all_nonneg l -> 0 <= Np.mean l.
Proof.
  intros H. unfold Np.mean. destruct l as [|x l].
  - simpl. unfold Rdiv. rewrite Rmult_0_l. lra.
  - apply Rdiv_nonneg; [now apply sum_nonneg|].
    apply lt_0_INR. simpl. lia.
Qed.

(** ** The neutral settings *)

(** X15: at their neutral settings the enhancers change nothing: a widener
    of width 1, and a transient enhancer of attack boost 1 whose history, if
    it has one, fits the spectrum, return the magnitudes and the phases as
    they were given. *)
Theorem neutral_settings_change_nothing (magnitudes phases : list R)
        (fr : R * R) (s : R) (prev : option (list R)) :
  history_fits (TransientEnhancer s 1 prev) (length magnitudes) ->
  process (SpectralWidener 1 fr) magnitudes phases
  = Ok (magnitudes, phases, SpectralWidener 1 fr)
  /\ process (TransientEnhancer s 1 prev) magnitudes phases
     = Ok (magnitudes, phases, TransientEnhancer s 1 (Some magnitudes)).
Proof.
  intros Hfit. split.
  - cbn [process]. unfold SpectralWidener.process.
    replace (PI / 4 * (1 - 1)) with 0 by ring.
    rewrite linspace_zero, map2_repeat_r by reflexivity.
    rewrite map_id_ext by (intros; ring). reflexivity.
  - destruct prev as [prev|]; cbn [process TransientEnhancer.process bind];
      [|reflexivity].
    cbn [history_fits] in Hfit.
    unfold Np.broadcast2. rewrite Hfit, Nat.eqb_refl. cbn [bind].
    unfold Np.inplace2, TransientEnhancer.transient_mask.
    rewrite !length_map, map2_length, Hfit, Nat.min_id, Nat.eqb_refl.
    cbn [bind]. rewrite !map_map.
    erewrite map_ext with (g := fun _ => 1)
      by (intros a; ring).
    rewrite map_const_repeat, map2_length, Hfit, Nat.min_id.
    rewrite map2_repeat_r by reflexivity.
    rewrite map_id_ext by (intros; ring). reflexivity.
Qed.

Lemma neutral_settings_change_nothing_witness :
  process (SpectralWidener 1 (300, 5000)) [1; 2] [0; 0]
  = Ok ([1; 2], [0; 0], SpectralWidener 1 (300, 5000))
  /\ process (TransientEnhancer 0.5 1 (Some [3; 4])) [1; 2] [0; 0]
     = Ok ([1; 2], [0; 0], TransientEnhancer 0.5 1 (Some [1; 2])).
Proof.
  exact (neutral_settings_change_nothing [1; 2] [0; 0] (300, 5000) 0.5
           (Some [3; 4]) eq_refl).
Defined.

(** ** The transient enhancer *)

(** X16: with a sensitivity of at least 0 and a history of the length of
    the spectrum, the transient enhancer returns every bin either as it was
    or multiplied by the attack boost, and a bin that is not above its
    stored value as it was. *)
Theorem transient_boosts_only_rising_bins (s ab : R) (prev m p m' p' : list R)
        (e' : Enhancer) :
  0 <= s -> length prev = length m ->
  process (TransientEnhancer s ab (Some prev)) m p = Ok (m', p', e') ->
  forall i, (i < length m)%nat ->
    (nth i m' 0 = nth i m 0 \/ nth i m' 0 = nth i m 0 * ab)
    /\ (nth i m 0 <= nth i prev 0 -> nth i m' 0 = nth i m 0).
Proof.
  intros Hs Hlen H i Hi. cbn [process TransientEnhancer.process] in H.
  unfold Np.broadcast2 in H. rewrite Hlen, Nat.eqb_refl in H.
  cbn [bind] in H.
  unfold Np.inplace2, TransientEnhancer.transient_mask in H.
  rewrite !length_map, map2_length, Hlen, Nat.min_id, Nat.eqb_refl in H.
  cbn [bind] in H. apply ok_inj in H.
  assert (Hm' : m' = map2 Rmult m
            (map (fun b => 1 + bool_to_R b * (ab - 1))
               (map (fun f => Rgtb f
                       (Np.mean (map (Rmax 0) (map2 Rminus m prev))
                        * (1 + s * 5)))
                    (map (Rmax 0) (map2 Rminus m prev))))) by congruence.
  clear H. subst m'.
  set (thr := Np.mean (map (Rmax 0) (map2 Rminus m prev)) * (1 + s * 5)).
  assert (Hthr : 0 <= thr).
  { apply Rmult_le_pos; [|lra]. apply mean_nonneg.
    apply Forall_map, Forall_forall. intros x _. apply Rmax_l. }
  rewrite !map_map.
  rewrite (nth_map2 Rmult m _ i 0 1 0);
    [|exact Hi|rewrite length_map, map2_length; lia].
  rewrite (nth_map_lt _ _ i 1 0) by (rewrite map2_length; lia).
  rewrite (nth_map2 Rminus m prev i 0 0 0) by lia.
  split.
  - unfold Rgtb. destruct (Rgt_dec _ thr); cbn [bool_to_R];
      [right|left]; ring.
  - intros Hle. rewrite Rmax_left by lra.
    rewrite Rgtb_false by lra. cbn [bool_to_R]. ring.
Qed.

Lemma transient_boosts_only_rising_bins_witness :
  (nth 0 [1; 2] 0 = nth 0 [1; 2] 0 \/ nth 0 [1; 2] 0 = nth 0 [1; 2] 0 * 2)
  /\ (nth 0 [1; 2] 0 <= nth 0 [1; 2] 0 -> nth 0 [1; 2] 0 = nth 0 [1; 2] 0).
Proof.
  apply (transient_boosts_only_rising_bins 0.5 2 [1; 2] [1; 2] [0; 0]
           [1; 2] [0; 0] (TransientEnhancer 0.5 2 (Some [1; 2])));
    [lra|reflexivity| |cbn [length]; lia].
  cbn [process]. now rewrite transient_process_identical.
Defined.

(** ** The exciter *)

Lemma tanh_abs_lt_1 (x : R) : Rabs (tanh x) < 1.
Proof.
  unfold tanh, sinh, cosh.
  pose proof (exp_pos x) as Ha. pose proof (exp_pos (- x)) as Hb.
  set (a := exp x) in *. set (b := exp (- x)) in *.
  assert (Ht : (a - b) / 2 / ((a + b) / 2) * (a + b) = a - b)
    by (field; lra).
  apply Rabs_def1.
  - apply Rmult_lt_reg_r with (a + b); [lra|]. rewrite Ht. lra.
  - apply Rmult_lt_reg_r with (a + b); [lra|]. rewrite Ht. lra.
Qed.

Lemma Forall_map2 {A B C : Type} (P : A -> Prop) (Q : B -> Prop)
      (T : C -> Prop) (f : A -> B -> C) (xs : list A) (ys : list B) :
  (forall x y, P x -> Q y -> T (f x y)) ->
  Forall P xs -> Forall Q ys -> Forall T (map2 f xs ys).
Proof.
  intros Hf Hx. revert ys. induction Hx as [|x xs Hx _ IH];
    intros [|y ys] Hy; simpl; try constructor.
  - inversion Hy; subst. now apply Hf.
  - inversion Hy; subst. now apply IH.
Qed.

Lemma Forall_firstn' {A : Type} (P : A -> Prop) (n : nat) (l : list A) :
  Forall P l -> Forall P (firstn n l).
Proof.
  revert l; induction n as [|n IH]; intros [|x l] H; simpl; auto.
  inversion H; subst. constructor; auto.
Qed.

Lemma Forall_skipn' {A : Type} (P : A -> Prop) (n : nat) (l : list A) :
  Forall P l -> Forall P (skipn n l).
Proof.
  revert l; induction n as [|n IH]; intros [|x l] H; simpl; auto.
  inversion H; subst. auto.
Qed.

Lemma exciter_mask_bounds (n : nat) :
  Forall (fun w => 1 <= w <= 1.1) (ExciterEnhancer.mask n).
Proof.
  unfold ExciterEnhancer.mask, Np.slice_map.
  assert (H1 : Forall (fun w => 1 <= w <= 1.1) (repeat 1 n)).
  { apply Forall_forall. intros x Hx. apply repeat_spec in Hx. lra. }
  repeat (apply Forall_app; split).
  - now apply Forall_firstn'.
  - apply Forall_map, Forall_forall. intros x _. lra.
  - now apply Forall_skipn'.
Qed.



(** ** Dynamic range *)

Lemma sum_map_affine (a f : R) (l : list R) :
  Np.sum (map (fun x => a + (x - a) * f) l)
  = INR (length l) * (a * (1 - f)) + f * Np.sum l.
Proof.
  induction l as [|x l IH]; [simpl; ring|].
  cbn [map Np.sum fold_right length]. fold (Np.sum l).
  fold (Np.sum (map (fun x => a + (x - a) * f) l)).
  rewrite IH, S_INR. ring.
Qed.

(** X18: with a dynamic boost between 0 and 1 on non-negative magnitudes,
    the dynamic range stage clamps nothing: every magnitude keeps the
    fraction [dynamic_boost] of its distance to the mean, and the mean of
    the magnitudes is kept. *)
Theorem dynamic_compression_keeps_the_mean (dynamic_boost : R)
        (magnitudes : list R) :
  0 <= dynamic_boost <= 1 -> all_nonneg magnitudes -> magnitudes <> [] ->
  Upscaler.dynamic_range_enhancement dynamic_boost magnitudes
  = map (fun m => Np.mean magnitudes
                  + (m - Np.mean magnitudes) * dynamic_boost) magnitudes
  /\ Np.mean (Upscaler.dynamic_range_enhancement dynamic_boost magnitudes)
     = Np.mean magnitudes.
Proof.
  intros Hd Hm Hne.
  pose proof (mean_nonneg magnitudes Hm) as Hmean.
  set (a := Np.mean magnitudes) in *.
  assert (E : Upscaler.dynamic_range_enhancement dynamic_boost magnitudes
              = map (fun m => a + (m - a) * dynamic_boost) magnitudes).
  { unfold Upscaler.dynamic_range_enhancement.
    destruct (Req_dec_T dynamic_boost 1.0) as [E1|_].
    - symmetry. apply map_id_ext. intros x. rewrite E1. lra.
    - fold a. apply map_ext_in. intros x Hx.
      apply Rmax_right.
      assert (0 <= x) by (eapply Forall_forall in Hm; eauto).
      replace (a + (x - a) * dynamic_boost)
        with (a * (1 - dynamic_boost) + x * dynamic_boost) by ring.
      apply Rplus_le_le_0_compat; apply Rmult_le_pos; lra. }
  split; [exact E|]. rewrite E.
  unfold Np.mean at 1. rewrite sum_map_affine, length_map.
  assert (Hn : 0 < INR (length magnitudes)).
  { apply lt_0_INR. destruct magnitudes; [contradiction|simpl; lia]. }
  assert (Hs : Np.sum magnitudes = a * INR (length magnitudes)).
  { subst a. unfold Np.mean. field. lra. }
  rewrite Hs. field. lra.
Qed.

Lemma dynamic_compression_keeps_the_mean_witness :
  Upscaler.dynamic_range_enhancement 0.5 [1; 3]
  = map (fun m => Np.mean [1; 3] + (m - Np.mean [1; 3]) * 0.5) [1; 3]
  /\ Np.mean (Upscaler.dynamic_range_enhancement 0.5 [1; 3])
     = Np.mean [1; 3].
Proof.
  apply (dynamic_compression_keeps_the_mean 0.5 [1; 3]);
    [lra|repeat constructor; lra|discriminate].
Defined.

(** ** The calls that raise *)

Lemma harmonic_process_accepts (hb hd : R) (pp : bool)
      (magnitudes phases : list R) :
  (exists out, HarmonicEnhancer.process hb hd magnitudes phases = Ok out)
  <-> accepts (HarmonicEnhancer hb hd pp) magnitudes.
Proof.
  cbn [accepts]. cbv zeta. unfold HarmonicEnhancer.process.
  set (n := length magnitudes).
  set (lower := Nat.min (n / 5) 100).
  set (f := Np.argmax (firstn lower magnitudes)).
  pose proof (for_each_returns
                (fun h => (f * h < n)%nat -> power_in_range h hd)
                (HarmonicEnhancer.boost_harmonic hb hd n f) (seq 2 6)
                (fun a x => boost_harmonic_returns hb hd n f a x) magnitudes)
    as Hloop.
  destruct (Nat.ltb_spec 0 lower) as [Hl|Hl].
  - destruct (Nat.ltb_spec 0 f) as [Hf|Hf].
    + split.
      * intros [out H]. apply bind_Ok in H. destruct H as (m & Hm & _).
        assert (Hall : Forall (fun h => (f * h < n)%nat -> power_in_range h hd)
                              (seq 2 6)) by (apply Hloop; now exists m).
        intros h Hh _ Hlt. rewrite Forall_forall in Hall.
        apply Hall; [apply in_seq; lia|exact Hlt].
      * intros H. destruct (proj2 Hloop) as [m Hm].
        { apply Forall_forall. intros h Hh Hlt. apply in_seq in Hh.
          apply H; [lia|exact Hf|exact Hlt]. }
        rewrite Hm. eexists; reflexivity.
    + split; [intros _ h _ H0; lia|intros _; eexists; reflexivity].
  - split; [|intros _; eexists; reflexivity].
    intros _ h _ H0. exfalso.
    assert (E : lower = 0%nat) by lia.
    subst f. rewrite E in H0. cbn in H0. lia.
Qed.

Lemma process_accepts (e : Enhancer) (magnitudes phases : list R) :
  (exists out, process e magnitudes phases = Ok out)
  <-> accepts e magnitudes.
Proof.
  destruct e as [hb hd pp|w fr|d fr|s ab [prev|]];
    cbn [process accepts].
  - rewrite <- (harmonic_process_accepts hb hd pp magnitudes phases).
    split.
    + intros [out H]. apply bind_Ok in H. destruct H as (mp & H & _).
      now exists mp.
    + intros [[m p] H]. rewrite H. eexists; reflexivity.
  - split; [auto|intros _].
    destruct (SpectralWidener.process w magnitudes phases).
    eexists; reflexivity.
  - unfold ExciterEnhancer.process. destruct magnitudes as [|m0 ms].
    + cbn [bind]. split; [now right|intros _; eexists; reflexivity].
    + destruct (Req_dec_T d 0) as [->|Hd]; cbn [bind].
      * split; [intros [out H]; discriminate|].
        intros [H|H]; [contradiction|discriminate].
      * split; [now left|intros _; eexists; reflexivity].
  - unfold TransientEnhancer.process, Np.broadcast2.
    destruct (Nat.eqb_spec (length magnitudes) (length prev)) as [E|E].
    + cbn [bind]. unfold Np.inplace2, TransientEnhancer.transient_mask.
      rewrite !length_map, map2_length, E, Nat.min_id, Nat.eqb_refl.
      cbn [bind]. split; [now left|intros _; eexists; reflexivity].
    + destruct magnitudes as [|x [|x' ms]].
      * destruct prev as [|y [|y' prev]]; cbn [bind length] in *.
        -- contradiction.
        -- split; [now right|intros _; eexists; reflexivity].
        -- split; [intros [out H]; discriminate|].
           intros [H|H]; discriminate.
      * cbn [bind]. unfold Np.inplace2, TransientEnhancer.transient_mask.
        rewrite !length_map.
        destruct (Nat.eqb_spec (length [x]) (length prev)) as [E'|_];
          [contradiction|].
        destruct prev as [|y [|y' prev]]; cbn [map bind length] in *.
        -- split; [intros [out H]; discriminate|intros [H|H]; discriminate].
        -- contradiction.
        -- split; [intros [out H]; discriminate|intros [H|H]; discriminate].
      * destruct prev as [|y [|y' prev]]; cbn [bind length] in *.
        -- split; [intros [out H]; discriminate|intros [H|H]; discriminate].
        -- unfold Np.inplace2, TransientEnhancer.transient_mask.
           rewrite !length_map, Nat.eqb_refl. cbn [bind].
           split; [now right|intros _; eexists; reflexivity].
        -- split; [intros [out H]; discriminate|].
           intros [H|H]; [|discriminate]. exfalso. apply E.
           cbn [length]. now rewrite H.
  - cbn [TransientEnhancer.process bind].
    split; [auto|intros _; eexists; reflexivity].
Qed.



(** ** Runs that return *)

Lemma process_ready (e : Enhancer) (m p : list R) :
  history_fits e (length m) -> nonzero_drive e -> decay_in_range e ->
  exists m' p' e',
    process e m p = Ok (m', p', e')
    /\ history_fits e' (length m) /\ nonzero_drive e' /\ decay_in_range e'.
Proof.
  intros Hfit Hd Hr.
  destruct (proj2 (process_accepts e m p)) as [[[m' p'] e'] H].
  { destruct e as [hb hd pp|w fr|d fr|s ab [prev|]];
      cbn [accepts history_fits nonzero_drive decay_in_range] in *; auto.
    intros h Hh _ _. destruct Hr as [Hd0 Hr].
    now apply power_in_range_le. }
  exists m', p', e'. split; [exact H|].
  destruct (process_configuration _ _ _ _ _ _ H) as (_ & Htr & Hoth).
  destruct e as [hb hd pp|w fr|d fr|s ab prev];
    try (rewrite (Hoth eq_refl); split; [|split]; assumption).
  specialize (Htr eq_refl).
  cbn [process] in H. apply bind_Ok in H. destruct H as ([[a b] h] & _ & H).
  injection H as _ _ <-. cbn [history] in Htr. subst h.
  split; [reflexivity|split; exact I].
Qed.

Lemma chain_ready (chain : list Enhancer) :
  forall m p,
    ready chain (length m) ->
    exists m' p' chain',
      apply_enhancer_chain m p chain = Ok (m', p', chain')
      /\ ready chain' (length m).
Proof.
  induction chain as [|e chain IH]; intros m p Hr.
  - exists m, p, []. split; [reflexivity|constructor].
  - inversion Hr as [|? ? (Hfit & Hd & Hdecay) Hrest]; subst.
    destruct (process_ready e m p Hfit Hd Hdecay)
      as (m1 & p1 & e1 & He & Hf1 & Hd1).
    destruct (process_lengths _ _ _ _ _ _ He) as [Hlen _].
    destruct (IH m1 p1) as (m2 & p2 & c2 & Hc & Hr2).
    { now rewrite Hlen. }
    exists m2, p2, (e1 :: c2). cbn [apply_enhancer_chain].
    rewrite He. cbn [bind]. rewrite Hc. cbn [bind].
    split; [reflexivity|].
    constructor; [now split|]. now rewrite <- Hlen.
Qed.

Lemma process_frame_ready (self : AudioUpscaler) (frame : list R) :
  frame <> [] -> Nat.even (length frame) = true ->
  ready (enhancer_chain self) (length frame / 2 + 1) ->
  exists out self',
    Upscaler._process_frame self frame = Ok (out, self')
    /\ length out = length frame
    /\ ready (enhancer_chain self') (length frame / 2 + 1).
Proof.
  intros Hne Hev Hr.
  destruct (even_length_half frame Hne Hev) as [M HM].
  assert (Hhalf : (length frame / 2 + 1 = S M + 1)%nat).
  { rewrite HM. replace (2 * S M)%nat with (S M * 2)%nat by lia.
    now rewrite Nat.div_mul by lia. }
  unfold Upscaler._process_frame. rewrite (analyze_returns frame M HM).
  cbn [bind].
  set (m := map Fft.abs (map (Fft.rfft_bin frame) (seq 0 (S M + 1)))).
  set (p := map Fft.angle (map (Fft.rfft_bin frame) (seq 0 (S M + 1)))).
  assert (Hm : length m = (S M + 1)%nat)
    by (subst m; now rewrite !length_map, length_seq).
  assert (Hp : length p = (S M + 1)%nat)
    by (subst p; now rewrite !length_map, length_seq).
  assert (Hb : length (Upscaler.builtin_stages self m) = (S M + 1)%nat)
    by now rewrite builtin_stages_length.
  destruct (chain_ready (enhancer_chain self)
              (Upscaler.builtin_stages self m) p)
    as (m' & p' & chain' & Hc & Hr').
  { now rewrite Hb, <- Hhalf. }
  destruct (chain_lengths _ _ _ _ _ _ Hc) as (Hm' & Hp' & _).
  assert (Hchain :
            match enhancer_chain self with
            | [] => Ok (Upscaler.builtin_stages self m, p, [])
            | _ :: _ =>
                apply_enhancer_chain (Upscaler.builtin_stages self m) p
                                     (enhancer_chain self)
            end = Ok (m', p', chain')).
  { destruct (enhancer_chain self); [exact Hc|exact Hc]. }
  rewrite Hchain. cbn [bind].
  unfold Upscaler.synthesize, Fft.irfft.
  assert (Hs : length (map2 Fft.polar m' p') = (S M + 1)%nat)
    by (rewrite map2_length; lia).
  rewrite Hs.
  destruct (Nat.leb_spec (S M + 1) 1) as [|_]; [lia|]. cbn [bind].
  eexists; eexists. split; [reflexivity|].
  split; [rewrite length_map, length_seq; lia|].
  cbn [Upscaler.with_chain enhancer_chain].
  now rewrite Hhalf, <- Hb.
Qed.

Lemma frame_loop_ready (padded : list R) (frame_size : Z) (offsets : list Z) :
  (0 < frame_size)%Z -> Z.even frame_size = true ->
  Forall (fun i => 0 <= i /\ i + frame_size <= Z.of_nat (length padded))%Z
         offsets ->
  forall self buf,
    length buf = length padded ->
    ready (enhancer_chain self) (Z.to_nat frame_size / 2 + 1) ->
    exists out self',
      Upscaler.frame_loop self padded frame_size offsets buf
      = Ok (out, self')
      /\ ready (enhancer_chain self') (Z.to_nat frame_size / 2 + 1).
Proof.
  intros Hpos Heven Hoff.
  induction Hoff as [|i rest [Hi Hle] _ IH]; intros self buf Hbuf Hr.
  - eexists; eexists; split; [reflexivity|exact Hr].
  - cbn [Upscaler.frame_loop].
    pose proof (frame_of_padded padded frame_size i Hi
                  (Z.lt_le_incl _ _ Hpos) Hle) as Hframe.
    destruct (process_frame_ready self (Py.slice padded i (i + frame_size)))
      as (out & self1 & Hf & Hout & Hr1).
    { intros E. rewrite E in Hframe. cbn [length] in Hframe. lia. }
    { rewrite Hframe. apply even_to_nat; [lia|exact Heven]. }
    { now rewrite Hframe. }
    rewrite Hf. cbn [bind]. unfold Np.broadcast2.
    rewrite Hout, Hframe, hanning_length, Nat.eqb_refl. cbn [bind].
    destruct (slice_iadd_returns buf
                (map2 Rmult out (Np.hanning (Z.to_nat frame_size)))
                i (i + frame_size)) as [buf' Hbuf'].
    { rewrite map2_length, Hout, Hframe, hanning_length, Nat.min_id.
      apply frame_of_padded; lia. }
    rewrite Hbuf'. cbn [bind]. apply IH.
    + apply slice_iadd_length in Hbuf'. congruence.
    + now rewrite Hframe in Hr1.
Qed.

Lemma process_channel_ready (self : AudioUpscaler) (channel : list R)
      (sr frame_size hop : Z) :
  channel <> [] ->
  (0 < frame_size)%Z -> Z.even frame_size = true ->
  (0 < hop <= frame_size)%Z ->
  ready (enhancer_chain self) (Z.to_nat frame_size / 2 + 1) ->
  exists out self',
    Upscaler._process_channel self channel sr frame_size hop
    = Ok (out, self')
    /\ length out = length channel
    /\ ready (enhancer_chain self') (Z.to_nat frame_size / 2 + 1).
Proof.
  intros Hne Hpos Heven Hhop Hr.
  destruct (pad_reflect_returns channel frame_size Hne (Z.lt_le_incl _ _ Hpos))
    as [padded Hpad].
  destruct (Upscaler.frame_offsets (Z.of_nat (length padded)) frame_size hop)
    as [offsets|e] eqn:Hoff.
  2:{ unfold Upscaler.frame_offsets, Py.range in Hoff.
      destruct (Z.eqb_spec hop 0); [lia|discriminate]. }
  destruct (frame_loop_ready padded frame_size offsets Hpos Heven)
    with (self := self) (buf := repeat 0 (length padded))
    as (buf & self1 & Hloop & Hr1).
  { apply Forall_forall. intros o Ho.
    apply (range_positive_step _ _ _ o (proj1 Hhop) Hoff) in Ho. lia. }
  { apply repeat_length. }
  { exact Hr. }
  assert (Hk : (frame_size / hop <> 0)%Z).
  { assert (1 <= frame_size / hop)%Z by (apply Z.div_le_lower_bound; lia).
    lia. }
  assert (Hacc : exists acc,
             Upscaler.overlap_add self channel frame_size hop
             = Ok (acc, self1)).
  { unfold Upscaler.overlap_add. rewrite Hpad. cbn [bind].
    unfold Upscaler.total_frames.
    destruct (Z.eqb_spec hop 0); [lia|]. cbn [bind].
    rewrite Hoff. cbn [bind]. rewrite Hloop. cbn [bind].
    unfold Upscaler.overlap_normalize.
    destruct buf as [|b buf]; cbn [bind]; [eexists; reflexivity|].
    destruct (Z.eqb_spec (frame_size / hop) 0); [contradiction|].
    cbn [bind]. eexists; reflexivity. }
  destruct Hacc as [acc Hacc].
  pose proof (overlap_add_length _ _ _ _ _ _ Hacc) as Hlen.
  assert (Hout : exists out,
             Upscaler._process_channel self channel sr frame_size hop
             = Ok (out, self1)).
  { unfold Upscaler._process_channel, Upscaler.normalize_level.
    rewrite Hacc. cbn [bind].
    destruct acc as [|a acc];
      [destruct channel; [contradiction|discriminate]|].
    cbn [map Np.max bind].
    destruct (Rgt_dec _ 0); eexists; reflexivity. }
  destruct Hout as [out Hout]. exists out, self1.
  split; [exact Hout|]. split; [|exact Hr1].
  now apply process_channel_length in Hout.
Qed.

Lemma process_audio_ready (self : AudioUpscaler) (audio_data : audio)
      (sr frame_size hop : Z) :
  rows_of audio_data <> 0%nat ->
  (0 < frame_size)%Z -> Z.even frame_size = true ->
  (0 < hop <= frame_size)%Z ->
  ready (enhancer_chain self) (Z.to_nat frame_size / 2 + 1) ->
  exists enhanced self',
    Upscaler.process_audio self audio_data sr frame_size hop
    = Ok (enhanced, self')
    /\ rows_of enhanced = rows_of audio_data
    /\ is_stereo enhanced = is_stereo audio_data
    /\ ready (enhancer_chain self') (Z.to_nat frame_size / 2 + 1).
Proof.
  intros Hne Hpos Heven Hhop Hr.
  destruct audio_data as [samples|rows]; cbn [rows_of is_stereo] in *.
  - destruct (process_channel_ready self samples sr frame_size hop)
      as (out & self1 & Hout & Hlen & Hr1); try assumption.
    { intros ->. now apply Hne. }
    exists (Mono out), self1. cbn [Upscaler.process_audio].
    rewrite Hout. cbn [bind rows_of is_stereo]. now repeat split.
  - assert (Hl : map fst rows <> []) by (destruct rows; [easy|discriminate]).
    assert (Hrr : map snd rows <> []) by (destruct rows; [easy|discriminate]).
    destruct (process_channel_ready self (map fst rows) sr frame_size hop)
      as (left & self1 & Hleft & Hll & Hr1); try assumption.
    destruct (process_channel_ready self1 (map snd rows) sr frame_size hop)
      as (right & self2 & Hright & Hlr & Hr2); try assumption.
    rewrite length_map in Hll, Hlr.
    exists (Stereo (combine left right)), self2.
    cbn [Upscaler.process_audio]. rewrite Hleft. cbn [bind].
    rewrite Hright. cbn [bind]. unfold Upscaler.column_stack.
    rewrite Hll, Hlr, Nat.eqb_refl. cbn [bind rows_of is_stereo].
    repeat split; [|exact Hr2].
    rewrite length_combine. lia.
Qed.

(** X3: [process_audio] returns when the input has at least one row, the
    frame size is even and above zero, the hop is between 1 and the frame
    size, no exciter of the chain has a drive of zero, every harmonic
    enhancer has a decay that keeps [7 ** harmonic_decay] within the floats
    and above the half of the smallest of them, and every transient enhancer
    has no history yet or one of frame_size // 2 + 1 bins.  The output has
    the shape of the input, and the chain is left ready for another run
    with these sizes. *)
Theorem prepared_run_returns (self : AudioUpscaler) (audio_data : audio)
        (sr frame_size hop : Z) :
  rows_of audio_data <> 0%nat ->
  (0 < frame_size)%Z -> Z.even frame_size = true ->
  (0 < hop <= frame_size)%Z ->
  ready (enhancer_chain self) (Z.to_nat frame_size / 2 + 1) ->
  exists enhanced self',
    Upscaler.process_audio self audio_data sr frame_size hop
    = Ok (enhanced, self')
    /\ rows_of enhanced = rows_of audio_data
    /\ is_stereo enhanced = is_stereo audio_data
    /\ ready (enhancer_chain self') (Z.to_nat frame_size / 2 + 1).
Proof. apply process_audio_ready. Qed.

Lemma prepared_run_returns_witness :
  exists enhanced self',
    Upscaler.process_audio
      (Upscaler.with_chain noop_config
         [TransientEnhancer 0.5 2 None; ExciterEnhancer 1.5 (1000, 16000);
          HarmonicEnhancer 1.5 0.5 true])
      (Stereo [(1, 2); (3, 4); (5, 6)]) 22050 4 2
    = Ok (enhanced, self')
    /\ rows_of enhanced = rows_of (Stereo [(1, 2); (3, 4); (5, 6)])
    /\ is_stereo enhanced = is_stereo (Stereo [(1, 2); (3, 4); (5, 6)])
    /\ ready (enhancer_chain self') (Z.to_nat 4 / 2 + 1).
Proof.
  apply (prepared_run_returns
           (Upscaler.with_chain noop_config
              [TransientEnhancer 0.5 2 None;
               ExciterEnhancer 1.5 (1000, 16000);
               HarmonicEnhancer 1.5 0.5 true])
           (Stereo [(1, 2); (3, 4); (5, 6)]) 22050 4 2);
    [discriminate|lia|reflexivity|lia|].
  constructor; [split; [exact I|split; exact I]|].
  constructor; [split; [exact I|split; [cbn [nonzero_drive]; lra|exact I]]|].
  constructor; [|constructor].
  split; [exact I|split; [exact I|exact default_decay_in_range]].
Defined.



(** X8: silence in, silence out: on an input whose samples are all zero a
    run with the sizes and the chain of X3 returns, and every sample it
    returns is zero (a peak of zero is not normalised). *)
Theorem silence_stays_silence (self : AudioUpscaler) (audio_data : audio)
        (sr frame_size hop : Z) :
  silent (samples_of audio_data) ->
  rows_of audio_data <> 0%nat ->
  (0 < frame_size)%Z -> Z.even frame_size = true ->
  (0 < hop <= frame_size)%Z ->
  ready (enhancer_chain self) (Z.to_nat frame_size / 2 + 1) ->
  exists enhanced self',
    Upscaler.process_audio self audio_data sr frame_size hop
    = Ok (enhanced, self')
    /\ silent (samples_of enhanced)
    /\ rows_of enhanced = rows_of audio_data.
Proof.
  intros Hs Hne Hpos Heven Hhop Hr.
  destruct (process_audio_ready self audio_data sr frame_size hop
              Hne Hpos Heven Hhop Hr) as (enhanced & self' & Hrun & Hrows & _).
  exists enhanced, self'. split; [exact Hrun|]. split; [|exact Hrows].
  exact (process_audio_silent _ _ _ _ _ _ _ Hs Hrun).
Qed.

Lemma silence_stays_silence_witness :
  exists enhanced self',
    Upscaler.process_audio
      (Upscaler.with_chain noop_config
         [TransientEnhancer 0.5 2 None; ExciterEnhancer 1.5 (1000, 16000)])
      (Mono [0; 0; 0; 0; 0]) 22050 4 2
    = Ok (enhanced, self')
    /\ silent (samples_of enhanced)
    /\ rows_of enhanced = rows_of (Mono [0; 0; 0; 0; 0]).
Proof.
  apply (silence_stays_silence
           (Upscaler.with_chain noop_config
              [TransientEnhancer 0.5 2 None;
               ExciterEnhancer 1.5 (1000, 16000)])
           (Mono [0; 0; 0; 0; 0]) 22050 4 2);
    [repeat constructor|discriminate|lia|reflexivity|lia|].
  constructor; [split; [exact I|split; exact I]|].
  constructor; [|constructor].
  split; [exact I|split; [cbn [nonzero_drive]; lra|exact I]].
Defined.

(** ** Gains *)

Section Gain.

Variable c : R.
Hypothesis Hc : 0 < c.

Lemma scale_length (l : list R) : length (scale c l) = length l.
Proof. apply length_map. Qed.

Lemma scale_firstn (n : nat) (l : list R) :
  firstn n (scale c l) = scale c (firstn n l).
Proof. apply firstn_map. Qed.

Lemma scale_skipn (n : nat) (l : list R) :
  skipn n (scale c l) = scale c (skipn n l).
Proof. apply skipn_map. Qed.

Lemma scale_app (l r : list R) : scale c (l ++ r) = scale c l ++ scale c r.
Proof. apply map_app. Qed.

Lemma scale_slice (l : list R) (a b : Z) :
  Py.slice (scale c l) a b = scale c (Py.slice l a b).
Proof.
  unfold Py.slice. cbv zeta.
  now rewrite scale_length, scale_skipn, scale_firstn.
Qed.

Lemma scale_map2_mult (xs ys : list R) :
  map2 Rmult (scale c xs) ys = scale c (map2 Rmult xs ys).
Proof.
  revert ys. induction xs as [|x xs IH]; intros [|y ys]; simpl; auto.
  rewrite <- IH. f_equal. ring.
Qed.

Lemma scale_slice_mul (l vals : list R) (start : nat) :
  Np.slice_mul (scale c l) start vals = scale c (Np.slice_mul l start vals).
Proof.
  unfold Np.slice_mul.
  now rewrite !scale_app, scale_firstn, !scale_skipn, scale_firstn,
    scale_map2_mult.
Qed.

Lemma scale_slice_map (f : R -> R) (l : list R) (a b : nat) :
  (forall x, f (x * c) = f x * c) ->
  Np.slice_map f (scale c l) a b = scale c (Np.slice_map f l a b).
Proof.
  intros Hf. unfold Np.slice_map.
  rewrite !scale_app, scale_firstn, !scale_skipn, scale_firstn.
  f_equal. f_equal. unfold scale. rewrite !map_map.
  apply map_ext. intros x. apply Hf.
Qed.

Lemma scale_sum (l : list R) : Np.sum (scale c l) = Np.sum l * c.
Proof.
  induction l as [|x l IH]; simpl; [ring|].
  fold (scale c l). fold (Np.sum (scale c l)). fold (Np.sum l).
  rewrite IH. ring.
Qed.

Lemma scale_mean (l : list R) : Np.mean (scale c l) = Np.mean l * c.
Proof.
  unfold Np.mean. rewrite scale_sum, scale_length. unfold Rdiv. ring.
Qed.

Lemma Rgtb_scale (x y : R) : Rgtb (x * c) (y * c) = Rgtb x y.
Proof.
  unfold Rgtb. destruct (Rgt_dec x y) as [H|H].
  - destruct (Rgt_dec (x * c) (y * c)) as [|H']; [reflexivity|].
    exfalso. apply H'. apply Rmult_gt_compat_r; lra.
  - destruct (Rgt_dec (x * c) (y * c)) as [H'|]; [|reflexivity].
    exfalso. apply H. apply Rmult_lt_reg_r with c; lra.
Qed.

Lemma Rmax_scale (x : R) : Rmax 0 (x * c) = Rmax 0 x * c.
Proof.
  rewrite (Rmult_comm x c), (Rmult_comm (Rmax 0 x) c).
  rewrite <- RmaxRmult by lra. now rewrite Rmult_0_r.
Qed.

Lemma scale_noise_floor_reduction (s : R) (m : list R) :
  Upscaler.noise_floor_reduction s (scale c m)
  = scale c (Upscaler.noise_floor_reduction s m).
Proof.
  unfold Upscaler.noise_floor_reduction.
  destruct (Rgt_dec s 0); [|reflexivity].
  unfold Py.slice_from. rewrite scale_length, scale_skipn, scale_mean.
  rewrite !map2_map_r, !map2_diag. unfold scale. rewrite !map_map.
  apply map_ext. intros x.
  replace (Np.mean _ * c * (1 + s * 3))
    with (Np.mean (skipn (Py.bound (Z.of_nat (length m))
                            (- Z.of_nat (length m) / 5)) m)
          * (1 + s * 3) * c) by ring.
  rewrite Rgtb_scale. ring.
Qed.

Lemma scale_harmonic_enhancement (h : R) (m : list R) :
  Upscaler.harmonic_enhancement h (scale c m)
  = scale c (Upscaler.harmonic_enhancement h m).
Proof.
  unfold Upscaler.harmonic_enhancement.
  destruct (Rgt_dec h 0); [|reflexivity].
  now rewrite scale_length, scale_slice_mul.
Qed.

Lemma scale_intensity_scaling (i : R) (m : list R) :
  Upscaler.intensity_scaling i (scale c m)
  = scale c (Upscaler.intensity_scaling i m).
Proof.
  unfold Upscaler.intensity_scaling, scale. rewrite !map_map.
  apply map_ext. intros x. ring.
Qed.

Lemma intensity_scaling_gain (i : R) (m : list R) :
  Upscaler.intensity_scaling (i * c) m
  = scale c (Upscaler.intensity_scaling i m).
Proof.
  unfold Upscaler.intensity_scaling, scale. rewrite !map_map.
  apply map_ext. intros x. ring.
Qed.

Lemma scale_dynamic_range_enhancement (d : R) (m : list R) :
  Upscaler.dynamic_range_enhancement d (scale c m)
  = scale c (Upscaler.dynamic_range_enhancement d m).
Proof.
  unfold Upscaler.dynamic_range_enhancement.
  destruct (Req_dec_T d 1.0); [reflexivity|].
  rewrite scale_mean. unfold scale. rewrite !map_map.
  apply map_ext. intros x. rewrite <- Rmax_scale. f_equal. ring.
Qed.

Lemma scale_clarity_enhancement (b : bool) (m : list R) :
  Upscaler.clarity_enhancement b (scale c m)
  = scale c (Upscaler.clarity_enhancement b m).
Proof.
  unfold Upscaler.clarity_enhancement. destruct b; [|reflexivity].
  rewrite scale_length. apply scale_slice_map. intros x. ring.
Qed.

Lemma scale_builtin_stages (self : AudioUpscaler) (m : list R) :
  Upscaler.builtin_stages self (scale c m)
  = scale c (Upscaler.builtin_stages self m).
Proof.
  unfold Upscaler.builtin_stages.
  now rewrite scale_noise_floor_reduction, scale_harmonic_enhancement,
    scale_intensity_scaling, scale_dynamic_range_enhancement,
    scale_clarity_enhancement.
Qed.

Lemma builtin_stages_gain (self : AudioUpscaler) (m : list R) :
  Upscaler.builtin_stages (with_intensity self (intensity self * c)) m
  = scale c (Upscaler.builtin_stages self m).
Proof.
  unfold Upscaler.builtin_stages. cbn [with_intensity intensity
    harmonics_boost noise_reduction dynamic_boost clarity_enhance].
  now rewrite intensity_scaling_gain, scale_dynamic_range_enhancement,
    scale_clarity_enhancement.
Qed.

(** *** The enhancers *)

Lemma scale_argmax_from (best : R) (best_i i : nat) (l : list R) :
  Np.argmax_from (best * c) best_i i (scale c l)
  = Np.argmax_from best best_i i l.
Proof.
  revert best best_i i. induction l as [|x l IH]; intros best best_i i;
    [reflexivity|].
  cbn [scale map Np.argmax_from]. fold (scale c l).
  destruct (Rgt_dec x best) as [H|H];
    destruct (Rgt_dec (x * c) (best * c)) as [H'|H'].
  - apply IH.
  - exfalso. apply H'. apply Rmult_gt_compat_r; lra.
  - exfalso. apply H. apply Rmult_lt_reg_r with c; lra.
  - apply IH.
Qed.

Lemma scale_argmax (l : list R) : Np.argmax (scale c l) = Np.argmax l.
Proof. destruct l as [|x l]; [reflexivity|apply scale_argmax_from]. Qed.

Lemma scale_boost_harmonics (hb hd : R) (n f : nat) (hs : list nat) :
  forall l,
    Py.for_each (HarmonicEnhancer.boost_harmonic hb hd n f) hs (scale c l)
    = lift (scale c)
           (Py.for_each (HarmonicEnhancer.boost_harmonic hb hd n f) hs l).
Proof.
  induction hs as [|h hs IH]; intros l; [reflexivity|].
  cbn [Py.for_each].
  assert (E : HarmonicEnhancer.boost_harmonic hb hd n f (scale c l) h
              = lift (scale c)
                     (HarmonicEnhancer.boost_harmonic hb hd n f l h)).
  { unfold HarmonicEnhancer.boost_harmonic.
    destruct (f * h <? n)%nat; [|reflexivity].
    destruct (HarmonicEnhancer.boost_of hb hd h) as [b|x];
      cbn [bind lift]; [|reflexivity].
    now rewrite scale_slice_mul. }
  rewrite E.
  destruct (HarmonicEnhancer.boost_harmonic hb hd n f l h) as [l'|x];
    cbn [lift bind]; [|reflexivity].
  apply IH.
Qed.

Lemma scale_harmonic_process (hb hd : R) (m p : list R) :
  HarmonicEnhancer.process hb hd (scale c m) p
  = lift (fun '(m', p') => (scale c m', p'))
         (HarmonicEnhancer.process hb hd m p).
Proof.
  unfold HarmonicEnhancer.process.
  rewrite scale_length, scale_firstn, scale_argmax.
  destruct (0 <? _)%nat; [|reflexivity].
  destruct (0 <? _)%nat; [|reflexivity].
  rewrite scale_boost_harmonics.
  destruct (Py.for_each _ _ m) as [l|x]; reflexivity.
Qed.

Lemma scale_map2 (op : R -> R -> R) (xs ys : list R) :
  (forall x y, op (x * c) (y * c) = op x y * c) ->
  map2 op (scale c xs) (scale c ys) = scale c (map2 op xs ys).
Proof.
  intros Hop. revert ys. induction xs as [|x xs IH]; intros [|y ys]; simpl;
    auto.
  fold (scale c xs). fold (scale c ys). now rewrite IH, Hop.
Qed.

Lemma scale_broadcast2 (op : R -> R -> R) (xs ys : list R) :
  (forall x y, op (x * c) (y * c) = op x y * c) ->
  Np.broadcast2 op (scale c xs) (scale c ys)
  = lift (scale c) (Np.broadcast2 op xs ys).
Proof.
  intros Hop. unfold Np.broadcast2. rewrite !scale_length.
  destruct (length xs =? length ys)%nat.
  { cbn [lift bind]. now rewrite scale_map2. }
  destruct xs as [|x [|x' xs]].
  - destruct ys as [|y [|y' ys]]; reflexivity.
  - cbn [scale map lift bind]. f_equal. unfold scale.
    rewrite !map_map. apply map_ext. intros y. apply Hop.
  - destruct ys as [|y [|y' ys]]; try reflexivity.
    cbn [scale map lift bind]. now rewrite !Hop, map_map,
      (map_map (fun x => op x y)), (map_ext _ _ (fun x => Hop x y)).
Qed.

Lemma scale_inplace2_mult (xs ys : list R) :
  Np.inplace2 Rmult (scale c xs) ys = lift (scale c) (Np.inplace2 Rmult xs ys).
Proof.
  unfold Np.inplace2. rewrite scale_length.
  destruct (length xs =? length ys)%nat.
  { cbn [lift bind]. now rewrite scale_map2_mult. }
  destruct ys as [|y [|y' ys]]; try reflexivity.
  cbn [lift bind]. f_equal. unfold scale. rewrite !map_map.
  apply map_ext. intros x. ring.
Qed.

Lemma scale_transient_mask (s : R) (flux : list R) :
  TransientEnhancer.transient_mask s (scale c flux)
  = TransientEnhancer.transient_mask s flux.
Proof.
  unfold TransientEnhancer.transient_mask.
  assert (E : map (Rmax 0) (scale c flux) = scale c (map (Rmax 0) flux)).
  { unfold scale. rewrite !map_map. apply map_ext. intros x.
    apply Rmax_scale. }
  rewrite E, scale_mean. unfold scale. rewrite map_map.
  apply map_ext. intros x.
  replace (Np.mean (map (Rmax 0) flux) * c * (1 + s * 5))
    with (Np.mean (map (Rmax 0) flux) * (1 + s * 5) * c) by ring.
  apply Rgtb_scale.
Qed.

Lemma scale_process (e : Enhancer) (m p : list R) :
  is_exciter e = false ->
  process (scale_history c e) (scale c m) p
  = lift (fun '(m', p', e') => (scale c m', p', scale_history c e'))
         (process e m p).
Proof.
  intros He. destruct e as [hb hd pp|w fr|d fr|s ab [prev|]];
    try discriminate; cbn [scale_history process].
  - rewrite scale_harmonic_process.
    destruct (HarmonicEnhancer.process hb hd m p) as [[a b]|x]; reflexivity.
  - reflexivity.
  - unfold TransientEnhancer.process.
    rewrite scale_broadcast2 by (intros; ring).
    destruct (Np.broadcast2 Rminus m prev) as [flux|x];
      cbn [lift bind]; [|reflexivity].
    rewrite scale_transient_mask, scale_inplace2_mult.
    destruct (Np.inplace2 Rmult m _) as [out|x]; reflexivity.
  - reflexivity.
Qed.

Lemma scale_chain (chain : list Enhancer) :
  forallb (fun e => negb (is_exciter e)) chain = true ->
  forall m p,
    apply_enhancer_chain (scale c m) p (map (scale_history c) chain)
    = lift (fun '(m', p', chain') =>
              (scale c m', p', map (scale_history c) chain'))
           (apply_enhancer_chain m p chain).
Proof.
  induction chain as [|e chain IH]; intros Hx m p; [reflexivity|].
  cbn [forallb] in Hx. apply andb_true_iff in Hx. destruct Hx as [He Hx].
  cbn [map apply_enhancer_chain].
  rewrite scale_process by now destruct (is_exciter e).
  destruct (process e m p) as [[[m1 p1] e1]|x]; cbn [lift bind];
    [|reflexivity].
  rewrite (IH Hx).
  destruct (apply_enhancer_chain m1 p1 chain) as [[[m2 p2] c2]|x];
    reflexivity.
Qed.

(** *** The transform pair *)

Lemma scale_nth (l : list R) (i : nat) : nth i (scale c l) 0 = nth i l 0 * c.
Proof.
  destruct (Nat.lt_ge_cases i (length l)) as [H|H].
  - unfold scale. now rewrite (nth_map_lt _ _ i 0 0).
  - rewrite (nth_overflow (scale c l)) by (rewrite scale_length; lia).
    rewrite (nth_overflow l) by lia. ring.
Qed.

Lemma scale_rfft_bin (a : list R) (k : nat) :
  Fft.rfft_bin (scale c a) k
  = (fst (Fft.rfft_bin a k) * c, snd (Fft.rfft_bin a k) * c).
Proof.
  unfold Fft.rfft_bin. rewrite scale_length. cbn [fst snd]. f_equal.
  - rewrite Rmult_comm, <- big_sum_scal. apply big_sum_ext. intros i _.
    rewrite scale_nth. ring.
  - rewrite <- Ropp_mult_distr_l. f_equal.
    rewrite Rmult_comm, <- big_sum_scal. apply big_sum_ext. intros i _.
    rewrite scale_nth. ring.
Qed.

Lemma scale_abs (x y : R) : Fft.abs (x * c, y * c) = Fft.abs (x, y) * c.
Proof.
  unfold Fft.abs. cbn [fst snd].
  replace (x * c * (x * c) + y * c * (y * c))
    with ((x * x + y * y) * (c * c)) by ring.
  rewrite sqrt_mult_alt by nra. now rewrite sqrt_square by lra.
Qed.

Lemma scale_angle (x y : R) : Fft.angle (x * c, y * c) = Fft.angle (x, y).
Proof.
  unfold Fft.angle, Fft.arctan2. cbn [fst snd].
  assert (Hq : x <> 0 -> y * c / (x * c) = y / x) by (intros; field; lra).
  destruct (Rlt_dec 0 x) as [Hx|Hx].
  { destruct (Rlt_dec 0 (x * c)) as [_|H']; [now rewrite Hq by lra|].
    exfalso. apply H'. now apply Rmult_lt_0_compat. }
  destruct (Rlt_dec 0 (x * c)) as [H'|_]; [exfalso; nra|].
  destruct (Rlt_dec x 0) as [Hn|Hn].
  { destruct (Rlt_dec (x * c) 0) as [_|H']; [|exfalso; nra].
    rewrite Hq by lra.
    destruct (Rle_dec 0 y) as [Hy|Hy];
      destruct (Rle_dec 0 (y * c)) as [Hy'|Hy']; try reflexivity;
      exfalso; nra. }
  destruct (Rlt_dec (x * c) 0) as [H'|_]; [exfalso; nra|].
  destruct (Rlt_dec 0 y) as [Hy|Hy].
  { destruct (Rlt_dec 0 (y * c)) as [_|H']; [reflexivity|exfalso; nra]. }
  destruct (Rlt_dec 0 (y * c)) as [H'|_]; [exfalso; nra|].
  destruct (Rlt_dec y 0) as [Hm|Hm].
  { destruct (Rlt_dec (y * c) 0) as [_|H']; [reflexivity|exfalso; nra]. }
  destruct (Rlt_dec (y * c) 0) as [H'|_]; [exfalso; nra|reflexivity].
Qed.

Lemma rfft_nonempty (a : list R) :
  a <> [] ->
  Fft.rfft a = Ok (map (Fft.rfft_bin a) (seq 0 (length a / 2 + 1))).
Proof. destruct a; [contradiction|reflexivity]. Qed.

Lemma scale_analyze (frame : list R) :
  Upscaler.analyze (scale c frame)
  = lift (fun '(m, p) => (scale c m, p)) (Upscaler.analyze frame).
Proof.
  unfold Upscaler.analyze. destruct frame as [|x frame]; [reflexivity|].
  remember (x :: frame) as a eqn:Ea.
  rewrite (rfft_nonempty a) by (subst a; discriminate).
  rewrite (rfft_nonempty (scale c a)) by (subst a; discriminate).
  cbn [bind lift]. rewrite scale_length. f_equal. f_equal.
  - unfold scale at 2. rewrite !map_map. apply map_ext. intros k.
    rewrite scale_rfft_bin.
    destruct (Fft.rfft_bin a k) as [re im]. apply scale_abs.
  - rewrite !map_map. apply map_ext. intros k.
    rewrite scale_rfft_bin.
    destruct (Fft.rfft_bin a k) as [re im]. apply scale_angle.
Qed.

Lemma scale_polar (m p : list R) :
  map2 Fft.polar (scale c m) p
  = map (fun z => (fst z * c, snd z * c)) (map2 Fft.polar m p).
Proof.
  revert p. induction m as [|x m IH]; intros [|ph p]; simpl; auto.
  fold (scale c m). rewrite IH. unfold Fft.polar. cbn [fst snd].
  f_equal. f_equal; ring.
Qed.

Lemma scale_bin (s : list (R * R)) (k : nat) :
  nth k (map (fun z => (fst z * c, snd z * c)) s) (0, 0)
  = (fst (nth k s (0, 0)) * c, snd (nth k s (0, 0)) * c).
Proof.
  destruct (Nat.lt_ge_cases k (length s)) as [H|H].
  - now rewrite (nth_map_lt _ _ k (0, 0) (0, 0)).
  - rewrite (nth_overflow (map _ s)) by (rewrite length_map; lia).
    rewrite (nth_overflow s) by lia.
    cbn [fst snd]. f_equal; ring.
Qed.

Lemma scale_irfft (s : list complex) :
  Fft.irfft (map (fun z => (fst z * c, snd z * c)) s)
  = lift (scale c) (Fft.irfft s).
Proof.
  unfold Fft.irfft. cbv zeta. unfold complex in *. rewrite length_map.
  destruct (length s <=? 1)%nat; [reflexivity|]. cbn [lift bind].
  f_equal. unfold scale. rewrite map_map. apply map_ext. intros j.
  unfold Fft.irfft_sample. cbv zeta. unfold complex in *.
  rewrite length_map, !scale_bin. cbn [fst snd].
  rewrite (big_sum_ext _ _
             (fun i => c * (fst (nth (S i) s (0, 0))
                            * cos (Fft.turn (2 * (length s - 1)) (S i) j)
                            - snd (nth (S i) s (0, 0))
                              * sin (Fft.turn (2 * (length s - 1)) (S i) j)))).
  - rewrite big_sum_scal. unfold Rdiv, complex. generalize ((-1) ^ j).
    intros sgn. ring.
  - intros i _. cbv zeta. rewrite scale_bin. cbn [fst snd]. ring.
Qed.

Lemma scale_synthesize (m p : list R) :
  Upscaler.synthesize (scale c m) p = lift (scale c) (Upscaler.synthesize m p).
Proof. unfold Upscaler.synthesize. now rewrite scale_polar, scale_irfft. Qed.

End Gain.

(** *** Frames and runs

    [T] is what the gain does to the upscaler and [F] what it does to the
    samples; after the built-in stages the magnitudes are [c] times what
    they were. *)

Section Runs.

Variable c : R.
Hypothesis Hc : 0 < c.
Variable T : AudioUpscaler -> AudioUpscaler.
Variable F : list R -> list R.

Hypothesis T_chain : forall self,
  enhancer_chain (T self) = map (scale_history c) (enhancer_chain self).
Hypothesis T_with_chain : forall self chain,
  Upscaler.with_chain (T self) (map (scale_history c) chain)
  = T (Upscaler.with_chain self chain).
Hypothesis T_stages : forall self frame,
  ('(m, p) <- Upscaler.analyze (F frame) ;;
   Ok (Upscaler.builtin_stages (T self) m, p))
  = ('(m, p) <- Upscaler.analyze frame ;;
     Ok (scale c (Upscaler.builtin_stages self m), p)).
Hypothesis F_length : forall l, length (F l) = length l.
Hypothesis F_slice : forall l a b, Py.slice (F l) a b = F (Py.slice l a b).
Hypothesis F_pad : forall channel pad,
  Upscaler.pad_reflect (F channel) pad
  = lift F (Upscaler.pad_reflect channel pad).

Lemma process_frame_split (self : AudioUpscaler) (frame : list R) :
  Upscaler._process_frame self frame
  = ('(em, p) <- ('(m, p) <- Upscaler.analyze frame ;;
                  Ok (Upscaler.builtin_stages self m, p)) ;;
     after_stages self em p).
Proof.
  unfold Upscaler._process_frame, after_stages.
  destruct (Upscaler.analyze frame) as [[m p]|x]; reflexivity.
Qed.

Lemma chain_cases (self : AudioUpscaler) (em p : list R) :
  match enhancer_chain self with
  | [] => Ok (em, p, [])
  | _ :: _ => apply_enhancer_chain em p (enhancer_chain self)
  end = apply_enhancer_chain em p (enhancer_chain self).
Proof. destruct (enhancer_chain self); reflexivity. Qed.

Lemma after_stages_gain (self : AudioUpscaler) (em p : list R) :
  no_exciter self ->
  after_stages (T self) (scale c em) p
  = lift (fun '(out, self') => (scale c out, T self'))
         (after_stages self em p).
Proof.
  intros Hx. unfold after_stages. rewrite !chain_cases, T_chain.
  rewrite (scale_chain c Hc _ Hx).
  destruct (apply_enhancer_chain em p (enhancer_chain self))
    as [[[m1 p1] c1]|x]; cbn [lift bind]; [|reflexivity].
  rewrite (scale_synthesize c).
  destruct (Upscaler.synthesize m1 p1) as [fr|x]; cbn [lift bind];
    [|reflexivity].
  now rewrite T_with_chain.
Qed.

Lemma process_frame_gain (self : AudioUpscaler) (frame : list R) :
  no_exciter self ->
  Upscaler._process_frame (T self) (F frame)
  = lift (fun '(out, self') => (scale c out, T self'))
         (Upscaler._process_frame self frame).
Proof.
  intros Hx. rewrite !process_frame_split, T_stages.
  destruct (Upscaler.analyze frame) as [[m p]|x]; cbn [bind lift];
    [|reflexivity].
  now rewrite after_stages_gain.
Qed.

Lemma no_exciter_process (e e' : Enhancer) (m p m' p' : list R) :
  process e m p = Ok (m', p', e') -> is_exciter e' = is_exciter e.
Proof.
  intros H. destruct (process_configuration _ _ _ _ _ _ H) as (Hcfg & _).
  destruct e, e'; cbn in Hcfg; try discriminate; reflexivity.
Qed.

Lemma no_exciter_chain (chain : list Enhancer) :
  forall m p m' p' chain',
    apply_enhancer_chain m p chain = Ok (m', p', chain') ->
    forallb (fun e => negb (is_exciter e)) chain'
    = forallb (fun e => negb (is_exciter e)) chain.
Proof.
  induction chain as [|e chain IH]; intros m p m' p' chain' H.
  - now injection H as _ _ <-.
  - cbn [apply_enhancer_chain] in H.
    apply bind_Ok in H. destruct H as ([[m1 p1] e1] & He & H).
    apply bind_Ok in H. destruct H as ([[m2 p2] c2] & Hch & H).
    injection H as _ _ <-. cbn [forallb].
    now rewrite (no_exciter_process _ _ _ _ _ _ He), (IH _ _ _ _ _ Hch).
Qed.

Lemma no_exciter_frame (self self' : AudioUpscaler) (frame out : list R) :
  no_exciter self ->
  Upscaler._process_frame self frame = Ok (out, self') ->
  no_exciter self'.
Proof.
  unfold no_exciter. intros Hx H. unfold Upscaler._process_frame in H.
  apply bind_Ok in H. destruct H as ([m p] & _ & H).
  rewrite chain_cases in H.
  apply bind_Ok in H. destruct H as ([[m1 p1] c1] & Hch & H).
  apply bind_Ok in H. destruct H as (fr & _ & H).
  injection H as _ <-. cbn [Upscaler.with_chain enhancer_chain].
  now rewrite (no_exciter_chain _ _ _ _ _ _ Hch).
Qed.

Lemma scale_window (out window : list R) :
  Np.broadcast2 Rmult (scale c out) window
  = lift (scale c) (Np.broadcast2 Rmult out window).
Proof.
  unfold Np.broadcast2. rewrite scale_length.
  destruct (length out =? length window)%nat.
  { cbn [lift bind]. now rewrite scale_map2_mult. }
  destruct out as [|x [|x' out]].
  - destruct window as [|y [|y' w]]; reflexivity.
  - cbn [scale map lift bind]. f_equal. unfold scale. rewrite map_map.
    apply map_ext. intros y. ring.
  - destruct window as [|y [|y' w]]; try reflexivity.
    cbn [scale map lift bind]. f_equal.
    apply f_equal2; [ring|]. apply f_equal2; [ring|].
    rewrite !map_map. apply map_ext. intros z. ring.
Qed.

Lemma scale_slice_iadd (buf vals : list R) (a b : Z) :
  Upscaler.slice_iadd (scale c buf) a b (scale c vals)
  = lift (scale c) (Upscaler.slice_iadd buf a b vals).
Proof.
  unfold Upscaler.slice_iadd. cbv zeta.
  rewrite scale_length, scale_slice, scale_firstn, scale_skipn.
  assert (E : Np.inplace2 Rplus (scale c (Py.slice buf a b)) (scale c vals)
              = lift (scale c) (Np.inplace2 Rplus (Py.slice buf a b) vals)).
  { unfold Np.inplace2. rewrite !scale_length.
    destruct (length (Py.slice buf a b) =? length vals)%nat.
    { cbn [lift bind]. rewrite scale_map2; [reflexivity|intros; ring]. }
    destruct vals as [|y [|y' vals]]; try reflexivity.
    cbn [scale map lift bind]. f_equal. unfold scale. rewrite !map_map.
    apply map_ext. intros x. ring. }
  rewrite E.
  destruct (Np.inplace2 Rplus (Py.slice buf a b) vals) as [upd|x];
    cbn [lift bind]; [|reflexivity].
  now rewrite !scale_app.
Qed.

Lemma frame_loop_gain (padded : list R) (frame_size : Z) (offsets : list Z) :
  forall self buf,
    no_exciter self ->
    Upscaler.frame_loop (T self) (F padded) frame_size offsets (scale c buf)
    = lift (fun '(out, self') => (scale c out, T self'))
           (Upscaler.frame_loop self padded frame_size offsets buf).
Proof.
  induction offsets as [|i rest IH]; intros self buf Hx; [reflexivity|].
  cbn [Upscaler.frame_loop]. rewrite F_slice, process_frame_gain by exact Hx.
  destruct (Upscaler._process_frame self _) as [[out self1]|x] eqn:Hf;
    cbn [lift bind]; [|reflexivity].
  rewrite scale_window.
  destruct (Np.broadcast2 Rmult out _) as [w|x]; cbn [lift bind];
    [|reflexivity].
  rewrite scale_slice_iadd.
  destruct (Upscaler.slice_iadd buf i (i + frame_size) w) as [buf'|x];
    cbn [lift bind]; [|reflexivity].
  apply IH. eapply no_exciter_frame; [exact Hx|exact Hf].
Qed.

Lemma scale_overlap_normalize (buf : list R) (k : Z) :
  Upscaler.overlap_normalize (scale c buf) k
  = lift (scale c) (Upscaler.overlap_normalize buf k).
Proof.
  unfold Upscaler.overlap_normalize. destruct buf as [|x buf]; [reflexivity|].
  cbn [scale map]. destruct (k =? 0)%Z; [reflexivity|].
  cbn [lift bind scale map]. f_equal.
  apply f_equal2; [unfold Rdiv; ring|].
  rewrite !map_map. apply map_ext. intros y. unfold Rdiv. ring.
Qed.

Lemma overlap_add_gain (self : AudioUpscaler) (channel : list R)
      (frame_size hop : Z) :
  no_exciter self ->
  Upscaler.overlap_add (T self) (F channel) frame_size hop
  = lift (fun '(acc, self') => (scale c acc, T self'))
         (Upscaler.overlap_add self channel frame_size hop).
Proof.
  intros Hx. unfold Upscaler.overlap_add. cbv zeta. rewrite F_pad.
  destruct (Upscaler.pad_reflect channel frame_size) as [padded|x];
    cbn [lift bind]; [|reflexivity].
  rewrite F_length.
  destruct (Upscaler.total_frames _ frame_size hop) as [total|x];
    cbn [lift bind]; [|reflexivity].
  destruct (Upscaler.frame_offsets _ frame_size hop) as [offsets|x];
    cbn [lift bind]; [|reflexivity].
  assert (E : repeat 0 (length padded) = scale c (repeat 0 (length padded))).
  { unfold scale. rewrite map_repeat. f_equal. ring. }
  rewrite E at 1. rewrite frame_loop_gain by exact Hx.
  destruct (Upscaler.frame_loop self padded frame_size offsets _)
    as [[buf self1]|x]; cbn [lift bind]; [|reflexivity].
  rewrite scale_overlap_normalize.
  destruct (Upscaler.overlap_normalize buf _) as [nrm|x]; cbn [lift bind];
    [|reflexivity].
  now rewrite scale_slice.
Qed.

Lemma map_id_ext_in {A : Type} (f : A -> A) (l : list A) :
  (forall x, In x l -> f x = x) -> map f l = l.
Proof.
  induction l as [|x l IH]; intros H; simpl; [reflexivity|].
  rewrite H by now left. rewrite IH; [reflexivity|].
  intros y Hy. apply H. now right.
Qed.

Lemma fold_left_Rmax_zero (t : list R) (x : R) :
  0 <= x -> Forall (fun y => 0 <= y) t -> fold_left Rmax t x <= 0 ->
  x = 0 /\ Forall (fun y => y = 0) t.
Proof.
  intros Hx Ht Hle.
  destruct (fold_left_Rmax_bound t x) as [H1 H2].
  split; [lra|]. apply Forall_forall. intros y Hy.
  assert (0 <= y) by (eapply Forall_forall in Ht; eauto).
  specialize (H2 y Hy). lra.
Qed.

Lemma normalize_level_gain (acc : list R) :
  Upscaler.normalize_level (scale c acc) = Upscaler.normalize_level acc.
Proof.
  unfold Upscaler.normalize_level.
  destruct acc as [|a0 acc0]; [reflexivity|].
  remember (a0 :: acc0) as acc eqn:Eacc.
  destruct (Np.max (map Rabs acc)) as [mx|x] eqn:Hmax.
  2:{ subst acc. discriminate. }
  clear a0 acc0 Eacc.
  unfold scale. rewrite (max_abs_scale c mx acc (Rlt_le _ _ Hc) Hmax).
  cbn [bind].
  destruct (Rgt_dec mx 0) as [Hpos|Hzero].
  - destruct (Rgt_dec (mx * c) 0) as [_|H']; [|exfalso; nra].
    f_equal. rewrite map_map. apply map_ext. intros x.
    generalize 0.95. intros t. field. lra.
  - destruct (Rgt_dec (mx * c) 0) as [H'|_]; [exfalso; nra|].
    f_equal. destruct acc as [|a acc]; [reflexivity|].
    cbn [map Np.max] in Hmax. injection Hmax as Hmax.
    destruct (fold_left_Rmax_zero (map Rabs acc) (Rabs a)) as [Ha Hacc].
    + apply Rabs_pos.
    + apply Forall_map, Forall_forall. intros y _. apply Rabs_pos.
    + lra.
    + assert (Hall : Forall (fun y => y = 0) (a :: acc)).
      { constructor.
        - destruct (Req_dec a 0) as [|Hn]; [assumption|].
          apply Rabs_no_R0 in Hn. contradiction.
        - apply Forall_map in Hacc. eapply Forall_impl; [|exact Hacc].
          intros y Hy. cbv beta in Hy.
          destruct (Req_dec y 0) as [|Hn]; [assumption|].
          apply Rabs_no_R0 in Hn. contradiction. }
      apply map_id_ext_in. intros y Hy.
      eapply Forall_forall in Hall; [|exact Hy]. rewrite Hall. ring.
Qed.

Lemma process_channel_gain (self : AudioUpscaler) (channel : list R)
      (sr frame_size hop : Z) :
  no_exciter self ->
  Upscaler._process_channel (T self) (F channel) sr frame_size hop
  = lift (fun '(out, self') => (out, T self'))
         (Upscaler._process_channel self channel sr frame_size hop).
Proof.
  intros Hx. unfold Upscaler._process_channel.
  rewrite overlap_add_gain by exact Hx.
  destruct (Upscaler.overlap_add self channel frame_size hop)
    as [[acc self1]|x]; cbn [lift bind]; [|reflexivity].
  rewrite normalize_level_gain.
  destruct (Upscaler.normalize_level acc) as [out|x]; reflexivity.
Qed.

End Runs.

Lemma no_exciter_loop (padded : list R) (frame_size : Z) (offsets : list Z) :
  forall self buf out self',
    no_exciter self ->
    Upscaler.frame_loop self padded frame_size offsets buf = Ok (out, self') ->
    no_exciter self'.
Proof.
  induction offsets as [|i rest IH]; intros self buf out self' Hx H.
  - now injection H as _ <-.
  - cbn [Upscaler.frame_loop] in H.
    apply bind_Ok in H. destruct H as ([fr s1] & Hf & H).
    apply bind_Ok in H. destruct H as (w & _ & H).
    apply bind_Ok in H. destruct H as (buf' & _ & H).
    eapply IH; [|exact H]. eapply no_exciter_frame; [exact Hx|exact Hf].
Qed.

Lemma no_exciter_channel (self self' : AudioUpscaler) (channel out : list R)
      (sr frame_size hop : Z) :
  no_exciter self ->
  Upscaler._process_channel self channel sr frame_size hop = Ok (out, self') ->
  no_exciter self'.
Proof.
  intros Hx H. unfold Upscaler._process_channel in H.
  apply bind_Ok in H. destruct H as ([acc s1] & Ho & H).
  apply bind_Ok in H. destruct H as (nrm & _ & H). injection H as _ <-.
  unfold Upscaler.overlap_add in Ho.
  apply bind_Ok in Ho. destruct Ho as (padded & _ & Ho).
  apply bind_Ok in Ho. destruct Ho as (total & _ & Ho).
  apply bind_Ok in Ho. destruct Ho as (offsets & _ & Ho).
  apply bind_Ok in Ho. destruct Ho as ([buf s2] & Hl & Ho).
  apply bind_Ok in Ho. destruct Ho as (n & _ & Ho). injection Ho as _ <-.
  eapply no_exciter_loop; [exact Hx|exact Hl].
Qed.

Lemma scale_pad_reflect (c : R) (channel : list R) (pad : Z) :
  Upscaler.pad_reflect (scale c channel) pad
  = lift (scale c) (Upscaler.pad_reflect channel pad).
Proof.
  unfold Upscaler.pad_reflect. destruct (pad <? 0)%Z; [reflexivity|].
  destruct channel as [|x0 channel].
  { cbn [scale map]. destruct (pad =? 0)%Z; reflexivity. }
  remember (x0 :: channel) as a eqn:Ea.
  assert (Hs : scale c a = x0 * c :: scale c channel) by now subst a.
  rewrite Hs. rewrite <- Hs. cbn [lift bind]. rewrite scale_length.
  f_equal. unfold scale at 2. rewrite map_map. apply map_ext. intros i.
  unfold scale. apply (map_nth (fun x => x * c)).
Qed.

Lemma fresh_histories (c : R) (self : AudioUpscaler) :
  Forall (fun e => history e = None) (enhancer_chain self) ->
  scale_histories c self = self.
Proof.
  intros H. unfold scale_histories, Upscaler.with_chain.
  destruct self as [i h n d cl chain]. cbn in *. f_equal.
  apply map_id_ext_in. intros e He.
  eapply Forall_forall in H; [|exact He].
  destruct e as [| | |s ab [prev|]]; try reflexivity. discriminate.
Qed.

Lemma returned_lift {A S : Type} (f : S -> S) (r : result (A * S)) :
  returned (lift (fun '(a, s) => (a, f s)) r) = returned r.
Proof. destruct r as [[a s]|x]; reflexivity. Qed.

(** The two gains: on the input, and on the magnitudes. *)

Lemma input_gain (c : R) (self : AudioUpscaler) (channel : list R)
      (sr frame_size hop : Z) :
  0 < c -> no_exciter self ->
  Upscaler._process_channel (scale_histories c self) (scale c channel)
                            sr frame_size hop
  = lift (fun '(out, self') => (out, scale_histories c self'))
         (Upscaler._process_channel self channel sr frame_size hop).
Proof.
  intros Hc Hx.
  apply (process_channel_gain c Hc (scale_histories c) (scale c));
    try assumption; try reflexivity.
  - intros s frame. rewrite (scale_analyze c Hc).
    destruct (Upscaler.analyze frame) as [[m p]|x]; cbn [lift bind];
      [|reflexivity].
    f_equal. f_equal. exact (scale_builtin_stages c Hc s m).
  - apply scale_length.
  - apply scale_slice.
  - apply scale_pad_reflect.
Qed.

Lemma intensity_gain (c : R) (self : AudioUpscaler) (channel : list R)
      (sr frame_size hop : Z) :
  0 < c -> no_exciter self ->
  Upscaler._process_channel
    (with_intensity (scale_histories c self) (intensity self * c))
    channel sr frame_size hop
  = lift (fun '(out, self') =>
            (out, with_intensity (scale_histories c self')
                                 (intensity self' * c)))
         (Upscaler._process_channel self channel sr frame_size hop).
Proof.
  intros Hc Hx.
  apply (process_channel_gain c Hc
           (fun s => with_intensity (scale_histories c s) (intensity s * c))
           (fun l => l));
    try assumption; try reflexivity.
  - intros s frame.
    destruct (Upscaler.analyze frame) as [[m p]|x]; cbn [lift bind];
      [|reflexivity].
    f_equal. f_equal. exact (builtin_stages_gain c Hc s m).
  - intros ch pad. now destruct (Upscaler.pad_reflect ch pad).
Qed.

Lemma process_audio_gain (T : AudioUpscaler -> AudioUpscaler)
      (F : list R -> list R) (self : AudioUpscaler) (given audio_data : audio)
      (sr frame_size hop : Z) :
  (forall s channel,
      no_exciter s ->
      Upscaler._process_channel (T s) (F channel) sr frame_size hop
      = lift (fun '(out, s') => (out, T s'))
             (Upscaler._process_channel s channel sr frame_size hop)) ->
  match audio_data, given with
  | Mono samples, Mono samples' => samples' = F samples
  | Stereo rows, Stereo rows' =>
      map fst rows' = F (map fst rows) /\ map snd rows' = F (map snd rows)
  | _, _ => False
  end ->
  no_exciter self ->
  Upscaler.process_audio (T self) given sr frame_size hop
  = lift (fun '(enhanced, s') => (enhanced, T s'))
         (Upscaler.process_audio self audio_data sr frame_size hop).
Proof.
  intros Hrun Hgiven Hx.
  destruct audio_data as [samples|rows], given as [samples'|rows'];
    try contradiction; cbn [Upscaler.process_audio].
  - subst samples'. rewrite Hrun by exact Hx.
    destruct (Upscaler._process_channel self samples sr frame_size hop)
      as [[out s1]|x]; reflexivity.
  - destruct Hgiven as [-> ->]. rewrite Hrun by exact Hx.
    destruct (Upscaler._process_channel self (map fst rows) sr frame_size hop)
      as [[left s1]|x] eqn:Hl; cbn [lift bind]; [|reflexivity].
    rewrite Hrun by (eapply no_exciter_channel; [exact Hx|exact Hl]).
    destruct (Upscaler._process_channel s1 (map snd rows) sr frame_size hop)
      as [[right s2]|x]; cbn [lift bind]; [|reflexivity].
    destruct (Upscaler.column_stack left right); reflexivity.
Qed.

Lemma gateless_chain (self : AudioUpscaler) :
  gateless self ->
  no_exciter self
  /\ Forall (fun e => history e = None) (enhancer_chain self).
Proof.
  intros (_ & _ & Hw). unfold no_exciter.
  induction (enhancer_chain self) as [|e chain IH];
    [split; [reflexivity|constructor]|].
  cbn [forallb] in *. apply andb_true_iff in Hw. destruct Hw as [He Hw].
  destruct (IH Hw) as [IHx IHf].
  destruct e; try discriminate. cbn [is_exciter negb andb].
  split; [exact IHx|]. constructor; [reflexivity|exact IHf].
Qed.





(** ** Chains without memory *)

Lemma with_own_chain (self : AudioUpscaler) :
  Upscaler.with_chain self (enhancer_chain self) = self.
Proof. now destruct self. Qed.

Lemma stateless_chain (chain : list Enhancer) :
  forallb (fun e => negb (is_transient e)) chain = true ->
  forall m p m' p' chain',
    apply_enhancer_chain m p chain = Ok (m', p', chain') -> chain' = chain.
Proof.
  induction chain as [|e chain IH]; intros Hs m p m' p' chain' H.
  - now injection H as _ _ <-.
  - cbn [forallb] in Hs. apply andb_true_iff in Hs. destruct Hs as [He Hs].
    cbn [apply_enhancer_chain] in H.
    apply bind_Ok in H. destruct H as ([[m1 p1] e1] & Hp & H).
    apply bind_Ok in H. destruct H as ([[m2 p2] c2] & Hc & H).
    injection H as _ _ <-.
    destruct (process_configuration _ _ _ _ _ _ Hp) as (_ & _ & Hsame).
    rewrite Hsame by now destruct (is_transient e).
    now rewrite (IH Hs _ _ _ _ _ Hc).
Qed.

Lemma stateless_frame (self self' : AudioUpscaler) (frame out : list R) :
  stateless self ->
  Upscaler._process_frame self frame = Ok (out, self') -> self' = self.
Proof.
  intros Hs H. unfold Upscaler._process_frame in H.
  apply bind_Ok in H. destruct H as ([m p] & _ & H).
  rewrite chain_cases in H.
  apply bind_Ok in H. destruct H as ([[m1 p1] c1] & Hc & H).
  apply bind_Ok in H. destruct H as (fr & _ & H).
  injection H as _ <-.
  rewrite (stateless_chain _ Hs _ _ _ _ _ Hc). apply with_own_chain.
Qed.

Lemma stateless_loop (padded : list R) (frame_size : Z) (offsets : list Z) :
  forall self buf out self',
    stateless self ->
    Upscaler.frame_loop self padded frame_size offsets buf = Ok (out, self') ->
    self' = self.
Proof.
  induction offsets as [|i rest IH]; intros self buf out self' Hs H.
  - now injection H as _ <-.
  - cbn [Upscaler.frame_loop] in H.
    apply bind_Ok in H. destruct H as ([fr s1] & Hf & H).
    apply bind_Ok in H. destruct H as (w & _ & H).
    apply bind_Ok in H. destruct H as (buf' & _ & H).
    apply stateless_frame in Hf; [|exact Hs]. subst s1.
    eapply IH; [exact Hs|exact H].
Qed.

Lemma stateless_channel (self self' : AudioUpscaler) (channel out : list R)
      (sr frame_size hop : Z) :
  stateless self ->
  Upscaler._process_channel self channel sr frame_size hop = Ok (out, self') ->
  self' = self.
Proof.
  intros Hs H. unfold Upscaler._process_channel in H.
  apply bind_Ok in H. destruct H as ([acc s1] & Ho & H).
  apply bind_Ok in H. destruct H as (nrm & _ & H). injection H as _ <-.
  unfold Upscaler.overlap_add in Ho.
  apply bind_Ok in Ho. destruct Ho as (padded & _ & Ho).
  apply bind_Ok in Ho. destruct Ho as (total & _ & Ho).
  apply bind_Ok in Ho. destruct Ho as (offsets & _ & Ho).
  apply bind_Ok in Ho. destruct Ho as ([buf s2] & Hl & Ho).
  apply bind_Ok in Ho. destruct Ho as (n & _ & Ho). injection Ho as _ <-.
  eapply stateless_loop; [exact Hs|exact Hl].
Qed.

(** X26: with a chain that holds no transient enhancer a run leaves no
    trace: the upscaler is after the run what it was before, and on a
    two-column input each column of the output is what [_process_channel]
    returns for that column alone. *)
Theorem channels_are_independent_without_transients (self self' : AudioUpscaler)
        (rows enhanced : list (R * R)) (sr frame_size hop : Z) :
  stateless self ->
  Upscaler.process_audio self (Stereo rows) sr frame_size hop
  = Ok (Stereo enhanced, self') ->
  self' = self
  /\ Upscaler._process_channel self (map fst rows) sr frame_size hop
     = Ok (map fst enhanced, self)
  /\ Upscaler._process_channel self (map snd rows) sr frame_size hop
     = Ok (map snd enhanced, self).
Proof.
  intros Hs H. apply process_audio_inv in H.
  destruct H as (l & s1 & r & E & Hl & Hr & Ll & Lr).
  injection E as ->.
  pose proof (stateless_channel _ _ _ _ _ _ _ Hs Hl) as E1. subst s1.
  pose proof (stateless_channel _ _ _ _ _ _ _ Hs Hr) as E2. subst self'.
  rewrite map_fst_combine, map_snd_combine by congruence.
  now repeat split.
Qed.

Lemma channels_are_independent_without_transients_witness :
  noop_config = noop_config
  /\ Upscaler._process_channel noop_config
       (map fst [(1, 1); (1, 1); (1, 1); (1, 1); (1, 1)]) 22050 4 2
     = Ok (map fst [(0.95, 0.95); (0.95, 0.95); (0.95, 0.95); (0.95, 0.95);
                    (0.95, 0.95)], noop_config)
  /\ Upscaler._process_channel noop_config
       (map snd [(1, 1); (1, 1); (1, 1); (1, 1); (1, 1)]) 22050 4 2
     = Ok (map snd [(0.95, 0.95); (0.95, 0.95); (0.95, 0.95); (0.95, 0.95);
                    (0.95, 0.95)], noop_config).
Proof.
  exact (channels_are_independent_without_transients noop_config noop_config
           [(1, 1); (1, 1); (1, 1); (1, 1); (1, 1)]
           [(0.95, 0.95); (0.95, 0.95); (0.95, 0.95); (0.95, 0.95);
            (0.95, 0.95)] 22050 4 2 eq_refl (stereo_constant_run 22050)).
Defined.

(** ** The spectrum of a frame *)

Lemma chain_nonneg (chain : list Enhancer) :
  Forall nonneg_params chain -> Forall positive_drive chain ->
  forall m p m' p' chain',
    all_nonneg m ->
    apply_enhancer_chain m p chain = Ok (m', p', chain') ->
    all_nonneg m'.
Proof.
  induction chain as [|e chain IH]; intros Hn Hd m p m' p' chain' Hm H.
  - now injection H as <- _ _.
  - inversion Hn as [|? ? Hne Hnc]; subst.
    inversion Hd as [|? ? Hde Hdc]; subst.
    cbn [apply_enhancer_chain] in H.
    apply bind_Ok in H. destruct H as ([[m1 p1] e1] & Hp & H).
    apply bind_Ok in H. destruct H as ([[m2 p2] c2] & Hc & H).
    injection H as <- _ _.
    eapply (IH Hnc Hdc); [|exact Hc].
    destruct e as [hb hd pp|w fr|d fr|s ab prev]; cbn [process] in Hp.
    + apply bind_Ok in Hp. destruct Hp as ([a b] & Hh & Hp).
      injection Hp as <- _ _.
      exact (harmonic_process_nonneg m p Hm hb hd a b (proj1 Hne) Hh).
    + unfold SpectralWidener.process in Hp. injection Hp as <- _ _. exact Hm.
    + destruct (exciter_process_nonneg m p Hm d Hde) as (m0 & E & Hm0).
      rewrite E in Hp. cbn [bind] in Hp. injection Hp as <- _ _. exact Hm0.
    + apply bind_Ok in Hp. destruct Hp as ([[a b] h] & Ht & Hp).
      injection Hp as <- _ _.
      eapply (transient_process_nonneg m p Hm); [exact (proj2 Hne)|exact Ht].
Qed.

Lemma analyze_nonneg (frame m p : list R) :
  Upscaler.analyze frame = Ok (m, p) ->
  all_nonneg m /\ length m = (length frame / 2 + 1)%nat
  /\ length p = (length frame / 2 + 1)%nat.
Proof.
  unfold Upscaler.analyze. intros H.
  apply bind_Ok in H. destruct H as (bins & Hb & H).
  injection H as <- <-. apply rfft_length in Hb. destruct Hb as [Hb _].
  rewrite !length_map. repeat split; try exact Hb.
  apply Forall_map, Forall_forall. intros z _. apply sqrt_pos.
Qed.

(** X27: with non-negative settings and enhancer parameters and exciter
    drives above zero, the spectrum that a frame's analysis, the built-in
    stages and the whole chain hand to the synthesis has N // 2 + 1
    magnitudes, none of them negative, and as many phases. *)
Theorem spectrum_for_synthesis_is_nonneg (self : AudioUpscaler)
        (frame m p m' p' : list R) (chain' : list Enhancer) :
  0 <= intensity self -> 0 <= harmonics_boost self ->
  Forall nonneg_params (enhancer_chain self) ->
  Forall positive_drive (enhancer_chain self) ->
  Upscaler.analyze frame = Ok (m, p) ->
  apply_enhancer_chain (Upscaler.builtin_stages self m) p (enhancer_chain self)
  = Ok (m', p', chain') ->
  all_nonneg m'
  /\ length m' = (length frame / 2 + 1)%nat
  /\ length p' = (length frame / 2 + 1)%nat.
Proof.
  intros Hi Hh Hn Hd Ha Hc.
  destruct (analyze_nonneg _ _ _ Ha) as (Hm & Lm & Lp).
  destruct (chain_lengths _ _ _ _ _ _ Hc) as (Lm' & Lp' & _).
  rewrite builtin_stages_length in Lm'.
  split; [|split; congruence].
  eapply (chain_nonneg _ Hn Hd); [|exact Hc].
  now apply builtin_stages_nonneg.
Qed.

Lemma spectrum_for_synthesis_is_nonneg_witness :
  all_nonneg (Upscaler.builtin_stages (transient_config 0.5 2 None)
                                      [4 * 1; 0; 0])
  /\ length (Upscaler.builtin_stages (transient_config 0.5 2 None)
                                     [4 * 1; 0; 0])
     = (length [1; 1; 1; 1] / 2 + 1)%nat
  /\ length [0; 0; 0] = (length [1; 1; 1; 1] / 2 + 1)%nat.
Proof.
  apply (spectrum_for_synthesis_is_nonneg (transient_config 0.5 2 None)
           [1; 1; 1; 1] [4 * 1; 0; 0] [0; 0; 0] _ _
           [TransientEnhancer 0.5 2 (Some (Upscaler.builtin_stages
                                             (transient_config 0.5 2 None)
                                             [4 * 1; 0; 0]))]).
  - cbn [transient_config Upscaler.with_chain noop_config intensity]. lra.
  - cbn [transient_config Upscaler.with_chain noop_config harmonics_boost].
    lra.
  - repeat constructor; cbn; lra.
  - repeat constructor.
  - apply analyze_constant_frame. lra.
  - reflexivity.
Defined.

(** ** What the noise floor takes away *)

Lemma sum_above (a : R) (l : list R) :
  l <> [] -> Forall (fun x => a < x) l -> INR (length l) * a < Np.sum l.
Proof.
  intros Hne H. induction H as [|x l Hx Hl IH]; [contradiction|].
  cbn [Np.sum fold_right length]. fold (Np.sum l). rewrite S_INR.
  destruct l as [|y l].
  - simpl. lra.
  - specialize (IH ltac:(discriminate)). lra.
Qed.

Lemma some_bin_is_at_most_the_mean (l : list R) :
  l <> [] -> exists j, (j < length l)%nat /\ nth j l 0 <= Np.mean l.
Proof.
  intros Hne.
  destruct (Exists_dec (fun x => x <= Np.mean l) l
              (fun x => Rle_dec x (Np.mean l))) as [Hex|Hno].
  - apply Exists_nth in Hex. destruct Hex as (j & d & Hj & Hle).
    exists j. split; [exact Hj|]. now rewrite (nth_indep l 0 d Hj).
  - exfalso. apply Forall_Exists_neg in Hno.
    assert (Hall : Forall (fun x => Np.mean l < x) l).
    { eapply Forall_impl; [|exact Hno]. intros x Hx. cbv beta in Hx. lra. }
    pose proof (sum_above (Np.mean l) l Hne Hall) as Hlt.
    assert (Hn : 0 < INR (length l)).
    { apply lt_0_INR. destruct l; [contradiction|simpl; lia]. }
    unfold Np.mean in Hlt.
    replace (INR (length l) * (Np.sum l / INR (length l))) with (Np.sum l)
      in Hlt by (field; lra).
    lra.
Qed.



(** ** The announced number of frames *)

(** X29: with a hop above zero and a padded channel of at least a frame,
    the total announced to the progress bar is the number of frames the
    loop processes or one more, and it is one more exactly when the hop
    divides the samples after the first frame. *)
Theorem announced_total_is_at_most_one_too_many (padded_len frame_size hop : Z)
        (offsets : list Z) (total : Z) :
  (0 < hop)%Z -> (frame_size <= padded_len)%Z ->
  Upscaler.frame_offsets padded_len frame_size hop = Ok offsets ->
  Upscaler.total_frames padded_len frame_size hop = Ok total ->
  (Z.of_nat (length offsets) <= total <= Z.of_nat (length offsets) + 1)%Z
  /\ (total = Z.of_nat (length offsets) + 1
      <-> (padded_len - frame_size) mod hop = 0)%Z.
Proof.
  intros Hhop Hle Hoff Htot.
  unfold Upscaler.total_frames in Htot.
  destruct (Z.eqb_spec hop 0); [lia|]. apply ok_inj in Htot. subst total.
  unfold Upscaler.frame_offsets, Py.range in Hoff.
  destruct (Z.eqb_spec hop 0); [lia|]. apply ok_inj in Hoff. subst offsets.
  rewrite length_map, length_seq, range_len_positive_step by exact Hhop.
  set (d := (padded_len - frame_size)%Z).
  assert (Hd : (0 <= d)%Z) by (subst d; lia).
  pose proof (Z.div_mod d hop ltac:(lia)) as Hdm.
  pose proof (Z.mod_pos_bound d hop Hhop) as Hr.
  assert (Hq : (0 <= d / hop)%Z) by (apply Z.div_pos; lia).
  destruct (Z.eq_dec (d mod hop) 0) as [Hz|Hnz].
  - assert (E : ((d + hop - 1) / hop = d / hop)%Z).
    { symmetry. apply (Z.div_unique_pos _ _ _ (hop - 1)); lia. }
    rewrite E, Z.max_r by exact Hq. clear E Hdm.
    remember (d / hop)%Z as q eqn:Eq. clear Eq.
    split; [lia|]. split; [intros _; exact Hz|lia].
  - assert (E : ((d + hop - 1) / hop = d / hop + 1)%Z).
    { symmetry. apply (Z.div_unique_pos _ _ _ (d mod hop - 1)); lia. }
    rewrite E, Z.max_r by lia. clear E Hdm.
    remember (d / hop)%Z as q eqn:Eq. clear Eq.
    split; [lia|]. split; [lia|intros; contradiction].
Qed.

Lemma announced_total_is_at_most_one_too_many_witness :
  (Z.of_nat (length [0; 2; 4; 6; 8]%Z) <= 6
   <= Z.of_nat (length [0; 2; 4; 6; 8]%Z) + 1)%Z
  /\ (6 = Z.of_nat (length [0; 2; 4; 6; 8]%Z) + 1
      <-> (14 - 4) mod 2 = 0)%Z.
Proof.
  apply (announced_total_is_at_most_one_too_many 14 4 2 [0; 2; 4; 6; 8]%Z 6);
    [lia|lia|reflexivity|reflexivity].
Defined.

(** ** Enhancers by name *)

Lemma and_then_Return {A B : Type} (c : outcome A) (k : A -> outcome B)
      (b : B) :
  and_then c k = Return b -> exists a, c = Return a /\ k a = Return b.
Proof. destruct c as [a|e]; [intros H; now exists a|discriminate]. Qed.

Lemma create_enhancer_chain_app (first second : list item) :
  create_enhancer_chain (first ++ second)
  = and_then (create_enhancer_chain first) (fun head =>
    and_then (create_enhancer_chain second) (fun tail =>
    Return (head ++ tail))).
Proof.
  induction first as [|it first IH]; cbn [app create_enhancer_chain and_then].
  - destruct (create_enhancer_chain second); reflexivity.
  - destruct (item_name it) as [n|]; [|reflexivity].
    destruct (lookup n get_available_enhancers) as [cls|]; [|exact IH].
    destruct (new cls _) as [e|x]; cbn [and_then]; [|reflexivity].
    rewrite IH.
    destruct (create_enhancer_chain first) as [head|x]; cbn [and_then];
      [|reflexivity].
    destruct (create_enhancer_chain second) as [tail|x]; reflexivity.
Qed.

(** X20: the chain created from a configuration in two parts is the chain
    of the first part followed by the chain of the second, and an exception
    in either part is the exception of the whole. *)
Theorem chain_of_a_joined_configuration (first second : list item) :
  create_enhancer_chain (first ++ second)
  = and_then (create_enhancer_chain first) (fun head =>
    and_then (create_enhancer_chain second) (fun tail =>
    Return (head ++ tail))).
Proof. apply create_enhancer_chain_app. Qed.

Lemma set_kwarg_history (e e' : Enhancer) (kw : kwarg) :
  set_kwarg e kw = Return e' -> history e' = history e.
Proof.
  destruct e, kw; cbn [set_kwarg]; intros H; try discriminate;
    injection H as <-; reflexivity.
Qed.

Lemma new_history (cls : enhancer_class) (params : list kwarg) (e : Enhancer) :
  new cls params = Return e -> history e = None.
Proof.
  unfold new.
  assert (H0 : history (defaults cls) = None) by now destruct cls.
  revert H0. generalize (defaults cls) as e0. revert e.
  induction params as [|kw params IH]; intros e e0 H0; cbn [fold_left].
  - intros H; injection H as <-. exact H0.
  - cbn [and_then]. destruct (set_kwarg e0 kw) as [e1|x] eqn:E.
    + apply IH. now rewrite (set_kwarg_history _ _ _ E).
    + clear. intros H. exfalso. revert H.
      induction params as [|kw' params IH]; cbn [fold_left and_then];
        [discriminate|exact IH].
Qed.

(** X21: a chain that [create_enhancer_chain] returns has at most as many
    enhancers as the configuration has entries, and none of them holds a
    history: whatever the keywords, a created transient enhancer has seen no
    frame. *)
Theorem created_chain_is_fresh (config : list item) (chain : list Enhancer) :
  create_enhancer_chain config = Return chain ->
  Forall (fun e => history e = None) chain
  /\ (length chain <= length config)%nat.
Proof.
  revert chain. induction config as [|it config IH]; intros chain H.
  - injection H as <-. split; [constructor|apply Nat.le_refl].
  - cbn [create_enhancer_chain] in H.
    destruct (item_name it) as [n|]; [|discriminate].
    destruct (lookup n get_available_enhancers) as [cls|].
    + apply and_then_Return in H. destruct H as (e & He & H).
      apply and_then_Return in H. destruct H as (es & Hes & H).
      injection H as <-. destruct (IH es Hes) as [Hf Hl].
      split; [constructor; [now apply new_history in He|exact Hf]|].
      cbn [length]. lia.
    + destruct (IH chain H) as [Hf Hl]. split; [exact Hf|].
      cbn [length]. lia.
Qed.

Lemma created_chain_is_fresh_witness :
  Forall (fun e => history e = None)
         [TransientEnhancer 0.5 3 None; defaults HarmonicEnhancer_class]
  /\ (length [TransientEnhancer 0.5 3 None; defaults HarmonicEnhancer_class]
      <= length [{| item_name := Some "transient"%string;
                    item_params := Some [kw_attack_boost 3] |};
                 {| item_name := Some "reverb"%string;
                    item_params := None |};
                 {| item_name := Some "harmonic"%string;
                    item_params := None |}])%nat.
Proof.
  exact (created_chain_is_fresh
           [{| item_name := Some "transient"%string;
               item_params := Some [kw_attack_boost 3] |};
            {| item_name := Some "reverb"%string; item_params := None |};
            {| item_name := Some "harmonic"%string; item_params := None |}]
           [TransientEnhancer 0.5 3 None; defaults HarmonicEnhancer_class]
           eq_refl).
Defined.

(** The default instances of the names that [get_available_enhancers]
    knows, in their order. *)
Lemma chain_of_names (names : list String.string) :
  create_enhancer_chain
    (map (fun n => {| item_name := Some n; item_params := None |}) names)
  = Return (flat_map (fun n =>
              match lookup n get_available_enhancers with
              | Some cls => [defaults cls]
              | None => []
              end) names).
Proof.
  induction names as [|n names IH]; [reflexivity|].
  cbn [map create_enhancer_chain item_name item_params flat_map].
  destruct (lookup n get_available_enhancers) as [cls|]; [|exact IH].
  rewrite IH. reflexivity.
Qed.

(** X22: the loop of the upscale command never raises: from the names given
    with --enhancers it builds the default instance of every name that
    [get_available_enhancers] has, in the order given, and it leaves out any
    other name without a word. *)
Theorem cli_chain_ignores_unknown_names (enhancer_list : list String.string) :
  cli_enhancer_chain enhancer_list []
  = Return (flat_map (fun n =>
              match lookup n get_available_enhancers with
              | Some cls => [defaults cls]
              | None => []
              end) enhancer_list).
Proof.
  assert (H : forall acc,
             cli_enhancer_chain enhancer_list acc
             = Return (acc ++ flat_map (fun n =>
                          match lookup n get_available_enhancers with
                          | Some cls => [defaults cls]
                          | None => []
                          end) enhancer_list)).
  { induction enhancer_list as [|n names IH]; intros acc;
      cbn [cli_enhancer_chain flat_map].
    - now rewrite app_nil_r.
    - pose proof (chain_of_names [n]) as Hn. cbn [map flat_map] in Hn.
      rewrite Hn. cbn [and_then].
      rewrite IH, app_nil_r, <- app_assoc. reflexivity. }
  exact (H []).
Qed.

(** X23: for each name of [get_available_enhancers], what
    [get_enhancer_params] lists are keywords of the constructor of that
    class with the constructor's own defaults as values: the call with them
    gives the instance that the call without arguments gives.  For any other
    name the list is empty. *)
Theorem advertised_defaults_are_the_defaults (enhancer_type : String.string) :
  match lookup enhancer_type get_available_enhancers with
  | Some cls =>
      get_enhancer_params enhancer_type <> []
      /\ new cls (get_enhancer_params enhancer_type) = Return (defaults cls)
  | None => get_enhancer_params enhancer_type = []
  end.
Proof.
  unfold get_enhancer_params, get_available_enhancers. cbn [lookup].
  destruct (String.eqb_spec enhancer_type "harmonic") as [->|H1];
    [split; [discriminate|reflexivity]|].
  destruct (String.eqb_spec enhancer_type "widener") as [->|H2];
    [split; [discriminate|reflexivity]|].
  destruct (String.eqb_spec enhancer_type "exciter") as [->|H3];
    [split; [discriminate|reflexivity]|].
  destruct (String.eqb_spec enhancer_type "transient") as [->|H4];
    [split; [discriminate|reflexivity]|].
  reflexivity.
Qed.

(** ** Presets *)

Lemma written_names (e : Enhancer) :
  create_enhancer_chain
    [{| item_name := Some (Str.replace "enhancer"%string ""%string (Str.lower (name e)));
        item_params := None |}]
  = Return (restored e).
Proof. destruct e; reflexivity. Qed.

Lemma chain_of_preset (chain : list Enhancer) :
  create_enhancer_chain
    (map (fun e =>
            {| item_name :=
                 Some (Str.replace "enhancer"%string ""%string (Str.lower (name e)));
               item_params := None |}) chain)
  = Return (flat_map restored chain).
Proof.
  induction chain as [|e chain IH]; [reflexivity|].
  change (map ?f (e :: chain)) with ([f e] ++ map f chain).
  rewrite create_enhancer_chain_app.
  cbv beta. rewrite written_names, IH. reflexivity.
Qed.

(** X24: loading the preset that [save_preset] has just written gives the
    five settings of the upscaler back, with a chain that holds a new
    default instance for each harmonic, exciter and transient enhancer of
    the saved chain, in order, and nothing for a SpectralWidener: its name
    is written as "spectralwidener", which [get_available_enhancers] does
    not have.  The parameters and the history of the enhancers are not
    kept. *)
Theorem preset_round_trip (PRESETS_DIR preset_name : String.string)
        (self : AudioUpscaler) (fs : files) :
  from_preset PRESETS_DIR preset_name
              (snd (save_preset PRESETS_DIR self preset_name fs))
  = Return (Upscaler.with_chain self
              (flat_map restored (enhancer_chain self))).
Proof.
  unfold from_preset, save_preset, PresetManager.save_preset,
    PresetManager.load_preset. cbn [snd].
  rewrite String.eqb_refl. cbn [and_then preset_of preset_enhancers].
  rewrite chain_of_preset. cbn [and_then].
  unfold from_preset_data, Upscaler.__init__, Upscaler.with_chain.
  cbn [preset_intensity preset_harmonics_boost preset_noise_reduction
       preset_dynamic_boost preset_clarity_enhance or_default].
  destruct (flat_map restored (enhancer_chain self)); reflexivity.
Qed.

(** X25: [delete_preset] returns True exactly when [load_preset] would have
    returned; after it, [from_preset] raises ValueError for that name,
    another [delete_preset] returns False and changes nothing, and no other
    file has changed. *)
Theorem deleted_preset_is_gone (PRESETS_DIR preset_name : String.string)
        (fs : files) :
  let '(deleted, fs') :=
    PresetManager.delete_preset PRESETS_DIR preset_name fs in
  (deleted = true
   <-> exists data,
         PresetManager.load_preset PRESETS_DIR preset_name fs = Return data)
  /\ from_preset PRESETS_DIR preset_name fs' = Throw (Raised ValueError)
  /\ PresetManager.delete_preset PRESETS_DIR preset_name fs' = (false, fs')
  /\ forall path,
       path <> PresetManager.get_preset_path PRESETS_DIR preset_name ->
       fs' path = fs path.
Proof.
  unfold PresetManager.delete_preset, from_preset, PresetManager.load_preset.
  destruct (fs (PresetManager.get_preset_path PRESETS_DIR preset_name))
    as [data|] eqn:E.
  - rewrite String.eqb_refl. cbn [and_then].
    split; [split; [intros _; now exists data|reflexivity]|].
    repeat split.
    intros path Hp. destruct (String.eqb_spec path
      (PresetManager.get_preset_path PRESETS_DIR preset_name));
      [contradiction|reflexivity].
  - rewrite E. cbn [and_then].
    split; [split; [discriminate|intros [data H]; discriminate]|].
    repeat split.
Qed.

